(** * HiDPI.js and the ZG_Waypoints scroll scheduler

    A shallow embedding of [src/lib/zg.waypoints.js] and [src/hidpi.js].

    JavaScript numbers are IEEE 754 binary64 values, so coordinates are
    primitive floats and the comparisons are the IEEE ones (a comparison
    with NaN is false).  jQuery collections are lists of node identities,
    the document is a list of nodes in document order. *)

From Stdlib Require Import Floats.
From stdpp Require Import base strings list gmap sorting.

#[local] Set Warnings "-inexact-float".

(** ** JavaScript numbers *)

Module JS.

(** [ToBoolean] on a number: [0], [-0] and [NaN] are falsy. *)
Definition truthy (x : float) : bool :=
  negb (PrimFloat.eqb x 0%float || negb (PrimFloat.eqb x x)).

(** [a || b] where [a] is either [undefined] (an omitted argument, [None])
    or a number. *)
Definition or_default (a : option float) (b : float) : float :=
  match a with
  | Some x => if truthy x then x else b
  | None => b
  end.

(** [x >= y] *)
Definition geb (x y : float) : bool := PrimFloat.leb y x.

(** [x > y] *)
Definition gtb (x y : float) : bool := PrimFloat.ltb y x.

End JS.

(** ** The window, as [jQuery( window )] reads it *)

Record window := Window {
  win_scrollTop : float;  (* $window.scrollTop() *)
  win_height : float      (* $window.height() *)
}.

(** ** [ZG_Waypoints.inView] (zg.waypoints.js, lines 27-38) *)

Definition inView (win : window) (elementTop elementBottom : float)
    (viewMargin : option float) : bool :=
  let viewMargin := JS.or_default viewMargin 0.1%float in
  let viewTop := win_scrollTop win in
  let viewBottom := (viewTop + win_height win)%float in
  let viewMargin := (win_height win * viewMargin)%float in
  (JS.geb elementTop (viewTop + viewMargin)%float
     && PrimFloat.leb elementTop (viewBottom - viewMargin)%float)
  || (JS.geb elementBottom (viewTop + viewMargin)%float
     && PrimFloat.leb elementBottom (viewBottom - viewMargin)%float).

(** The viewport shrunk by the default margin, one tenth of the window's
    height on each edge, as the specification words it: the pair
    [(viewTop + margin, viewBottom - margin)]. *)
Definition shrunk_viewport (win : window) : float * float :=
  let margin := (win_height win * 0.1)%float in
  ((win_scrollTop win + margin)%float,
   ((win_scrollTop win + win_height win) - margin)%float).

(** [x] lies within [[lo, hi]]. *)
Definition within (range : float * float) (x : float) : Prop :=
  PrimFloat.leb (fst range) x = true ∧ PrimFloat.leb x (snd range) = true.

(** [x] lies above the range (coordinates grow down the page: it is less
    than the start of the range), or below it (it exceeds its end). *)
Definition above (range : float * float) (x : float) : Prop :=
  PrimFloat.ltb x (fst range) = true.

Definition below (range : float * float) (x : float) : Prop :=
  PrimFloat.ltb (snd range) x = true.

(** ** The waypoint scheduler (zg.waypoints.js)

    [F] is the type of callback function values, [A] the type of the extra
    arguments handed to [add], and [C] the state the callbacks run against
    (for hidpi.js: the document and its image loaders).  A callback is run
    through [apply], the model of [Function.prototype.apply]; it receives the
    waypoint as [this] and acts on [C]: the callbacks of this repository do
    not reach back into the scheduler or move the window. *)

Module ZG_Waypoints.
Section scheduler.
Context {F A C : Type}.

(** The object built by [jQuery.extend( {...}, options )] in [add].  Every
    call of [add] builds a new object; [oid] is its identity (its allocation
    number), so that two waypoints with the same coordinates, callback and
    arguments remain two regions. *)
Record waypoint := Waypoint {
  oid : nat;
  top : float;
  bottom : float;
  callback : option F;
  callbackArgs : list A;
  oneShot : bool
}.

(** The [options] argument of [add].  [oneShot] is the one documented
    property; a missing property (or a missing object) reads as
    [undefined], which is falsy where [update] tests it. *)
Record options := Options { opt_oneShot : bool }.

(** The scheduler: the static array [ZG_Waypoints.waypoints], the number of
    times [ZG_Waypoints.update] is bound to the window's scroll event
    (jQuery's [on] adds one binding per call, [off] with the handler drops
    them all), and the number of waypoint objects built so far. *)
Record t := Scheduler {
  waypoints : list waypoint;
  scroll_handlers : nat;
  allocated : nat
}.

(** Line 17: [ZG_Waypoints.waypoints = []]. *)
Definition empty : t :=
  {| waypoints := []; scroll_handlers := 0; allocated := 0 |}.

(** [ZG_Waypoints.add] (lines 76-87). *)
Definition add (top bottom : float) (callback : option F)
    (options : options) (callbackArgs : list A) (z : t) : t :=
  {| waypoints := waypoints z ++
       [ {| oid := allocated z;
            top := top;
            bottom := bottom;
            callback := callback;
            callbackArgs := callbackArgs;
            oneShot := opt_oneShot options |} ];
     scroll_handlers := S (scroll_handlers z);
     allocated := S (allocated z) |}.

Variable apply : F → waypoint → list A → C → C.

(** The [while ( i-- )] loop of [update] (lines 104-119).  The loop state is
    the array, the callbacks' state and the waypoints whose callback has been
    invoked so far, in invocation order.  The argument [i] is the value the
    loop test reads; the body runs with [i - 1].  [splice( i, 1 )] is
    [delete i].  Reading an index past the end would give [undefined] and
    the loop would throw on [waypoint.top]; [update_loop_run] shows that the
    loop never does so, and the model stops there. *)
Fixpoint update_loop (win : window) (i : nat)
    (st : list waypoint * C * list waypoint) : list waypoint * C * list waypoint :=
  match i with
  | 0 => st
  | S i =>
      let '(wps, c, fired) := st in
      match wps !! i with
      | None => st
      | Some waypoint =>
          if inView win (top waypoint) (bottom waypoint) None then
            let '(c, fired) :=
              match callback waypoint with
              | Some f => (apply f waypoint (callbackArgs waypoint) c, fired ++ [waypoint])
              | None => (c, fired)
              end in
            let wps := if oneShot waypoint then delete i wps else wps in
            update_loop win i (wps, c, fired)
          else update_loop win i (wps, c, fired)
      end
  end.

(** [ZG_Waypoints.update] (lines 103-125): the new scheduler, the new
    callback state, and the waypoints whose callback ran, in order. *)
Definition update (win : window) (z : t) (c : C) : t * C * list waypoint :=
  let '(wps, c, fired) := update_loop win (length (waypoints z)) (waypoints z, c, []) in
  (* if ( ! ZG_Waypoints.waypoints.length ) jQuery( window ).off( "scroll", update ) *)
  let handlers := if bool_decide (length wps = 0) then 0 else scroll_handlers z in
  ({| waypoints := wps; scroll_handlers := handlers; allocated := allocated z |},
   c, fired).

(** A scroll event on the window: jQuery copies the list of bound handlers
    when the event is dispatched and runs every one of them, so [update]
    runs once per binding that existed when the event arrived. *)
Fixpoint dispatch (win : window) (n : nat) (z : t) (c : C) : t * C * list waypoint :=
  match n with
  | 0 => (z, c, [])
  | S n =>
      let '(z, c, fired) := update win z c in
      let '(z, c, fired') := dispatch win n z c in
      (z, c, fired ++ fired')
  end.

Definition scroll (win : window) (z : t) (c : C) : t * C * list waypoint :=
  dispatch win (scroll_handlers z) z c.

(** Several scroll events in a row. *)
Fixpoint scrolls (wins : list window) (z : t) (c : C) : t * C * list waypoint :=
  match wins with
  | [] => (z, c, [])
  | win :: wins =>
      let '(z, c, fired) := scroll win z c in
      let '(z, c, fired') := scrolls wins z c in
      (z, c, fired ++ fired')
  end.

(** What [update] does, read off the array: the waypoints that stay, the
    waypoints whose callback runs, and the callbacks' effect. *)
Definition in_view (win : window) (w : waypoint) : bool :=
  inView win (top w) (bottom w) None.

Definition stays (win : window) (w : waypoint) : bool :=
  negb (in_view win w && oneShot w).

Definition fires (win : window) (w : waypoint) : bool :=
  in_view win w && bool_decide (is_Some (callback w)).

Definition invoke (c : C) (w : waypoint) : C :=
  match callback w with
  | Some f => apply f w (callbackArgs w) c
  | None => c
  end.

(** The calls a client makes and the scroll events, for runs of the
    scheduler. *)
Inductive op :=
| Add (top bottom : float) (callback : option F) (options : options)
    (callbackArgs : list A)
| Update (win : window)
| Scroll (win : window).

Definition step (o : op) (z : t) (c : C) : t * C * list waypoint :=
  match o with
  | Add top bottom callback options callbackArgs =>
      (add top bottom callback options callbackArgs z, c, [])
  | Update win => update win z c
  | Scroll win => scroll win z c
  end.

Fixpoint run (ops : list op) (z : t) (c : C) : t * C * list waypoint :=
  match ops with
  | [] => (z, c, [])
  | o :: ops =>
      let '(z, c, fired) := step o z c in
      let '(z, c, fired') := run ops z c in
      (z, c, fired ++ fired')
  end.

(** In a scheduler built from [empty] the array is in registration order:
    the allocation numbers increase along it and lie below [allocated]. *)
Definition registered (z : t) : Prop :=
  StronglySorted lt (oid <$> (waypoints z))
  ∧ Forall (λ w, oid w < allocated z) (waypoints z).

(** How a run moves a scheduler on: [z'] is reached from a scheduler [z],
    with [fired] the waypoints whose callback ran on the way. *)
Record moves (z z' : t) (fired : list waypoint) : Prop := {
  moves_registered : registered z';
  moves_allocated : allocated z ≤ allocated z';
  moves_once : NoDup (oid <$> (filter (λ w, oneShot w = true) fired));
  moves_origin : ∀ w, w ∈ fired → oid w ∈ oid <$> (waypoints z) ∨ allocated z ≤ oid w;
  moves_below : ∀ w, w ∈ fired → oid w < allocated z';
  moves_gone : ∀ w, w ∈ fired → oneShot w = true → oid w ∉ oid <$> (waypoints z');
  moves_kept : ∀ i, i ∈ oid <$> (waypoints z') → i ∈ oid <$> (waypoints z) ∨ allocated z ≤ i
}.

End scheduler.
Arguments waypoint : clear implicits.
Arguments t : clear implicits.
Arguments op : clear implicits.
Arguments registered {F A} z.
Arguments moves {F A} z z' fired.
End ZG_Waypoints.

(** ** The document, as jQuery reads and writes it

    A document is the list of its elements in document order; every element
    carries its identity [nid] and the identity of its parent, which together
    with the order give the tree.  A jQuery collection is the list of the
    identities it wraps.  The layout (the width, height and offset of an
    element) is the browser's; the code only reads it. *)

Module DOM.

(** A value handed to or read from [css()]: a string, a bare number, or the
    string [x + "px"] built from a number. *)
Inductive css_value :=
| CssString (s : string)
| CssNumber (x : float)
| CssPx (x : float).

Record node := Node {
  nid : nat;
  parent : option nat;
  tagName : string;
  classes : list string;              (* the class attribute, split at spaces *)
  attrs : gmap string string;         (* the other attributes *)
  style : gmap string css_value;      (* the style properties css() reads and writes *)
  width : float;                      (* $( el ).width() *)
  height : float;                     (* $( el ).height() *)
  outerWidth : float;                 (* $( el ).outerWidth() *)
  outerHeight : float;                (* $( el ).outerHeight() *)
  offset_top : float                  (* $( el ).offset().top *)
}.

Abbreviation document := (list node).
Abbreviation jquery := (list nat).

Definition set_classes (f : list string → list string) (n : node) : node :=
  Node (nid n) (parent n) (tagName n) (f (classes n)) (attrs n) (style n)
    (width n) (height n) (outerWidth n) (outerHeight n) (offset_top n).

Definition set_attrs (f : gmap string string → gmap string string) (n : node) : node :=
  Node (nid n) (parent n) (tagName n) (classes n) (f (attrs n)) (style n)
    (width n) (height n) (outerWidth n) (outerHeight n) (offset_top n).

Definition set_style (f : gmap string css_value → gmap string css_value) (n : node) : node :=
  Node (nid n) (parent n) (tagName n) (classes n) (attrs n) (f (style n))
    (width n) (height n) (outerWidth n) (outerHeight n) (offset_top n).

Definition set_place (i : nat) (p : option nat) (n : node) : node :=
  Node i p (tagName n) (classes n) (attrs n) (style n)
    (width n) (height n) (outerWidth n) (outerHeight n) (offset_top n).

Definition hasClass (c : string) (n : node) : bool := bool_decide (c ∈ classes n).

(** [$( "." + c )]: the elements of the document with class [c], in document
    order. *)
Definition select_class (c : string) (d : document) : jquery :=
  nid <$> filter (λ n, hasClass c n = true) d.

(** The element with identity [i]. *)
Definition lookup_node (i : nat) (d : document) : option node :=
  List.find (λ n, bool_decide (nid n = i)) d.

(** The first element of a collection: the one a jQuery getter reads. *)
Definition first_node (sel : jquery) (d : document) : option node :=
  match sel with
  | [] => None
  | i :: _ => lookup_node i d
  end.

(** A jQuery setter runs on every element of the collection. *)
Definition on_nodes (sel : jquery) (f : node → node) (d : document) : document :=
  (λ n, if bool_decide (nid n ∈ sel) then f n else n) <$> d.

Definition add_class (c : string) (cs : list string) : list string :=
  if bool_decide (c ∈ cs) then cs else cs ++ [c].

Definition remove_class (c : string) (cs : list string) : list string :=
  filter (λ c', c' ≠ c) cs.

(** [.addClass( "a b" )] and [.removeClass( "a b" )], the names given as a
    list. *)
Definition addClass (names : list string) (sel : jquery) (d : document) : document :=
  on_nodes sel (set_classes (λ cs, foldl (λ cs c, add_class c cs) cs names)) d.

Definition removeClass (names : list string) (sel : jquery) (d : document) : document :=
  on_nodes sel (set_classes (λ cs, foldl (λ cs c, remove_class c cs) cs names)) d.

(** [.attr( name, value )]; with [value] undefined ([None]) jQuery sets
    nothing. *)
Definition attr_set (name : string) (value : option string) (sel : jquery)
    (d : document) : document :=
  match value with
  | Some v => on_nodes sel (set_attrs (insert name v)) d
  | None => d
  end.

Definition removeAttr (name : string) (sel : jquery) (d : document) : document :=
  on_nodes sel (set_attrs (delete name)) d.

(** [.data( key )] on an element that has no stored data yet reads the
    [data-key] attribute. *)
Definition data (key : string) (sel : jquery) (d : document) : option string :=
  n ← first_node sel d; attrs n !! ("data-" +:+ key).

(** The value of a style property that was never set. *)
Definition initial_value (prop : string) : css_value :=
  if bool_decide (prop = "position") then CssString "static" else CssString "".

Definition css_of (prop : string) (n : node) : css_value :=
  default (initial_value prop) (style n !! prop).

(** [.css( prop )]: [None] is [undefined], on an empty collection. *)
Definition css_get (prop : string) (sel : jquery) (d : document) : option css_value :=
  css_of prop <$> first_node sel d.

Definition css_set (prop : string) (v : css_value) (sel : jquery) (d : document) : document :=
  on_nodes sel (set_style (insert prop v)) d.

Definition prop_tagName (sel : jquery) (d : document) : option string :=
  tagName <$> first_node sel d.

(** An identity no element of the document has. *)
Definition fresh (d : document) : nat := S (max_list (nid <$> d)).

(** [.clone()] of a collection of one element: a detached copy with an
    identity of its own. *)
Definition clone (sel : jquery) (d : document) : list node :=
  match first_node sel d with
  | Some n => [set_place (fresh d) None n]
  | None => []
  end.

(** Put [new] right after the first element for which [at_node] holds. *)
Fixpoint splice_after (at_node : node → bool) (new : node → list node)
    (d : document) : document :=
  match d with
  | [] => []
  | n :: d =>
      if at_node n then n :: new n ++ d
      else n :: splice_after at_node new d
  end.

(** [new.insertAfter( target )], for a target of one element: the new nodes
    become the next siblings of the target.  The target has no children where
    the code uses this (an IMG element), so its next sibling is the next
    element in document order. *)
Definition insertAfter (new : list node) (target : jquery) (d : document) : document :=
  match target with
  | i :: _ =>
      splice_after (λ n, bool_decide (nid n = i))
        (λ n, (λ m, set_place (nid m) (parent n) m) <$> new) d
  | [] => d
  end.

(** [new.prependTo( target )], for a target of one element: the new nodes
    become its first children, which come right after it in document
    order. *)
Definition prependTo (new : list node) (target : jquery) (d : document) : document :=
  match target with
  | i :: _ =>
      splice_after (λ n, bool_decide (nid n = i))
        (λ n, (λ m, set_place (nid m) (Some (nid n)) m) <$> new) d
  | [] => d
  end.

(** [.parent()] and [.prev()] of a collection of one element. *)
Definition parent_of (sel : jquery) (d : document) : jquery :=
  match first_node sel d with
  | Some n => match parent n with Some p => [p] | None => [] end
  | None => []
  end.

Fixpoint prev_sibling (i : nat) (last : nat → option nat) (d : document) : option nat :=
  match d with
  | [] => None
  | n :: d =>
      if bool_decide (nid n = i) then p ← parent n; last p
      else
        prev_sibling i
          (λ p, if bool_decide (parent n = Some p) then Some (nid n) else last p) d
  end.

Definition prev (sel : jquery) (d : document) : jquery :=
  match sel with
  | i :: _ => match prev_sibling i (λ _, None) d with Some j => [j] | None => [] end
  | [] => []
  end.

(** [.remove()]: the elements of the collection leave the document, with
    their descendants (which follow them in document order). *)
Fixpoint remove_from (gone : list nat) (d : document) : document :=
  match d with
  | [] => []
  | n :: d =>
      if bool_decide (nid n ∈ gone)
         || match parent n with Some p => bool_decide (p ∈ gone) | None => false end
      then remove_from (nid n :: gone) d
      else n :: remove_from gone d
  end.

Definition remove (sel : jquery) (d : document) : document := remove_from sel d.

End DOM.

(** ** The image substitution controller (hidpi.js) *)

Module HiDPI.
Import DOM.

Definition PRELOAD_SCHEME : string := "lazy".
Definition CROSSFADE_TIME : float := 700.
Definition HIDPI_BREAKPOINT : float := 1024.

(** An [Image] built by [preloadHiDPIImage]: the [$item] bound to its load
    and error handlers as [event.data], its [src], and whether its one load
    or error event has been delivered. *)
Record loader := Loader {
  event_data : jquery;
  src : option string;
  settled : bool
}.

(** What the controller acts on: the document, the image loaders built so
    far, the overlays whose [fadeOut] is running (each with
    [hiDPIAnimationComplete] as its completion callback), the console, and
    the exceptions that escaped an event handler. *)
Record page := Page {
  dom : document;
  loaders : list loader;
  fading : list nat;
  console : list string;
  uncaught : list string
}.

Definition with_dom (f : document → document) (p : page) : page :=
  Page (f (dom p)) (loaders p) (fading p) (console p) (uncaught p).

(** The one function this file hands to the scheduler as a callback. *)
Inductive fn := Fn_preloadHiDPIImage.

Abbreviation scheduler := (ZG_Waypoints.t fn jquery).

(** [preloadHiDPIImage] (lines 86-94). *)
Definition preloadHiDPIImage (item : jquery) (p : page) : page :=
  let p := with_dom (removeClass ["hidpi-queued"; "hidpi-pending"] item) p in
  let p := with_dom (addClass ["hidpi-loading"] item) p in
  Page (dom p)
    (loaders p ++
       [ {| event_data := item;
            src := data "hidpi-src" item (dom p);
            settled := false |} ])
    (fading p) (console p) (uncaught p).

(** [callback.apply( waypoint, callbackArgs )].  With no argument [$item] is
    [undefined] and the first statement throws before it has any effect. *)
Definition apply (f : fn) (this : ZG_Waypoints.waypoint fn jquery)
    (args : list jquery) (p : page) : page :=
  match f, args with
  | Fn_preloadHiDPIImage, item :: _ => preloadHiDPIImage item p
  | Fn_preloadHiDPIImage, [] => p
  end.

(** A measure of the first element of a collection; [NaN] stands for the
    [undefined] an empty collection gives. *)
Definition measure (f : node → float) (sel : jquery) (d : document) : float :=
  default nan (f <$> first_node sel d).

(** The body of the [.each] of [checkForHiDPIElements] (lines 69-83). *)
Definition each_item (win : window) (s : page * scheduler) (item : nat)
    : page * scheduler :=
  let '(p, z) := s in
  let item_ := [item] in
  let top := measure offset_top item_ (dom p) in
  let bottom := (top + measure height item_ (dom p))%float in
  if bool_decide ("immediate" = PRELOAD_SCHEME) || inView win top bottom None then
    (preloadHiDPIImage item_ p, z)
  else if bool_decide ("queued" = PRELOAD_SCHEME) then
    (p, z)
  else
    let p := with_dom (addClass ["hidpi-pending"] item_) p in
    (p, ZG_Waypoints.add top bottom (Some Fn_preloadHiDPIImage)
          {| ZG_Waypoints.opt_oneShot := true |} [item_] z).

(** [$( ".hidpi-ready" ).filter( ... )] (lines 62-64). *)
Definition eligible (d : document) : jquery :=
  nid <$> filter (λ n, hasClass "hidpi-ready" n && JS.gtb (width n) HIDPI_BREAKPOINT = true) d.

(** [checkForHiDPIElements] (lines 61-84). *)
Definition checkForHiDPIElements (win : window) (s : page * scheduler)
    : page * scheduler :=
  let '(p, z) := s in
  let sel := eligible (dom p) in
  let p := with_dom (removeClass ["hidpi-ready"] sel) p in
  foldl (each_item win) (p, z) sel.

(** *** Handlers that can throw *)

Inductive outcome (A : Type) :=
| Returns (a : A) (p : page)
| Throws (e : string) (p : page).
Arguments Returns {A} a p.
Arguments Throws {A} e p.

Definition M (A : Type) : Type := page → outcome A.

Definition ret {A} (a : A) : M A := λ p, Returns a p.

Definition bind {A B} (m : M A) (k : A → M B) : M B :=
  λ p, match m p with
       | Returns a p => k a p
       | Throws e p => Throws e p
       end.

Definition throw {A} (e : string) : M A := λ p, Throws e p.

Definition reads {A} (f : document → A) : M A := λ p, Returns (f (dom p)) p.

Definition writes (f : document → document) : M unit :=
  λ p, Returns () (with_dom f p).

Notation "'do' x <- m ; k" := (bind m (λ x, k))
  (at level 20, x name, m at level 100, k at level 200).
Notation "m ;; k" := (bind m (λ _, k))
  (at level 100, k at level 200, right associativity).

(** ["static" === v] *)
Definition is_static (v : option css_value) : bool :=
  match v with
  | Some (CssString s) => bool_decide (s = "static")
  | _ => false
  end.

(** The values the local variables of [hiDPILoaded] hold. *)
Inductive value :=
| JQuery (sel : jquery)
| Function (name : string)
| Undefined.

(** The methods of a jQuery object that this file names. *)
Definition jQuery_fn : list string :=
  ["parent"; "prev"; "css"; "prop"; "attr"; "removeAttr"; "data"; "addClass";
   "removeClass"; "clone"; "insertAfter"; "prependTo"; "fadeOut"; "remove";
   "outerWidth"; "outerHeight"; "width"; "height"; "offset"].

(** The property read [v.name], without a call: on a jQuery object a method
    name gives the method itself, a function object; a function object has
    none of these properties. *)
Definition member (v : value) (name : string) : value :=
  match v with
  | JQuery _ => if bool_decide (name ∈ jQuery_fn) then Function name else Undefined
  | Function _ => Undefined
  | Undefined => Undefined
  end.

(** The call [v.css( ... )]: it needs [v.css] to be a function. *)
Definition receiver_of_css (v : value) : M jquery :=
  match v, member v "css" with
  | JQuery sel, Function _ => ret sel
  | _, _ => throw "TypeError: $parent.css is not a function"
  end.

Definition call_css_get (v : value) (prop : string) : M (option css_value) :=
  do sel <- receiver_of_css v; reads (css_get prop sel).

Definition call_css_set (v : value) (prop : string) (x : css_value) : M unit :=
  do sel <- receiver_of_css v; writes (css_set prop x sel).

(** [$overlay.fadeOut( CROSSFADE_TIME, hiDPIAnimationComplete )]: the fade
    starts; its completion is a later event. *)
Definition fadeOut (overlay : jquery) : M unit :=
  λ p, Returns () (Page (dom p) (loaders p) (fading p ++ overlay) (console p) (uncaught p)).

Definition this_src (this : loader) : string := default "" (src this).

(** [hiDPILoaded] (lines 108-161).  [$parent] is assigned [$item.parent],
    the method, not the result of calling it (line 110). *)
Definition hiDPILoaded (this : loader) : M unit :=
  let item := event_data this in
  let parent_ := member (JQuery item) "parent" in
  do tag <- reads (prop_tagName item);
  do overlay <-
    (if bool_decide (tag = Some "IMG") then
       do position <- call_css_get parent_ "position";
       (if is_static position
        then call_css_set parent_ "position" (CssString "relative")
        else ret ());;
       writes (removeClass ["hidpi-loading"] item);;
       do copy <- reads (clone item);
       let copy :=
         (λ n, set_style (insert "left" (CssNumber 0))
                 (set_style (insert "top" (CssNumber 0))
                   (set_style (insert "position" (CssString "absolute"))
                     (set_classes
                        (λ cs, add_class "hidpi-overlay" (add_class "hidpi-clone" cs))
                        n)))) <$> copy in
       writes (insertAfter copy item);;
       writes (attr_set "src" (Some (this_src this)) item);;
       ret (nid <$> copy)
     else
       do position <- reads (css_get "position" item);
       (if is_static position
        then writes (css_set "position" (CssString "relative") item)
        else ret ());;
       do i <- reads fresh;
       do w <- reads (measure outerWidth item);
       do h <- reads (measure outerHeight item);
       do t <- reads (measure offset_top item);
       do background <- reads (css_get "background" item);
       let overlay :=
         {| nid := i; parent := None; tagName := "DIV";
            classes := ["hidpi-overlay"];
            attrs := ∅;
            style := <["background" := default (CssString "") background]>
                       (<["height" := CssPx h]>
                         (<["width" := CssPx w]>
                           (<["left" := CssNumber 0]>
                             (<["top" := CssNumber 0]>
                               (<["position" := CssString "absolute"]> ∅)))));
            width := w; height := h; outerWidth := w; outerHeight := h;
            offset_top := t |} in
       writes (prependTo [overlay] item);;
       writes (css_set "backgroundImage"
                 (CssString ("url(" +:+ this_src this +:+ ")")) item);;
       writes (removeClass ["hidpi-loading"] item);;
       ret [i]);
  fadeOut overlay;;
  writes (addClass ["hidpi-animating"; "hidpi-loaded"] item);;
  writes (removeAttr "data-hidpi-src" item).

(** [hiDPIAnimationComplete] (lines 163-175); [this] is the overlay. *)
Definition hiDPIAnimationComplete (this : nat) (p : page) : page :=
  let this_ := [this] in
  let p :=
    if bool_decide (prop_tagName this_ (dom p) = Some "IMG") then
      with_dom (removeClass ["hidpi-animating"] (prev this_ (dom p))) p
    else
      with_dom (removeClass ["hidpi-animating"] (parent_of this_ (dom p))) p in
  with_dom (remove this_) p.

(** [hiDPIError] (lines 177-182). *)
Definition hiDPIError (this : loader) (p : page) : page :=
  let item := event_data this in
  let p := Page (dom p) (loaders p) (fading p)
             (console p ++ ["HiDPI load error " +:+ this_src this]) (uncaught p) in
  let p := with_dom (removeClass ["hidpi-processing"] item) p in
  with_dom (addClass ["hidpi-error"] item) p.

(** *** The page as a whole: the controller, the scheduler, and the events
    that drive them

    [checkForHiDPIElements] runs from the polling timer, on DOM ready and on
    (debounced) resize; the window's scroll event runs the scheduler; every
    image loader with a [src] delivers one load or one error event; every
    [fadeOut] completes once. *)

Record system := System {
  the_page : page;
  zg : scheduler
}.

Inductive event :=
| Check (win : window)
| Scroll (win : window)
| Load (k : nat)
| Error (k : nat)
| FadeComplete (overlay : nat).

(** The page a document starts as: nothing loading, nothing registered. *)
Definition start (d : document) : system :=
  System (Page d [] [] [] []) ZG_Waypoints.empty.

Definition settle (k : nat) (p : page) : page :=
  Page (dom p)
    (alter (λ l, Loader (event_data l) (src l) true) k (loaders p))
    (fading p) (console p) (uncaught p).

(** The load handler as the browser runs it: an exception that escapes it is
    reported, and what the handler did before it stays done. *)
Definition on_load (this : loader) (p : page) : page :=
  match hiDPILoaded this p with
  | Returns _ p => p
  | Throws e p => Page (dom p) (loaders p) (fading p) (console p) (uncaught p ++ [e])
  end.

(** The [k]-th loader delivers its event, if it is still owed one. *)
Definition deliver (k : nat) (handler : loader → page → page) (s : system) : system :=
  match loaders (the_page s) !! k with
  | Some this =>
      if settled this || negb (bool_decide (is_Some (src this))) then s
      else System (settle k (handler this (the_page s))) (zg s)
  | None => s
  end.

Definition step (s : system) (e : event) : system :=
  match e with
  | Check win =>
      let '(p, z) := checkForHiDPIElements win (the_page s, zg s) in
      System p z
  | Scroll win =>
      let '(z, p, _) := ZG_Waypoints.scroll apply win (zg s) (the_page s) in
      System p z
  | Load k => deliver k on_load s
  | Error k => deliver k hiDPIError s
  | FadeComplete o =>
      let p := the_page s in
      if bool_decide (o ∈ fading p) then
        let p := hiDPIAnimationComplete o p in
        System (Page (dom p) (loaders p) (filter (λ o', o' ≠ o) (fading p))
                  (console p) (uncaught p)) (zg s)
      else s
  end.

Definition run (s : system) (es : list event) : system := foldl step s es.

(** The lifecycle-state classes of section 4.2, and those an element
    carries. *)
Definition lifecycle : list string :=
  ["hidpi-ready"; "hidpi-pending"; "hidpi-loading"; "hidpi-loaded"; "hidpi-error"].

Definition lifecycle_of (n : node) : list string :=
  filter (λ c, c ∈ lifecycle) (classes n).

End HiDPI.

(** ** What the controller keeps true of a page

    The predicates below are not code of the repository: they say what the
    elements, loaders and waypoints of a page have to do with each other, and
    the properties are stated and proved with them. *)

Module Page.
Import DOM HiDPI.
Import ZG_Waypoints.

Abbreviation ready := ("hidpi-ready"%string).

(** The elements that have an image loader, and those that have a
    waypoint. *)
Definition loader_items (p : page) : list nat := concat (event_data <$> loaders p).

Definition items_of (ws : list (waypoint fn jquery)) : list nat :=
  concat (concat (callbackArgs <$> ws)).

Definition waypoint_items (z : scheduler) : list nat :=
  concat (concat (callbackArgs <$> waypoints z)).

Definition items (s : system) : list nat :=
  loader_items (the_page s) ++ waypoint_items (zg s).

(** [n'] is the element [n] at a later time: the same identity, place, tag
    and layout. *)
Definition same_element (n n' : node) : Prop :=
  nid n' = nid n ∧ parent n' = parent n ∧ tagName n' = tagName n
  ∧ width n' = width n ∧ height n' = height n ∧ offset_top n' = offset_top n.

(** ... changed at most if it is one of [sel], and not by gaining the ready
    class. *)
Definition touched (sel : jquery) (n n' : node) : Prop :=
  same_element n n'
  ∧ (nid n ∉ sel → n' = n)
  ∧ (hasClass ready n' = true → hasClass ready n = true).

(** The document [d'] is [d] with elements of [sel] touched. *)
Definition touch (sel : jquery) (d d' : document) : Prop :=
  Forall2 (touched sel) d d'.

(** The documents the handlers can make of a document: no identity shared
    by two elements, and no element newly ready. *)
Definition tame (d d' : document) : Prop :=
  (NoDup (nid <$> d) → NoDup (nid <$> d'))
  ∧ (∀ i, i ∈ select_class ready d' → i ∈ select_class ready d).

(** The shape of the waypoints hidpi.js registers (line 80). *)
Definition deferred (w : waypoint fn jquery) : Prop :=
  oneShot w = true ∧ callback w = Some Fn_preloadHiDPIImage
  ∧ ∃ i, callbackArgs w = [[i]].

(** Whether [checkForHiDPIElements] finds the element [i] in view
    (lines 71-74). *)
Definition in_view_at (win : window) (d : document) (i : nat) : bool :=
  inView win (measure offset_top [i] d)
    (measure offset_top [i] d + measure height [i] d)%float None.

(** The invariant of a page: the elements have distinct identities; a ready
    element has neither a loader nor a waypoint; the waypoints are those
    line 80 registers; and no element has two loaders, two waypoints, or a
    loader and a waypoint. *)
Record sound (s : system) : Prop := {
  sound_nids : NoDup (nid <$> dom (the_page s));
  sound_ready : ∀ i, i ∈ select_class ready (dom (the_page s)) →
                i ∉ loader_items (the_page s) ++ waypoint_items (zg s);
  sound_deferred : Forall deferred (waypoints (zg s));
  sound_once : NoDup (loader_items (the_page s) ++ waypoint_items (zg s))
}.

(** The loaders [ls] are still there in [ls'], each at its index, bound to
    the same element, and settled if it was. *)
Definition persists (ls ls' : list loader) : Prop :=
  ∀ k l, ls !! k = Some l →
    ∃ l', ls' !! k = Some l' ∧ event_data l' = event_data l ∧ src l' = src l
          ∧ (settled l = true → settled l' = true).

(** The overlays that are fading are leaves of the tree, are no element the
    controller tracks and are not ready; every parent is an element of the
    document, and so is every tracked element. *)
Record rooted (s : system) : Prop := {
  rooted_fading : ∀ o, o ∈ fading (the_page s) →
                  o ∉ select_class ready (dom (the_page s));
  rooted_leaf : ∀ n o, n ∈ dom (the_page s) → o ∈ fading (the_page s) →
                parent n ≠ Some o;
  rooted_closed : ∀ n q, n ∈ dom (the_page s) → parent n = Some q →
                  q ∈ nid <$> dom (the_page s);
  rooted_items : ∀ i, i ∈ items s → i ∈ nid <$> dom (the_page s);
  rooted_apart : ∀ o, o ∈ fading (the_page s) → o ∉ items s
}.

(** The element [e], of width [w], is in the document and ready. *)
Definition waiting (e : nat) (w : float) (d : document) : Prop :=
  ∃ n, n ∈ d ∧ nid n = e ∧ hasClass ready n = true ∧ width n = w.

End Page.

(** ** Small pages and schedulers to evaluate the code on *)

Module Examples.
Import DOM HiDPI.

Definition element (i : nat) (p : option nat) (tag : string) (cs : list string)
    (hi : string) (w h t : float) : node :=
  {| nid := i; parent := p; tagName := tag; classes := cs;
     attrs := {[ "data-hidpi-src" := hi ]}; style := ∅;
     width := w; height := h; outerWidth := w; outerHeight := h;
     offset_top := t |}.

(** A body with a wide masthead in view, a wide image in view, a wide
    section far below, and a narrow image. *)
Definition sample : document :=
  [ element 0 None "BODY" [] "" 1280 4000 0;
    element 1 (Some 0) "SECTION" ["masthead"; "hidpi-ready"] "hi/1.jpg" 1280 300 200;
    element 2 (Some 0) "IMG" ["hidpi-ready"] "hi/2.jpg" 1200 300 400;
    element 3 (Some 0) "SECTION" ["hidpi-ready"] "hi/3.jpg" 1280 300 3000;
    element 4 (Some 0) "IMG" ["hidpi-ready"] "hi/4.jpg" 640 300 500 ].

Definition view0 : window := Window 0 1000.
Definition view1 : window := Window 2500 1000.

(** The sample page after its first scan, and the loaders that scan built
    for the masthead and for the image. *)
Definition scanned : system := run (start sample) [Check view0].

Definition masthead_loader : loader :=
  {| event_data := [1]; src := Some "hi/1.jpg"; settled := false |}.

Definition image_loader : loader :=
  {| event_data := [2]; src := Some "hi/2.jpg"; settled := false |}.

Definition masthead_loading : node :=
  element 1 (Some 0) "SECTION" ["masthead"; "hidpi-loading"] "hi/1.jpg" 1280 300 200.

Definition classes_in (s : system) : list (nat * list string) :=
  (λ n, (nid n, classes n)) <$> dom (the_page s).

(** A scheduler whose callbacks note their arguments. *)
Definition note (f : unit) (this : ZG_Waypoints.waypoint unit nat)
    (args : list nat) (c : list nat) : list nat :=
  c ++ args.

Definition two_regions : list (ZG_Waypoints.op unit nat) :=
  [ ZG_Waypoints.Add 500 600 (Some ()) (ZG_Waypoints.Options true) [7];
    ZG_Waypoints.Add 5000 5100 (Some ()) (ZG_Waypoints.Options true) [8] ].

Definition one_region : ZG_Waypoints.t unit nat :=
  ZG_Waypoints.add 500 600 (Some ()) (ZG_Waypoints.Options true) [7]
    ZG_Waypoints.empty.

End Examples.

(** ** The module body (hidpi.js, lines 25-50): timers and the events that
    start a scan *)

Module Driver.
Import DOM HiDPI.

(** The browser's timers, as far as this script sets them: the identifier
    the next [setInterval] or [setTimeout] returns, and the identifiers of
    the intervals and timeouts that are set. *)
Record timers := Timers {
  next_id : nat;
  intervals : list nat;
  timeouts : list nat
}.

Definition setInterval (t : timers) : nat * timers :=
  (next_id t, Timers (S (next_id t)) (intervals t ++ [next_id t]) (timeouts t)).

Definition clearInterval (id : nat) (t : timers) : timers :=
  Timers (next_id t) (filter (λ i, i ≠ id) (intervals t)) (timeouts t).

Definition setTimeout (t : timers) : nat * timers :=
  (next_id t, Timers (S (next_id t)) (intervals t) (timeouts t ++ [next_id t])).

Definition clearTimeout (id : nat) (t : timers) : timers :=
  Timers (next_id t) (intervals t) (filter (λ i, i ≠ id) (timeouts t)).

(** The script's variables [readyTimer] and [refreshTimer] ([None] is
    [undefined]), the browser's timers, and the page. *)
Record controller := Controller {
  readyTimer : nat;
  refreshTimer : option nat;
  browser : timers;
  sys : system
}.

Definition check (win : window) (c : controller) : controller :=
  Controller (readyTimer c) (refreshTimer c) (browser c)
    (HiDPI.step (sys c) (Check win)).

(** Lines 34-38: the script starts the polling timer and scans at once. *)
Definition boot (first_id : nat) (d : document) (win : window) : controller :=
  let '(id, t) := setInterval (Timers first_id [] []) in
  check win (Controller id None t (start d)).

(** What happens next: the polling timer or a timeout fires, the DOM is
    ready, the window is resized, or the page gets one of its other
    events. *)
Inductive input :=
| Interval (id : nat) (win : window)
| Timeout (id : nat) (win : window)
| DomReady (win : window)
| Resize
| Other (e : event).

(** [refreshTimer && clearTimeout( refreshTimer )]: [undefined] and [0] are
    falsy. *)
Definition clear_refresh (c : controller) : timers :=
  match refreshTimer c with
  | Some id => if bool_decide (id = 0) then browser c else clearTimeout id (browser c)
  | None => browser c
  end.

Definition step (c : controller) (i : input) : controller :=
  match i with
  | Interval id win =>
      if bool_decide (id ∈ intervals (browser c)) then check win c else c
  | Timeout id win =>
      if bool_decide (id ∈ timeouts (browser c)) then
        check win (Controller (readyTimer c) (refreshTimer c)
                     (clearTimeout id (browser c)) (sys c))
      else c
  | DomReady win =>
      (* lines 41-44 *)
      check win (Controller (readyTimer c) (refreshTimer c)
                   (clearInterval (readyTimer c) (browser c)) (sys c))
  | Resize =>
      (* lines 47-50 *)
      let '(id, t) := setTimeout (clear_refresh c) in
      Controller (readyTimer c) (Some id) t (sys c)
  | Other e =>
      Controller (readyTimer c) (refreshTimer c) (browser c) (HiDPI.step (sys c) e)
  end.

Definition run (c : controller) (ins : list input) : controller := foldl step c ins.

(** The scans a run of inputs asks for, as events of the page; the other
    events as they come. *)
Definition asked (c : controller) (i : input) : list event :=
  match i with
  | Interval id win => if bool_decide (id ∈ intervals (browser c)) then [Check win] else []
  | Timeout id win => if bool_decide (id ∈ timeouts (browser c)) then [Check win] else []
  | DomReady win => [Check win]
  | Resize => []
  | Other e => [e]
  end.

Fixpoint events (c : controller) (ins : list input) : list event :=
  match ins with
  | [] => []
  | i :: ins => asked c i ++ events (step c i) ins
  end.

(** The timers are as the script keeps them: at most one timeout is set, the
    one [refreshTimer] names; identifiers in use are below the next one; and
    the polling timer is the only interval. *)
Record tidy (c : controller) : Prop := {
  tidy_timeouts : timeouts (browser c) = []
                  ∨ ∃ id, timeouts (browser c) = [id] ∧ refreshTimer c = Some id;
  tidy_fresh : ∀ id, refreshTimer c = Some id →
               readyTimer c < id ∧ id < next_id (browser c);
  tidy_ready : readyTimer c < next_id (browser c);
  tidy_polling : intervals (browser c) = [] ∨ intervals (browser c) = [readyTimer c]
}.

End Driver.

(** ** What the scheduler and the handlers make of a page

    The definitions below are not code of the repository either: they name
    the pages, elements, loaders and waypoints that the functions are shown
    to produce, so that those results can be stated as equations, and what
    the controller keeps true of the lifecycle classes. *)

Module Outcome.
Import DOM HiDPI Page.

Section scheduler.
Context {F A : Type}.

(** While a waypoint is pending, [update] is bound to the scroll event. *)
Definition subscribed (z : ZG_Waypoints.t F A) : Prop :=
  ZG_Waypoints.waypoints z ≠ [] → 0 < ZG_Waypoints.scroll_handlers z.

(** The call [o] is no [update] that finds the waypoint [w] in view. *)
Definition misses (w : ZG_Waypoints.waypoint F A) (o : ZG_Waypoints.op F A) : Prop :=
  match o with
  | ZG_Waypoints.Add _ _ _ _ _ => True
  | ZG_Waypoints.Update win | ZG_Waypoints.Scroll win =>
      ZG_Waypoints.in_view win w = false
  end.

End scheduler.

(** What jQuery's getters read of the elements, by identity: two documents
    with the same layout and attributes. *)
Definition same_reads (d d' : document) : Prop :=
  ∀ j, (λ n, (offset_top n, height n, attrs n)) <$> lookup_node j d
       = (λ n, (offset_top n, height n, attrs n)) <$> lookup_node j d'.

(** The classes of an element after the [.each] body ran on it. *)
Definition each_classes (in_view : bool) (cs : list string) : list string :=
  if in_view
  then add_class "hidpi-loading"
         (remove_class "hidpi-pending" (remove_class "hidpi-queued" cs))
  else add_class "hidpi-pending" cs.

(** The classes of an element a scan selected, after the scan. *)
Definition scan_classes (in_view : bool) (cs : list string) : list string :=
  each_classes in_view (remove_class "hidpi-ready" cs).

Definition each_element (win : window) (d : document) (l : jquery) (n : node) : node :=
  if bool_decide (nid n ∈ l)
  then set_classes (each_classes (in_view_at win d (nid n))) n
  else n.

Definition scan_element (win : window) (d : document) (n : node) : node :=
  if bool_decide (nid n ∈ eligible d)
  then set_classes (scan_classes (in_view_at win d (nid n))) n
  else n.

(** The loader a scan builds for an element in view, and the waypoint it
    registers for one that is not. *)
Definition scan_loader (d : document) (i : nat) : loader :=
  {| event_data := [i]; src := data "hidpi-src" [i] d; settled := false |}.

Definition scan_waypoint (d : document) (z : scheduler) (i : nat) : scheduler :=
  ZG_Waypoints.add (measure offset_top [i] d)
    (measure offset_top [i] d + measure height [i] d)%float
    (Some Fn_preloadHiDPIImage) {| ZG_Waypoints.opt_oneShot := true |} [[i]] z.

(** A container element after its high-resolution image has loaded, and
    the overlay that is put over it (lines 136-160). *)
Definition loaded_container (this : loader) (n : node) : node :=
  {| nid := nid n; parent := parent n; tagName := tagName n;
     classes := add_class "hidpi-loaded"
                  (add_class "hidpi-animating"
                     (remove_class "hidpi-loading" (classes n)));
     attrs := delete "data-hidpi-src" (attrs n);
     style := <["backgroundImage" := CssString ("url(" +:+ this_src this +:+ ")")]>
                (if is_static (Some (css_of "position" n))
                 then <["position" := CssString "relative"]> (style n)
                 else style n);
     width := width n; height := height n;
     outerWidth := outerWidth n; outerHeight := outerHeight n;
     offset_top := offset_top n |}.

Definition overlay_of (o : nat) (n : node) : node :=
  {| nid := o; parent := Some (nid n); tagName := "DIV";
     classes := ["hidpi-overlay"];
     attrs := ∅;
     style := <["background" := css_of "background" n]>
                (<["height" := CssPx (outerHeight n)]>
                  (<["width" := CssPx (outerWidth n)]>
                    (<["left" := CssNumber 0]>
                      (<["top" := CssNumber 0]>
                        (<["position" := CssString "absolute"]> ∅)))));
     width := outerWidth n; height := outerHeight n;
     outerWidth := outerWidth n; outerHeight := outerHeight n;
     offset_top := offset_top n |}.

(** The element [e] is in the document and carries the class [c]. *)
Definition marked (c : string) (e : nat) (d : document) : Prop :=
  ∃ n, n ∈ d ∧ nid n = e ∧ hasClass c n = true.

(** The elements whose image loader has delivered no event. *)
Definition live_items (p : page) : list nat :=
  concat (event_data <$> filter (λ l, settled l = false) (loaders p)).

(** The lifecycle classes of an element follow what the controller holds
    for it: a waypoint, a loader that has delivered no event, a loader, or
    nothing. *)
Definition tracked (s : system) (n : node) : Prop :=
  (nid n ∈ waypoint_items (zg s) → lifecycle_of n = ["hidpi-pending"])
  ∧ (nid n ∈ live_items (the_page s) → lifecycle_of n = ["hidpi-loading"])
  ∧ (nid n ∈ loader_items (the_page s) →
       lifecycle_of n ∈ [["hidpi-loading"]; ["hidpi-loaded"];
                         ["hidpi-loading"; "hidpi-error"]])
  ∧ (nid n ∉ items s → lifecycle_of n ∈ [[]; ["hidpi-ready"]]).

Definition staged (s : system) : Prop :=
  (∀ n, n ∈ dom (the_page s) → tracked s n)
  ∧ ∀ l, l ∈ loaders (the_page s) → ∃ i, event_data l = [i].

(** No IMG element carries [hidpi-loaded]. *)
Definition unloaded_imgs (d : document) : Prop :=
  ∀ n, n ∈ d → tagName n = "IMG" → hasClass "hidpi-loaded" n = false.


End Outcome.

(** ** More pages and schedulers to evaluate the code on *)

Module Samples.
Import DOM HiDPI.

(** Two regions that are not one-shot, the first in [view0]. *)
Definition repeating : list (ZG_Waypoints.op unit nat) :=
  [ ZG_Waypoints.Add 500 600 (Some ()) (ZG_Waypoints.Options false) [7];
    ZG_Waypoints.Add 5000 5100 (Some ()) (ZG_Waypoints.Options false) [8] ].

(** A region whose coordinates are no numbers. *)
Definition nowhere : ZG_Waypoints.waypoint unit nat :=
  ZG_Waypoints.Waypoint 0 nan nan (Some ()) [9] true.

(** The elements of the sample page after its first scan. *)
Definition body : node := Examples.element 0 None "BODY" [] "" 1280 4000 0.


(** A page whose one ready element names its image in [data-hidpi-source],
    as the header of hidpi.js words it, and not in [data-hidpi-src]. *)
Definition teaser : node :=
  {| nid := 1; parent := Some 0; tagName := "DIV"; classes := ["hidpi-ready"];
     attrs := {[ "data-hidpi-source" := "hi/1.jpg" ]}; style := ∅;
     width := 1280; height := 300; outerWidth := 1280; outerHeight := 300;
     offset_top := 200 |}.

Definition unsourced : document := [body; teaser].

End Samples.

(** * Properties *)

(** ** IEEE comparisons *)

Section float_order.
Import SpecFloat.

Lemma SFcompare_opp x y c :
  SFcompare x y = Some c → SFcompare y x = Some (CompOpp c).
Proof.
  destruct x as [sx|sx| |sx mx ex], y as [sy|sy| |sy my ey]; simpl;
    try discriminate;
    try (intros [= <-]; repeat match goal with b : bool |- _ => destruct b end;
         reflexivity).
  intros [= <-]. f_equal.
  assert (Hm : Pos.compare_cont Eq my mx = CompOpp (Pos.compare_cont Eq mx my))
    by (symmetry; apply (Pos.compare_cont_antisym mx my Eq)).
  rewrite (Z.compare_antisym ex ey), Hm.
  destruct sx, sy; simpl; try reflexivity;
    destruct (ex ?= ey)%Z; simpl; try reflexivity.
Qed.

(** [x < y] excludes [y <= x]. *)
Lemma ltb_not_leb (x y : float) :
  PrimFloat.ltb x y = true → PrimFloat.leb y x = false.
Proof.
  rewrite ltb_spec, leb_spec. unfold SFltb, SFleb.
  destruct (SFcompare (Prim2SF x) (Prim2SF y)) as [[]|] eqn:E; try discriminate.
  intros _. now rewrite (SFcompare_opp _ _ _ E).
Qed.

End float_order.

(** ** [inView] *)

Lemma inView_default (win : window) (elementTop elementBottom : float) :
  inView win elementTop elementBottom None
  = (PrimFloat.leb (fst (shrunk_viewport win)) elementTop
       && PrimFloat.leb elementTop (snd (shrunk_viewport win)))
    || (PrimFloat.leb (fst (shrunk_viewport win)) elementBottom
       && PrimFloat.leb elementBottom (snd (shrunk_viewport win))).
Proof. reflexivity. Qed.

(** C2. With the default margin, [inView top bottom] is true exactly when
    [top] or [bottom] lies within [[viewTop + margin, viewBottom - margin]],
    the viewport shrunk by a tenth of its height on each edge; for a region
    whose top is above and whose bottom is below that shrunk viewport it is
    false. *)
Theorem inView_edge_overlap (win : window) (top bottom : float) :
  (inView win top bottom None = true
     ↔ within (shrunk_viewport win) top ∨ within (shrunk_viewport win) bottom)
  ∧ (above (shrunk_viewport win) top → below (shrunk_viewport win) bottom →
     inView win top bottom None = false).
Proof.
  rewrite inView_default. unfold within, above, below. split.
  - rewrite orb_true_iff, !andb_true_iff. reflexivity.
  - intros Htop Hbottom.
    rewrite (ltb_not_leb _ _ Htop), (ltb_not_leb _ _ Hbottom).
    now rewrite andb_false_r.
Qed.

Lemma inView_edge_overlap_witness :
  above (shrunk_viewport (Window 0 1000)) (-100)%float
  ∧ below (shrunk_viewport (Window 0 1000)) 5000%float
  ∧ inView (Window 0 1000) (-100)%float 5000%float None = false.
Proof.
  split; [reflexivity|]. split; [reflexivity|].
  apply (inView_edge_overlap (Window 0 1000) (-100)%float 5000%float); reflexivity.
Defined.

(** C10. A margin argument of [0] is falsy, so [viewMargin || 0.1] replaces
    it by the default: [inView] with margin [0] is [inView] with margin
    [0.1], and [inView] with no margin argument. *)
Theorem inView_zero_margin_is_default (win : window) (top bottom : float) :
  inView win top bottom (Some 0%float) = inView win top bottom (Some 0.1%float)
  ∧ inView win top bottom (Some 0%float) = inView win top bottom None.
Proof. split; reflexivity. Qed.

(** A region just inside the unshrunk viewport: a test with no margin would
    accept it, [inView] with margin [0] does not. *)
Example inView_zero_margin_sample :
  let win := Window 0 1000 in
  (PrimFloat.leb (win_scrollTop win) 50 && PrimFloat.leb 50 (win_scrollTop win + win_height win))%float = true
  ∧ inView win 50 60 (Some 0%float) = false.
Proof. split; reflexivity. Qed.

(** ** The scheduler *)

Section scheduler_facts.
Context {F A C : Type}.
Variable apply : F → ZG_Waypoints.waypoint F A → list A → C → C.
Import ZG_Waypoints.

#[local] Abbreviation waypoint := (ZG_Waypoints.waypoint F A).
#[local] Abbreviation sched := (ZG_Waypoints.t F A).
#[local] Abbreviation oids l := (oid <$> l).

(** The loop, started at the end of a prefix [l1] of the array, leaves the
    rest [l2] alone, keeps of [l1] what [stays], and invokes what [fires],
    last to first.  In particular it never reads past the end of the
    array. *)
Lemma update_loop_run (win : window) (l1 l2 : list waypoint) (c : C)
    (fired : list waypoint) :
  update_loop apply win (length l1) (l1 ++ l2, c, fired)
  = (filter (λ w, stays win w = true) l1 ++ l2,
     foldl (invoke apply) c (reverse (filter (λ w, in_view win w = true) l1)),
     fired ++ reverse (filter (λ w, fires win w = true) l1)).
Proof.
  revert l2 c fired.
  induction l1 as [|x l IH] using rev_ind; intros l2 c fired.
  { simpl. now rewrite app_nil_r. }
  rewrite length_app, Nat.add_1_r, <- app_assoc. simpl.
  rewrite (list_lookup_middle l l2 x (length l) eq_refl).
  rewrite !filter_app, !reverse_app, !foldl_app.
  rewrite !filter_cons, !filter_nil.
  unfold stays, fires, in_view, invoke.
  destruct (inView win (top x) (bottom x) None) eqn:Hview; simpl.
  - destruct (callback x) as [f|] eqn:Hcb; simpl;
      destruct (oneShot x) eqn:Hone; simpl;
      rewrite ?decide_True by eauto;
      rewrite ?decide_False by (try discriminate; intros [? [=]]);
      rewrite ?delete_middle, ?IH; simpl;
      rewrite <- ?app_assoc; simpl; try reflexivity.
  - rewrite ?decide_True by eauto.
    rewrite ?decide_False by discriminate.
    rewrite IH. simpl. now rewrite <- ?app_assoc, ?app_nil_r.
Qed.

Lemma update_unfold (win : window) (z : sched) (c : C) :
  update apply win z c
  = ({| waypoints := filter (λ w, stays win w = true) (waypoints z);
        scroll_handlers :=
          if bool_decide (length (filter (λ w, stays win w = true) (waypoints z)) = 0)
          then 0 else scroll_handlers z;
        allocated := allocated z |},
     foldl (invoke apply) c
       (reverse (filter (λ w, in_view win w = true) (waypoints z))),
     reverse (filter (λ w, fires win w = true) (waypoints z))).
Proof.
  unfold update.
  pose proof (update_loop_run win (waypoints z) [] c []) as H.
  rewrite !app_nil_r in H. rewrite H. reflexivity.
Qed.

Lemma increasing_NoDup (l : list nat) : StronglySorted lt l → NoDup l.
Proof.
  induction 1 as [|x l Hl IH Hx]; constructor; [|assumption].
  intros Hin. rewrite Forall_forall in Hx. specialize (Hx _ Hin). lia.
Qed.

Lemma sorted_filter_oids (R : relation nat) (P : waypoint → Prop)
    `{!∀ w, Decision (P w)} (l : list waypoint) :
  StronglySorted R (oids l) → StronglySorted R (oids (filter P l)).
Proof.
  induction l as [|x l IH]; simpl; [constructor|].
  intros Hs. apply StronglySorted_inv in Hs as [Hl Hx].
  rewrite filter_cons. destruct (decide (P x)); [|now apply IH].
  simpl. constructor; [now apply IH|].
  rewrite Forall_forall in *. intros i Hi. apply Hx.
  apply list_elem_of_fmap in Hi as (w & -> & Hw).
  apply list_elem_of_filter in Hw as [_ Hw]. now apply list_elem_of_fmap_2.
Qed.

Lemma sorted_reverse (l : list nat) :
  StronglySorted lt l → StronglySorted gt (reverse l).
Proof.
  induction 1 as [|x l Hl IH Hx]; [constructor|].
  rewrite reverse_cons. apply StronglySorted_app_2; [|exact IH|repeat constructor].
  intros a b Ha Hb. rewrite elem_of_reverse in Ha. apply list_elem_of_singleton in Hb as ->.
  rewrite Forall_forall in Hx. specialize (Hx _ Ha). lia.
Qed.

Lemma oid_inj_on (l : list waypoint) (w w' : waypoint) :
  NoDup (oids l) → w ∈ l → w' ∈ l → oid w = oid w' → w = w'.
Proof.
  induction l as [|x l IH]; simpl; intros Hnd Hw Hw' Heq.
  { now apply elem_of_nil in Hw. }
  apply NoDup_cons in Hnd as [Hx Hnd].
  apply elem_of_cons in Hw as [->|Hw], Hw' as [->|Hw']; auto.
  - exfalso. apply Hx. rewrite Heq. now apply list_elem_of_fmap_2.
  - exfalso. apply Hx. rewrite <- Heq. now apply list_elem_of_fmap_2.
Qed.


Lemma registered_below (z : sched) (i : nat) :
  registered z → i ∈ oids (waypoints z) → i < allocated z.
Proof.
  intros [_ Hb] Hi. apply list_elem_of_fmap in Hi as (w & -> & Hw).
  rewrite Forall_forall in Hb. now apply Hb.
Qed.

Lemma moves_refl (z : sched) : registered z → moves z z [].
Proof.
  intros Hz. split; auto; try (intros w Hw; now apply elem_of_nil in Hw).
  simpl. constructor.
Qed.

Lemma moves_trans (z z1 z2 : sched) (f1 f2 : list waypoint) :
  registered z → moves z z1 f1 → moves z1 z2 f2 → moves z z2 (f1 ++ f2).
Proof.
  intros Hz [R1 A1 O1 G1 B1 D1 K1] [R2 A2 O2 G2 B2 D2 K2].
  assert (Hgone : ∀ w, w ∈ f1 → oneShot w = true → oid w ∉ oids (waypoints z2)).
  { intros w Hw Ho Hin. apply K2 in Hin as [Hin|Hge].
    - now apply (D1 w).
    - specialize (B1 w Hw). lia. }
  split; auto.
  - lia.
  - rewrite filter_app, fmap_app. apply NoDup_app. split; [assumption|]. split; [|assumption].
    intros i Hi1 Hi2.
    apply list_elem_of_fmap in Hi1 as (w1 & -> & Hw1).
    apply list_elem_of_filter in Hw1 as [Ho1 Hw1].
    apply list_elem_of_fmap in Hi2 as (w2 & Heq & Hw2).
    apply list_elem_of_filter in Hw2 as [_ Hw2].
    destruct (G2 w2 Hw2) as [Hin|Hge]; rewrite <- Heq in *.
    + now apply (D1 w1).
    + specialize (B1 w1 Hw1). lia.
  - intros w Hw. apply elem_of_app in Hw as [Hw|Hw]; [now apply G1|].
    destruct (G2 w Hw) as [Hin|Hge]; [|right; lia].
    destruct (K1 _ Hin); [now left|now right].
  - intros w Hw. apply elem_of_app in Hw as [Hw|Hw]; [|now apply B2].
    specialize (B1 w Hw). lia.
  - intros w Hw Ho. apply elem_of_app in Hw as [Hw|Hw]; [now apply Hgone|now apply D2].
  - intros i Hi. destruct (K2 i Hi) as [Hin|Hge]; [|right; lia].
    now apply K1.
Qed.

Lemma moves_add (z : sched) top bottom cb opts args :
  registered z → moves z (add top bottom cb opts args z) [].
Proof.
  intros [Hs Hb]. split; try (intros w Hw; now apply elem_of_nil in Hw).
  - split; simpl.
    + rewrite fmap_app. apply StronglySorted_app_2; [|assumption|repeat constructor].
      intros a b Ha Hb'. apply list_elem_of_singleton in Hb' as ->. simpl.
      apply list_elem_of_fmap in Ha as (w & -> & Hw).
      rewrite Forall_forall in Hb. now apply Hb.
    + apply Forall_app. split.
      * eapply Forall_impl; [exact Hb|]. simpl. intros; lia.
      * repeat constructor.
  - simpl. lia.
  - simpl. constructor.
  - simpl. intros i Hi. rewrite fmap_app in Hi. apply elem_of_app in Hi as [Hi|Hi]; [now left|].
    apply list_elem_of_singleton in Hi as ->. simpl. right. lia.
Qed.

Lemma moves_update (win : window) (z : sched) (c : C) :
  registered z →
  moves z (update apply win z c).1.1 (update apply win z c).2.
Proof.
  intros [Hs Hb]. rewrite update_unfold. simpl.
  assert (Hnd := increasing_NoDup _ Hs).
  assert (Hfired : ∀ w, w ∈ reverse (filter (λ w, fires win w = true) (waypoints z)) →
                     w ∈ waypoints z ∧ in_view win w = true).
  { intros w Hw. rewrite elem_of_reverse in Hw. apply list_elem_of_filter in Hw as [Hf Hw].
    split; [assumption|]. unfold fires in Hf. now apply andb_true_iff in Hf as [? _]. }
  split; simpl.
  - split; simpl; [now apply sorted_filter_oids|].
    rewrite Forall_forall in *. intros w Hw.
    apply list_elem_of_filter in Hw as [_ Hw]. now apply Hb.
  - lia.
  - rewrite filter_reverse, fmap_reverse, reverse_Permutation.
    apply increasing_NoDup. do 2 apply sorted_filter_oids. assumption.
  - intros w Hw. left. apply list_elem_of_fmap_2. now apply Hfired.
  - intros w Hw. rewrite Forall_forall in Hb. apply Hb. now apply Hfired.
  - intros w Hw Ho Hin. destruct (Hfired w Hw) as [Hw' Hv].
    apply list_elem_of_fmap in Hin as (w' & Heq & Hin).
    apply list_elem_of_filter in Hin as [Hst Hin].
    assert (w = w') as <- by (eapply oid_inj_on; eauto).
    unfold stays in Hst. rewrite Hv, Ho in Hst. discriminate.
  - intros i Hi. left.
    apply list_elem_of_fmap in Hi as (w & -> & Hw).
    apply list_elem_of_filter in Hw as [_ Hw]. now apply list_elem_of_fmap_2.
Qed.


Lemma moves_dispatch (win : window) (n : nat) (z : sched) (c : C) :
  registered z →
  moves z (dispatch apply win n z c).1.1 (dispatch apply win n z c).2.
Proof.
  revert z c. induction n as [|n IH]; intros z c Hz; simpl.
  { now apply moves_refl. }
  pose proof (moves_update win z c Hz) as H1.
  destruct (update apply win z c) as [[z1 c1] f1]. simpl in H1.
  pose proof (IH z1 c1 (moves_registered _ _ _ H1)) as H2.
  destruct (dispatch apply win n z1 c1) as [[z2 c2] f2]. simpl in *.
  now apply (moves_trans z z1 z2).
Qed.

Lemma moves_step (o : op F A) (z : sched) (c : C) :
  registered z →
  moves z (step apply o z c).1.1 (step apply o z c).2.
Proof.
  intros Hz. destruct o; simpl.
  - now apply moves_add.
  - now apply moves_update.
  - now apply moves_dispatch.
Qed.

Lemma moves_run (ops : list (op F A)) (z : sched) (c : C) :
  registered z →
  moves z (run apply ops z c).1.1 (run apply ops z c).2.
Proof.
  revert z c. induction ops as [|o ops IH]; intros z c Hz; simpl.
  { now apply moves_refl. }
  pose proof (moves_step o z c Hz) as H1.
  destruct (step apply o z c) as [[z1 c1] f1]. simpl in H1.
  pose proof (IH z1 c1 (moves_registered _ _ _ H1)) as H2.
  destruct (run apply ops z1 c1) as [[z2 c2] f2]. simpl in *.
  now apply (moves_trans z z1 z2).
Qed.

Lemma registered_empty : registered (@empty F A).
Proof. split; simpl; constructor. Qed.

Lemma registered_run (ops : list (op F A)) (c : C) :
  registered (run apply ops empty c).1.1.
Proof. exact (moves_registered _ _ _ (moves_run ops empty c registered_empty)). Qed.

(** C4. In any run of [add], [update] and scroll events from the empty
    scheduler, the callback of a waypoint added with [oneShot] is invoked at
    most once: no one-shot waypoint occurs twice among the waypoints whose
    callback ran.  And a one-shot waypoint that an [update] finds in view is
    no longer in the array after that [update], nor after anything that
    follows it. *)
Theorem oneShot_fires_at_most_once (ops : list (op F A)) (c0 : C) :
  NoDup (oids (filter (λ w, oneShot w = true) (run apply ops empty c0).2))
  ∧ ∀ (win : window) (ops' : list (op F A)) (w : waypoint),
      w ∈ waypoints (run apply ops empty c0).1.1 →
      oneShot w = true →
      in_view win w = true →
      oid w ∉ oids (waypoints
                      (run apply (Update win :: ops')
                         (run apply ops empty c0).1.1
                         (run apply ops empty c0).1.2).1.1).
Proof.
  split.
  { exact (moves_once _ _ _ (moves_run ops empty c0 registered_empty)). }
  intros win ops' w Hw Ho Hv.
  pose proof (registered_run ops c0) as Hz.
  destruct (run apply ops empty c0) as [[z c] f]. simpl in *.
  pose proof (moves_update win z c Hz) as H1.
  assert (Hgone : oid w ∉ oids (waypoints (update apply win z c).1.1)).
  { rewrite update_unfold. simpl. intros Hin.
    apply list_elem_of_fmap in Hin as (w' & Heq & Hin).
    apply list_elem_of_filter in Hin as [Hst Hin].
    assert (w = w') as <-.
    { eapply oid_inj_on; eauto. apply increasing_NoDup, Hz. }
    unfold stays in Hst. rewrite Hv, Ho in Hst. discriminate. }
  destruct (update apply win z c) as [[z1 c1] f1]. simpl in *.
  pose proof (moves_run ops' z1 c1 (moves_registered _ _ _ H1)) as H2.
  destruct (run apply ops' z1 c1) as [[z2 c2] f2]. simpl in *.
  intros Hin. apply (moves_kept _ _ _ H2) in Hin as [Hin|Hge]; [now apply Hgone|].
  assert (oid w < allocated z).
  { apply registered_below; [assumption|]. now apply list_elem_of_fmap_2. }
  pose proof (moves_allocated _ _ _ H1). lia.
Qed.

Lemma scrolls_unsubscribed (wins : list window) (z : sched) (c : C) :
  scroll_handlers z = 0 → scrolls apply wins z c = (z, c, []).
Proof.
  intros Hz. induction wins as [|win wins IH]; simpl; [reflexivity|].
  unfold scroll. rewrite Hz. simpl. now rewrite IH.
Qed.

(** C7. When an [update] leaves the array empty it has unbound itself from
    the scroll event: no binding is left, scroll events that follow invoke no
    callback and change nothing, and the next [add] binds [update] again. *)
Theorem update_unsubscribes_when_empty (win : window) (z : sched) (c : C) :
  waypoints (update apply win z c).1.1 = [] →
  scroll_handlers (update apply win z c).1.1 = 0
  ∧ (∀ wins : list window,
       scrolls apply wins (update apply win z c).1.1 (update apply win z c).1.2
       = ((update apply win z c).1.1, (update apply win z c).1.2, []))
  ∧ (∀ top bottom cb opts args,
       scroll_handlers (add top bottom cb opts args (update apply win z c).1.1) = 1).
Proof.
  intros Hempty.
  assert (H0 : scroll_handlers (update apply win z c).1.1 = 0).
  { revert Hempty. rewrite update_unfold. simpl. now intros ->. }
  split; [assumption|]. split.
  - intros wins. now apply scrolls_unsubscribed.
  - intros. simpl. now rewrite H0.
Qed.

(** C8. One [update] pass invokes the callbacks of the waypoints in view
    from the last registered to the first: the array of a scheduler built
    from [empty] is in registration order, the waypoints whose callback runs
    are those in view (that have one) read from the end of the array, their
    registration numbers decrease, and the callbacks' state is the effect of
    the calls in that order. *)
Theorem update_fires_in_reverse_registration_order
    (ops : list (op F A)) (c0 : C) (win : window) :
  let z := (run apply ops empty c0).1.1 in
  let c := (run apply ops empty c0).1.2 in
  StronglySorted lt (oids (waypoints z))
  ∧ (update apply win z c).2
    = reverse (filter (λ w, fires win w = true) (waypoints z))
  ∧ StronglySorted gt (oids (update apply win z c).2)
  ∧ (update apply win z c).1.2
    = foldl (invoke apply) c (reverse (filter (λ w, in_view win w = true) (waypoints z))).
Proof.
  intros z c. destruct (registered_run ops c0) as [Hs _]. fold z in Hs.
  rewrite update_unfold. simpl. repeat split; try assumption.
  rewrite fmap_reverse. apply sorted_reverse. now apply sorted_filter_oids.
Qed.


End scheduler_facts.

Lemma oneShot_fires_at_most_once_witness :
  0 ∉ ZG_Waypoints.oid <$>
        ZG_Waypoints.waypoints
          (ZG_Waypoints.run Examples.note
             [ZG_Waypoints.Update Examples.view0; ZG_Waypoints.Scroll Examples.view0]
             (ZG_Waypoints.run Examples.note Examples.two_regions
                ZG_Waypoints.empty []).1.1
             (ZG_Waypoints.run Examples.note Examples.two_regions
                ZG_Waypoints.empty []).1.2).1.1.
Proof.
  apply (proj2 (oneShot_fires_at_most_once Examples.note Examples.two_regions [])
           Examples.view0 [ZG_Waypoints.Scroll Examples.view0]
           (ZG_Waypoints.Waypoint 0 500 600 (Some ()) [7] true)).
  - vm_compute. apply list_elem_of_here.
  - reflexivity.
  - reflexivity.
Defined.

Lemma update_unsubscribes_when_empty_witness :
  ZG_Waypoints.scroll_handlers
    (ZG_Waypoints.update Examples.note Examples.view0 Examples.one_region []).1.1 = 0.
Proof.
  apply (update_unsubscribes_when_empty Examples.note Examples.view0
           Examples.one_region []).
  reflexivity.
Defined.

Example update_sample :
  ZG_Waypoints.run Examples.note
    (Examples.two_regions ++ [ZG_Waypoints.Update Examples.view0])
    ZG_Waypoints.empty []
  = ({| ZG_Waypoints.waypoints :=
          [ZG_Waypoints.Waypoint 1 5000 5100 (Some ()) [8] true];
        ZG_Waypoints.scroll_handlers := 2;
        ZG_Waypoints.allocated := 2 |},
     [7],
     [ZG_Waypoints.Waypoint 0 500 600 (Some ()) [7] true]).
Proof. reflexivity. Qed.


(** ** More on the scheduler *)

Import Outcome.

Section float_nan.
Import SpecFloat.

(** No number is below, or equal to, NaN. *)
Lemma leb_nan_r (x : float) : PrimFloat.leb x nan = false.
Proof.
  rewrite leb_spec. change (Prim2SF nan) with S754_nan.
  unfold SFleb. now destruct (Prim2SF x).
Qed.

End float_nan.

Lemma inView_nan_region (win : window) (m : option float) :
  inView win nan nan m = false.
Proof.
  unfold inView, JS.geb. cbv zeta. now rewrite leb_nan_r.
Qed.

Section more_scheduler_facts.
Context {F A C : Type}.
Variable apply : F → ZG_Waypoints.waypoint F A → list A → C → C.
Import ZG_Waypoints.

#[local] Abbreviation waypoint := (ZG_Waypoints.waypoint F A).
#[local] Abbreviation sched := (ZG_Waypoints.t F A).

Lemma scheduler_eta (z : sched) :
  {| waypoints := waypoints z; scroll_handlers := scroll_handlers z;
     allocated := allocated z |} = z.
Proof. now destruct z. Qed.

Lemma filter_all {B} (P : B → Prop) `{!∀ x, Decision (P x)} (l : list B) :
  (∀ x, x ∈ l → P x) → filter P l = l.
Proof.
  induction l as [|x l IH]; intros Hall; [reflexivity|].
  rewrite filter_cons, decide_True by (apply Hall, list_elem_of_here).
  f_equal. apply IH. intros y Hy. apply Hall. now apply list_elem_of_further.
Qed.

Lemma filter_swap {B} (P Q : B → Prop)
    `{!∀ x, Decision (P x), !∀ x, Decision (Q x)} (l : list B) :
  filter P (filter Q l) = filter Q (filter P l).
Proof. rewrite !list_filter_filter. apply list_filter_iff. tauto. Qed.

Lemma filter_none {B} (P : B → Prop) `{!∀ x, Decision (P x)} (l : list B) :
  (∀ x, x ∈ l → ¬ P x) → filter P l = [].
Proof.
  induction l as [|x l IH]; intros Hall; [reflexivity|].
  rewrite filter_cons, decide_False by (apply Hall, list_elem_of_here).
  apply IH. intros y Hy. apply Hall. now apply list_elem_of_further.
Qed.

(** An [update] that finds nothing in view. *)
Lemma update_nothing_in_view (win : window) (z : sched) (c : C) :
  (∀ w, w ∈ waypoints z → in_view win w = false) →
  (waypoints z = [] → scroll_handlers z = 0) →
  update apply win z c = (z, c, []).
Proof.
  intros Hout Hsub. rewrite update_unfold.
  rewrite (filter_all (λ w, stays win w = true)).
  2:{ intros w Hw. unfold stays. now rewrite (Hout w Hw). }
  rewrite (filter_none (λ w, in_view win w = true)).
  2:{ intros w Hw. rewrite (Hout w Hw). discriminate. }
  rewrite (filter_none (λ w, fires win w = true)).
  2:{ intros w Hw. unfold fires. rewrite (Hout w Hw). discriminate. }
  simpl. f_equal. f_equal.
  assert (Hh : (if bool_decide (length (waypoints z) = 0) then 0 else scroll_handlers z)
               = scroll_handlers z).
  { case_bool_decide as Hl; [|reflexivity].
    symmetry. apply Hsub. now apply length_zero_iff_nil. }
  rewrite Hh. apply scheduler_eta.
Qed.

(** X1. One [update] pass removes from the array exactly the one-shot
    waypoints that are in view: what is left is the array without them, in
    its order; no waypoint object is built; and the scroll binding is
    dropped if the array is left empty and kept as it was if not. *)
Theorem update_removes_one_shots_in_view (win : window) (z : sched) (c : C) :
  let z' := (update apply win z c).1.1 in
  waypoints z' = filter (λ w, ¬ (in_view win w = true ∧ oneShot w = true)) (waypoints z)
  ∧ waypoints z' `sublist_of` waypoints z
  ∧ allocated z' = allocated z
  ∧ scroll_handlers z' = (if decide (waypoints z' = []) then 0 else scroll_handlers z).
Proof.
  cbv zeta. rewrite update_unfold. cbn [fst snd waypoints allocated scroll_handlers].
  assert (Hf : filter (λ w, stays win w = true) (waypoints z)
               = filter (λ w, ¬ (in_view win w = true ∧ oneShot w = true)) (waypoints z)).
  { apply list_filter_iff. intros w. unfold stays.
    destruct (in_view win w), (oneShot w); simpl; intuition congruence. }
  rewrite <- Hf. split; [reflexivity|]. split; [apply sublist_filter|].
  split; [reflexivity|].
  case_bool_decide as Hl; destruct (decide _) as [He|He]; try reflexivity.
  - apply length_zero_iff_nil in Hl. contradiction.
  - rewrite He in Hl. now contradict Hl.
Qed.


(** *** Waypoints that are not one-shot *)

Lemma filter_oid_unique (l : list waypoint) (w : waypoint) :
  NoDup (oid <$> l) → w ∈ l → filter (λ x, oid x = oid w) l = [w].
Proof.
  induction l as [|x l IH]; intros Hnd Hw; [now apply elem_of_nil in Hw|].
  rewrite fmap_cons in Hnd. apply NoDup_cons in Hnd as [Hx Hnd].
  rewrite filter_cons. apply elem_of_cons in Hw as [->|Hw].
  - rewrite decide_True by reflexivity. f_equal.
    apply filter_none. intros y Hy Heq. apply Hx. rewrite <- Heq.
    now apply list_elem_of_fmap_2.
  - rewrite decide_False; [now apply IH|].
    intros Heq. apply Hx. rewrite Heq. now apply list_elem_of_fmap_2.
Qed.

Lemma registered_update (win : window) (z : sched) (c : C) :
  registered z → registered (update apply win z c).1.1.
Proof. intros Hz. exact (moves_registered _ _ _ (moves_update apply win z c Hz)). Qed.

(** X2. A waypoint that is not one-shot is never removed: in a scheduler
    built from [empty], if it has a callback, every [update] that finds it
    in view invokes the callback once, so after as many passes as there are
    windows in [wins] it has fired that many times and is still in the
    array. *)
Theorem repeatable_waypoint_fires_every_time
    (ops : list (op F A)) (c0 : C) (wins : list window) (w : waypoint) :
  let z := (run apply ops empty c0).1.1 in
  let c := (run apply ops empty c0).1.2 in
  w ∈ waypoints z →
  oneShot w = false →
  is_Some (callback w) →
  Forall (λ win, in_view win w = true) wins →
  w ∈ waypoints (run apply (Update <$> wins) z c).1.1
  ∧ length (filter (λ x, oid x = oid w) (run apply (Update <$> wins) z c).2)
    = length wins.
Proof.
  intros z c.
  assert (Hz : registered z) by apply (registered_run apply ops c0).
  clearbody z c. revert z c Hz.
  induction wins as [|win wins IH]; intros z c Hz Hw Ho Hc Hv.
  { simpl. auto. }
  apply Forall_cons in Hv as [Hv Hvs].
  rewrite fmap_cons. cbn [run step].
  pose proof (registered_update win z c Hz) as Hz1.
  assert (Hw1 : w ∈ waypoints (update apply win z c).1.1).
  { rewrite update_unfold. simpl. apply list_elem_of_filter. split; [|assumption].
    unfold stays. now rewrite Ho, andb_false_r. }
  assert (Hf1 : filter (λ x, oid x = oid w) (update apply win z c).2 = [w]).
  { rewrite update_unfold. cbn [snd].
    rewrite filter_reverse, filter_swap.
    rewrite (filter_oid_unique _ w (increasing_NoDup _ (proj1 Hz)) Hw).
    rewrite filter_cons, decide_True; [reflexivity|].
    unfold fires. rewrite Hv.
    now rewrite bool_decide_eq_true_2. }
  destruct (update apply win z c) as [[z1 c1] f1]. cbn [fst snd] in *.
  destruct (IH z1 c1 Hz1 Hw1 Ho Hc Hvs) as [IH1 IH2].
  destruct (run apply (Update <$> wins) z1 c1) as [[z2 c2] f2]. cbn [fst snd] in *.
  split; [assumption|].
  now rewrite filter_app, length_app, Hf1, IH2.
Qed.

Lemma subscribed_update (win : window) (z : sched) (c : C) :
  subscribed z → subscribed (update apply win z c).1.1.
Proof.
  intros Hz. rewrite update_unfold. unfold subscribed. simpl. intros Hne.
  rewrite bool_decide_eq_false_2 by (now rewrite length_zero_iff_nil).
  apply Hz. intros He. rewrite He in Hne. now apply Hne.
Qed.

Lemma subscribed_dispatch (win : window) (n : nat) (z : sched) (c : C) :
  subscribed z → subscribed (dispatch apply win n z c).1.1.
Proof.
  revert z c. induction n as [|n IH]; intros z c Hz; [assumption|].
  cbn [dispatch]. pose proof (subscribed_update win z c Hz) as H1.
  destruct (update apply win z c) as [[z1 c1] f1]. cbn [fst] in H1.
  specialize (IH z1 c1 H1).
  now destruct (dispatch apply win n z1 c1) as [[z2 c2] f2].
Qed.

Lemma subscribed_run (ops : list (op F A)) (z : sched) (c : C) :
  subscribed z → subscribed (run apply ops z c).1.1.
Proof.
  revert z c. induction ops as [|o ops IH]; intros z c Hz; [assumption|].
  cbn [run].
  assert (H1 : subscribed (step apply o z c).1.1).
  { destruct o; cbn [step fst].
    - unfold subscribed. simpl. lia.
    - now apply subscribed_update.
    - now apply subscribed_dispatch. }
  destruct (step apply o z c) as [[z1 c1] f1]. cbn [fst] in H1.
  specialize (IH z1 c1 H1).
  now destruct (run apply ops z1 c1) as [[z2 c2] f2].
Qed.

(** X3. While a waypoint is pending the scheduler listens: whatever calls
    and scroll events a scheduler built from [empty] has seen, if its array
    is not empty then [update] is bound to the scroll event at least
    once. *)
Theorem pending_waypoints_are_subscribed (ops : list (op F A)) (c : C) :
  waypoints (run apply ops empty c).1.1 ≠ [] →
  0 < scroll_handlers (run apply ops empty c).1.1.
Proof.
  apply (subscribed_run ops empty c). intros H. now contradict H.
Qed.

(** X4. Every [add] binds [update] to the scroll event once more, and one
    scroll event runs [update] once per binding: when no waypoint is
    one-shot, a scroll event leaves the array as it is and invokes the
    callbacks of the waypoints in view as many times as there are bindings,
    each pass from the last registered to the first. *)
Theorem repeatable_waypoints_fire_once_per_binding
    (win : window) (z : sched) (c : C) :
  Forall (λ w, oneShot w = false) (waypoints z) →
  waypoints (scroll apply win z c).1.1 = waypoints z
  ∧ (scroll apply win z c).2
    = concat (replicate (scroll_handlers z)
                (reverse (filter (λ w, fires win w = true) (waypoints z)))).
Proof.
  unfold scroll. generalize (scroll_handlers z) as n. intros n.
  revert z c. induction n as [|n IH]; intros z c Hz; [now split|].
  cbn [dispatch].
  assert (Hkeep : waypoints (update apply win z c).1.1 = waypoints z).
  { rewrite update_unfold. simpl. apply filter_all. intros w Hw.
    rewrite Forall_forall in Hz. unfold stays. now rewrite (Hz w Hw), andb_false_r. }
  assert (Hfire : (update apply win z c).2
                  = reverse (filter (λ w, fires win w = true) (waypoints z))).
  { now rewrite update_unfold. }
  destruct (update apply win z c) as [[z1 c1] f1]. cbn [fst snd] in *.
  destruct (IH z1 c1) as [IH1 IH2]; [now rewrite Hkeep|].
  destruct (dispatch apply win n z1 c1) as [[z2 c2] f2]. cbn [fst snd] in *.
  split; [congruence|]. simpl. now rewrite Hfire, IH2, Hkeep.
Qed.

(** Passes that find nothing in view. *)
Lemma dispatch_settled (win : window) (n : nat) (z : sched) (c : C) :
  (∀ w, w ∈ waypoints z → in_view win w = false) →
  (waypoints z = [] → scroll_handlers z = 0) →
  dispatch apply win n z c = (z, c, []).
Proof.
  intros Hout Hsub. induction n as [|n IH]; [reflexivity|].
  cbn [dispatch]. rewrite (update_nothing_in_view win z c Hout Hsub).
  now rewrite IH.
Qed.

Lemma dispatch_one_shot (win : window) (n : nat) (z : sched) (c : C) :
  Forall (λ w, oneShot w = true) (waypoints z) →
  dispatch apply win (S n) z c = update apply win z c.
Proof.
  intros Hone. cbn [dispatch].
  assert (Hout : ∀ w, w ∈ waypoints (update apply win z c).1.1 → in_view win w = false).
  { rewrite update_unfold. simpl. intros w Hw.
    apply list_elem_of_filter in Hw as [Hs Hw].
    rewrite Forall_forall in Hone. unfold stays in Hs.
    rewrite (Hone w Hw), andb_true_r in Hs. now destruct (in_view win w). }
  assert (Hsub : waypoints (update apply win z c).1.1 = [] →
                 scroll_handlers (update apply win z c).1.1 = 0).
  { rewrite update_unfold. simpl. now intros ->. }
  destruct (update apply win z c) as [[z1 c1] f1]. cbn [fst] in *.
  rewrite (dispatch_settled win n z1 c1 Hout Hsub). now rewrite app_nil_r.
Qed.

(** X5. When every waypoint is one-shot, the bindings beyond the first do
    nothing: the first [update] of a scroll event removes what it fires, the
    passes that follow find nothing in view, and the scroll event as a whole
    is one [update]. *)
Theorem one_shot_scroll_is_one_update (win : window) (z : sched) (c : C) :
  Forall (λ w, oneShot w = true) (waypoints z) →
  0 < scroll_handlers z →
  scroll apply win z c = update apply win z c.
Proof.
  intros Hone Hpos. unfold scroll.
  destruct (scroll_handlers z) as [|n] eqn:Hn; [lia|].
  now apply dispatch_one_shot.
Qed.

(** A waypoint that no [update] finds in view. *)
Lemma out_of_view_run (ops : list (op F A)) (z : sched) (c : C) (w : waypoint) :
  Forall (misses w) ops →
  w ∈ waypoints z →
  w ∈ waypoints (run apply ops z c).1.1
  ∧ w ∉ (run apply ops z c).2.
Proof.
  revert z c. induction ops as [|o ops IH]; intros z c Hm Hw.
  { simpl. split; [assumption|apply not_elem_of_nil]. }
  apply Forall_cons in Hm as [Ho Hm].
  cbn [run].
  assert (H1 : w ∈ waypoints (step apply o z c).1.1 ∧ w ∉ (step apply o z c).2).
  { destruct o as [t b cb o args|win|win]; cbn [step fst snd]; cbn [misses] in Ho.
    - split; [|apply not_elem_of_nil]. simpl. apply elem_of_app. now left.
    - rewrite update_unfold. simpl. split.
      + apply list_elem_of_filter. split; [|assumption]. unfold stays. now rewrite Ho.
      + rewrite elem_of_reverse, list_elem_of_filter. unfold fires. rewrite Ho.
        intros [[=] _].
    - unfold scroll. generalize (scroll_handlers z) as n. intros n.
      revert z c Hw. induction n as [|n IHn]; intros z c Hw.
      { simpl. split; [assumption|apply not_elem_of_nil]. }
      cbn [dispatch]. rewrite update_unfold.
      match goal with
      | |- context [dispatch apply win n ?z1 ?c1] =>
          destruct (IHn z1 c1) as [Ha Hb']
      end.
      { simpl. apply list_elem_of_filter. split; [|assumption].
        unfold stays. now rewrite Ho. }
      destruct (dispatch apply win n _ _) as [[z2 c2] f2]. cbn [fst snd] in *.
      split; [assumption|]. rewrite elem_of_app, elem_of_reverse, list_elem_of_filter.
      unfold fires. rewrite Ho. intros [[[=] _]|?]. contradiction. }
  destruct (step apply o z c) as [[z1 c1] f1]. cbn [fst snd] in *.
  destruct H1 as [H1 H1'].
  destruct (IH z1 c1 Hm H1) as [IH1 IH2].
  destruct (run apply ops z1 c1) as [[z2 c2] f2]. cbn [fst snd] in *.
  split; [assumption|]. rewrite elem_of_app. tauto.
Qed.

(** X6. A waypoint that no [update] finds in view stays: whatever is added,
    and whatever one-shot or other waypoints fire and leave, it is in the
    array at the end, its callback has not run, and [update] is still bound
    to the scroll event if it was bound whenever the array was not empty. *)
Theorem waypoint_out_of_view_stays
    (ops : list (op F A)) (z : sched) (c : C) (w : waypoint) :
  Forall (misses w) ops →
  w ∈ waypoints z →
  w ∈ waypoints (run apply ops z c).1.1
  ∧ (w ∉ (run apply ops z c).2)
  ∧ (subscribed z → 0 < scroll_handlers (run apply ops z c).1.1).
Proof.
  intros Hm Hw. destruct (out_of_view_run ops z c w Hm Hw) as [H1 H2].
  split; [assumption|]. split; [assumption|].
  intros Hz. apply (subscribed_run ops z c Hz). intros He. rewrite He in H1.
  now apply elem_of_nil in H1.
Qed.

(** X7. A waypoint whose [top] and [bottom] are NaN (what arithmetic on
    [undefined] coordinates gives) is in view of no window: no [update] ever
    invokes its callback or removes it, one-shot or not. *)
Theorem nan_waypoint_never_fires
    (ops : list (op F A)) (z : sched) (c : C) (w : waypoint) :
  top w = nan → bottom w = nan →
  w ∈ waypoints z →
  w ∈ waypoints (run apply ops z c).1.1
  ∧ w ∉ (run apply ops z c).2.
Proof.
  intros Ht Hb. apply out_of_view_run.
  apply Forall_forall. intros o _.
  destruct o; cbn [misses]; unfold in_view; try rewrite Ht, Hb;
    auto using inView_nan_region.
Qed.

End more_scheduler_facts.

Lemma repeatable_waypoint_fires_every_time_witness :
  length
    (filter (λ x, ZG_Waypoints.oid x = 0)
       (ZG_Waypoints.run Examples.note
          (ZG_Waypoints.Update <$> [Examples.view0; Examples.view0])
          (ZG_Waypoints.run Examples.note Samples.repeating ZG_Waypoints.empty []).1.1
          (ZG_Waypoints.run Examples.note Samples.repeating ZG_Waypoints.empty []).1.2).2)
  = 2.
Proof.
  apply (proj2 (repeatable_waypoint_fires_every_time Examples.note Samples.repeating []
                  [Examples.view0; Examples.view0]
                  (ZG_Waypoints.Waypoint 0 500 600 (Some ()) [7] false)
                  ltac:(vm_compute; apply list_elem_of_here)
                  eq_refl
                  ltac:(vm_compute; eauto)
                  ltac:(repeat constructor))).
Defined.

Lemma pending_waypoints_are_subscribed_witness :
  0 < ZG_Waypoints.scroll_handlers
        (ZG_Waypoints.run Examples.note
           (Examples.two_regions ++ [ZG_Waypoints.Scroll Examples.view0])
           ZG_Waypoints.empty []).1.1.
Proof.
  apply (pending_waypoints_are_subscribed Examples.note
           (Examples.two_regions ++ [ZG_Waypoints.Scroll Examples.view0]) []).
  vm_compute. discriminate.
Defined.

Lemma repeatable_waypoints_fire_once_per_binding_witness :
  (ZG_Waypoints.scroll Examples.note Examples.view0
     (ZG_Waypoints.run Examples.note Samples.repeating ZG_Waypoints.empty []).1.1 []).2
  = concat (replicate 2 [ZG_Waypoints.Waypoint 0 500 600 (Some ()) [7] false]).
Proof.
  apply (proj2 (repeatable_waypoints_fire_once_per_binding Examples.note Examples.view0
                  (ZG_Waypoints.run Examples.note Samples.repeating ZG_Waypoints.empty []).1.1
                  [] ltac:(repeat constructor))).
Defined.

Lemma one_shot_scroll_is_one_update_witness :
  ZG_Waypoints.scroll Examples.note Examples.view0
    (ZG_Waypoints.run Examples.note Examples.two_regions ZG_Waypoints.empty []).1.1 []
  = ZG_Waypoints.update Examples.note Examples.view0
      (ZG_Waypoints.run Examples.note Examples.two_regions ZG_Waypoints.empty []).1.1 [].
Proof.
  apply (one_shot_scroll_is_one_update Examples.note Examples.view0).
  - repeat constructor.
  - vm_compute. lia.
Defined.

Lemma waypoint_out_of_view_stays_witness :
  ZG_Waypoints.Waypoint 1 5000 5100 (Some ()) [8] true
  ∈ ZG_Waypoints.waypoints
      (ZG_Waypoints.run Examples.note
         [ZG_Waypoints.Scroll Examples.view0; ZG_Waypoints.Update Examples.view0]
         (ZG_Waypoints.run Examples.note Examples.two_regions ZG_Waypoints.empty []).1.1
         []).1.1.
Proof.
  apply (waypoint_out_of_view_stays Examples.note
           [ZG_Waypoints.Scroll Examples.view0; ZG_Waypoints.Update Examples.view0]
           (ZG_Waypoints.run Examples.note Examples.two_regions ZG_Waypoints.empty []).1.1
           [] (ZG_Waypoints.Waypoint 1 5000 5100 (Some ()) [8] true)).
  - repeat constructor.
  - vm_compute. apply list_elem_of_further, list_elem_of_here.
Defined.

Lemma nan_waypoint_never_fires_witness :
  Samples.nowhere
  ∉ (ZG_Waypoints.run Examples.note
       [ZG_Waypoints.Scroll Examples.view0; ZG_Waypoints.Scroll Examples.view1]
       (ZG_Waypoints.add nan nan (Some ()) (ZG_Waypoints.Options true) [9]
          ZG_Waypoints.empty) []).2.
Proof.
  apply (nan_waypoint_never_fires Examples.note
           [ZG_Waypoints.Scroll Examples.view0; ZG_Waypoints.Scroll Examples.view1]
           (ZG_Waypoints.add nan nan (Some ()) (ZG_Waypoints.Options true) [9]
              ZG_Waypoints.empty) [] Samples.nowhere).
  - reflexivity.
  - reflexivity.
  - vm_compute. apply list_elem_of_here.
Defined.


(** ** Documents *)

Import DOM HiDPI Page.

Lemma same_element_refl n : same_element n n.
Proof. now repeat split. Qed.

Lemma touched_refl sel n : touched sel n n.
Proof. split; [apply same_element_refl|]. split; auto. Qed.

Lemma touch_refl sel d : touch sel d d.
Proof. apply Forall2_same_length_lookup_2; [reflexivity|]. 
  intros i x y H1 H2. assert (x = y) as -> by congruence. apply touched_refl. Qed.

Lemma touched_trans s1 s2 n1 n2 n3 :
  touched s1 n1 n2 → touched s2 n2 n3 → touched (s1 ++ s2) n1 n3.
Proof.
  intros [(a1 & a2 & a3 & a4 & a5 & a6) [F1 R1]] [(b1 & b2 & b3 & b4 & b5 & b6) [F2 R2]].
  split; [|split].
  - repeat split; congruence.
  - intros Hn. rewrite F2, F1; auto.
    + intros H. apply Hn, elem_of_app. now left.
    + rewrite a1. intros H. apply Hn, elem_of_app. now right.
  - auto.
Qed.

Lemma touch_trans s1 s2 d1 d2 d3 :
  touch s1 d1 d2 → touch s2 d2 d3 → touch (s1 ++ s2) d1 d3.
Proof.
  intros H. revert d3. induction H as [|n1 n2 d1 d2 Hn Hd IH]; intros d3 H23.
  - apply Forall2_nil_inv_l in H23 as ->. constructor.
  - apply Forall2_cons_inv_l in H23 as (n3 & d3' & Hn' & Hd' & ->).
    constructor; [now apply (touched_trans _ _ _ n2)|now apply IH].
Qed.

Lemma touched_mono s1 s2 n n' :
  (∀ i, i ∈ s1 → i ∈ s2) → touched s1 n n' → touched s2 n n'.
Proof. intros Hs (H1 & H2 & H3). split; [assumption|]. split; auto. Qed.

Lemma touch_mono s1 s2 d d' :
  (∀ i, i ∈ s1 → i ∈ s2) → touch s1 d d' → touch s2 d d'.
Proof. intros Hs H. eapply Forall2_impl; [exact H|]. intros n n'. now apply touched_mono. Qed.

Lemma touch_on_nodes sel f d :
  (∀ n, same_element n (f n)) →
  (∀ n, hasClass ready (f n) = true → hasClass ready n = true) →
  touch sel d (on_nodes sel f d).
Proof.
  intros Hf Hr. unfold touch, on_nodes.
  induction d as [|n d IH]; simpl; constructor; [|exact IH].
  case_bool_decide; [|apply touched_refl].
  split; [apply Hf|]. split; [tauto|apply Hr].
Qed.

Lemma remove_class_elem c c' cs : c ∈ remove_class c' cs ↔ c ∈ cs ∧ c ≠ c'.
Proof. unfold remove_class. rewrite list_elem_of_filter. tauto. Qed.

Lemma add_class_elem c c' cs : c ∈ add_class c' cs ↔ c ∈ cs ∨ c = c'.
Proof.
  unfold add_class. case_bool_decide.
  - split; [tauto|]. intros [?| ->]; assumption.
  - rewrite elem_of_app, list_elem_of_singleton. tauto.
Qed.

Lemma foldl_remove_class_elem c names cs :
  c ∈ foldl (λ cs c, remove_class c cs) cs names ↔ c ∈ cs ∧ c ∉ names.
Proof.
  revert cs. induction names as [|x names IH]; intros cs; simpl.
  - rewrite elem_of_nil. tauto.
  - rewrite IH, remove_class_elem, not_elem_of_cons. tauto.
Qed.

Lemma foldl_add_class_elem c names cs :
  c ∈ foldl (λ cs c, add_class c cs) cs names ↔ c ∈ cs ∨ c ∈ names.
Proof.
  revert cs. induction names as [|x names IH]; intros cs; simpl.
  - rewrite elem_of_nil. tauto.
  - rewrite IH, add_class_elem, elem_of_cons. tauto.
Qed.

Lemma hasClass_true c n : hasClass c n = true ↔ c ∈ classes n.
Proof. unfold hasClass. apply bool_decide_eq_true. Qed.

Lemma touch_removeClass names sel d : touch sel d (removeClass names sel d).
Proof.
  apply touch_on_nodes; intros n.
  - now repeat split.
  - rewrite !hasClass_true. simpl. rewrite foldl_remove_class_elem. tauto.
Qed.

Lemma touch_addClass names sel d :
  ready ∉ names → touch sel d (addClass names sel d).
Proof.
  intros Hn. apply touch_on_nodes; intros n.
  - now repeat split.
  - rewrite !hasClass_true. simpl. rewrite foldl_add_class_elem. tauto.
Qed.

Lemma touch_css_set prop v sel d : touch sel d (css_set prop v sel d).
Proof. apply touch_on_nodes; intros n; [now repeat split|auto]. Qed.

Lemma touch_removeAttr name sel d : touch sel d (removeAttr name sel d).
Proof. apply touch_on_nodes; intros n; [now repeat split|auto]. Qed.

Lemma touch_attr_set name v sel d : touch sel d (attr_set name v sel d).
Proof.
  destruct v; simpl; [|apply touch_refl].
  apply touch_on_nodes; intros n; [now repeat split|auto].
Qed.

(** What [touch] keeps. *)
Lemma touch_nids sel d d' : touch sel d d' → nid <$> d' = nid <$> d.
Proof.
  induction 1 as [|n n' d d' Hn Hd IH]; [reflexivity|].
  rewrite !fmap_cons, IH. f_equal. apply Hn.
Qed.

Lemma touch_lookup_node sel d d' i :
  touch sel d d' →
  option_Forall2 (touched sel) (lookup_node i d) (lookup_node i d').
Proof.
  induction 1 as [|n n' d d' Hn Hd IH]; simpl; [constructor|].
  assert (nid n' = nid n) as -> by apply Hn.
  case_bool_decide; [now constructor|assumption].
Qed.

Lemma touch_measure sel d d' f item :
  (∀ n n', same_element n n' → f n' = f n) →
  touch sel d d' → measure f item d' = measure f item d.
Proof.
  intros Hf Ht. unfold measure, first_node. destruct item as [|i item]; [reflexivity|].
  destruct (touch_lookup_node sel d d' i Ht) as [n n' Hn|]; simpl; [|reflexivity].
  apply Hf, Hn.
Qed.

Lemma touch_elem_r sel d d' n' :
  touch sel d d' → n' ∈ d' → ∃ n, n ∈ d ∧ touched sel n n'.
Proof.
  intros Ht Hn. apply list_elem_of_lookup in Hn as [k Hk].
  destruct (Forall2_lookup_r _ _ _ _ _ Ht Hk) as (n & Hn & Hnn').
  exists n. split; [|assumption]. apply list_elem_of_lookup. eauto.
Qed.

Lemma touch_elem_l sel d d' n :
  touch sel d d' → n ∈ d → ∃ n', n' ∈ d' ∧ touched sel n n'.
Proof.
  intros Ht Hn. apply list_elem_of_lookup in Hn as [k Hk].
  destruct (Forall2_lookup_l _ _ _ _ _ Ht Hk) as (n' & Hn' & Hnn').
  exists n'. split; [|assumption]. apply list_elem_of_lookup. eauto.
Qed.

Lemma select_class_elem c d i :
  i ∈ select_class c d ↔ ∃ n, n ∈ d ∧ nid n = i ∧ hasClass c n = true.
Proof.
  unfold select_class. rewrite list_elem_of_fmap. split.
  - intros (n & -> & Hn). apply list_elem_of_filter in Hn as [? ?]. eauto.
  - intros (n & Hn & <- & Hc). exists n. split; [reflexivity|]. now apply list_elem_of_filter.
Qed.

Lemma touch_ready sel d d' i :
  touch sel d d' → i ∈ select_class ready d' → i ∈ select_class ready d.
Proof.
  intros Ht. rewrite !select_class_elem. intros (n' & Hn' & <- & Hc).
  destruct (touch_elem_r _ _ _ _ Ht Hn') as (n & Hn & Hs & _ & Hr).
  exists n. split; [assumption|]. split; [symmetry; apply Hs|auto].
Qed.

(** *** [preloadHiDPIImage] and [checkForHiDPIElements] *)

Import ZG_Waypoints.

Lemma loader_items_app p L :
  concat (event_data <$> (loaders p ++ L)) = loader_items p ++ concat (event_data <$> L).
Proof. unfold loader_items. now rewrite fmap_app, concat_app. Qed.

Lemma preload_dom item p :
  touch item (dom p) (dom (preloadHiDPIImage item p)).
Proof.
  unfold preloadHiDPIImage. simpl.
  apply (touch_mono (item ++ item)).
  { intros i Hi. apply elem_of_app in Hi. tauto. }
  eapply touch_trans; [apply touch_removeClass|apply touch_addClass].
  intros H; repeat (apply elem_of_cons in H as [[=]|H]); inversion H.
Qed.

Lemma preload_loaders item p :
  ∃ l, loaders (preloadHiDPIImage item p) = loaders p ++ [l]
       ∧ event_data l = item ∧ settled l = false.
Proof. unfold preloadHiDPIImage. simpl. eexists. split; [reflexivity|]. split; reflexivity. Qed.

Lemma preload_rest item p :
  fading (preloadHiDPIImage item p) = fading p
  ∧ console (preloadHiDPIImage item p) = console p
  ∧ uncaught (preloadHiDPIImage item p) = uncaught p.
Proof. repeat split. Qed.

Lemma preload_items item p :
  loader_items (preloadHiDPIImage item p) = loader_items p ++ item.
Proof.
  unfold loader_items. destruct (preload_loaders item p) as (l & -> & Hl & _).
  rewrite fmap_app, concat_app. simpl. now rewrite Hl, app_nil_r.
Qed.

Lemma each_item_unfold win p z i :
  each_item win (p, z) i
  = if in_view_at win (dom p) i then (preloadHiDPIImage [i] p, z)
    else (with_dom (addClass ["hidpi-pending"] [i]) p,
          add (measure offset_top [i] (dom p))
            (measure offset_top [i] (dom p) + measure height [i] (dom p))%float
            (Some Fn_preloadHiDPIImage) {| opt_oneShot := true |} [[i]] z).
Proof. reflexivity. Qed.

Lemma in_view_at_touch win sel d d' i :
  touch sel d d' → in_view_at win d' i = in_view_at win d i.
Proof.
  intros Ht. unfold in_view_at.
  rewrite !(touch_measure sel d d' _ [i]); auto; intros n n' H; apply H.
Qed.

Lemma waypoint_items_add t b cb o i (z : scheduler) :
  waypoint_items (add t b cb o [[i]] z) = waypoint_items z ++ [i].
Proof.
  unfold waypoint_items. simpl. rewrite fmap_app, !concat_app. simpl.
  now rewrite ?app_nil_r.
Qed.

(** The [.each] loop over a list [l] of elements. *)
Lemma each_items win l p z :
  let s' := foldl (each_item win) (p, z) l in
  touch l (dom p) (dom s'.1)
  ∧ loader_items s'.1 = loader_items p ++ filter (λ i, in_view_at win (dom p) i = true) l
  ∧ waypoint_items s'.2 = waypoint_items z ++ filter (λ i, in_view_at win (dom p) i ≠ true) l
  ∧ (Forall deferred (waypoints z) → Forall deferred (waypoints s'.2))
  ∧ fading s'.1 = fading p.
Proof.
  revert p z. induction l as [|i l IH]; intros p z.
  { simpl. rewrite !app_nil_r. split; [apply touch_refl|]. auto. }
  cbn zeta.
  change (foldl (each_item win) (p, z) (i :: l))
    with (foldl (each_item win) (each_item win (p, z) i) l).
  rewrite each_item_unfold. rewrite !filter_cons.
  destruct (in_view_at win (dom p) i) eqn:Hv.
  - destruct (IH (preloadHiDPIImage [i] p) z) as (Ht & HL & HW & HD & HF).
    pose proof (preload_dom [i] p) as Hp.
    split; [apply (touch_trans [i] l _ _ _ Hp Ht)|].
    rewrite decide_True by reflexivity. rewrite decide_False by auto.
    rewrite HL, HW, HF, preload_items.
    rewrite (list_filter_iff (λ j, in_view_at win (dom (preloadHiDPIImage [i] p)) j = true)
               (λ j, in_view_at win (dom p) j = true)) by
      (intros j; now rewrite (in_view_at_touch win _ _ _ j Hp)).
    rewrite (list_filter_iff (λ j, in_view_at win (dom (preloadHiDPIImage [i] p)) j ≠ true)
               (λ j, in_view_at win (dom p) j ≠ true)) by
      (intros j; now rewrite (in_view_at_touch win _ _ _ j Hp)).
    rewrite <- app_assoc. simpl. auto.
  - match goal with
    | |- context [foldl _ (?a, ?b) l] =>
        destruct (IH a b) as (Ht & HL & HW & HD & HF);
        assert (Hp : touch [i] (dom p) (dom a))
          by (apply touch_addClass; intros H; repeat (apply elem_of_cons in H as [[=]|H]); inversion H)
    end.
    split; [apply (touch_trans [i] l _ _ _ Hp Ht)|].
    rewrite decide_False by discriminate. rewrite decide_True by discriminate.
    rewrite HL, HW, HF, waypoint_items_add.
    rewrite (list_filter_iff (λ j, in_view_at win (dom (with_dom (addClass ["hidpi-pending"] [i]) p)) j = true)
               (λ j, in_view_at win (dom p) j = true)) by
      (intros j; now rewrite (in_view_at_touch win _ _ _ j Hp)).
    rewrite (list_filter_iff (λ j, in_view_at win (dom (with_dom (addClass ["hidpi-pending"] [i]) p)) j ≠ true)
               (λ j, in_view_at win (dom p) j ≠ true)) by
      (intros j; now rewrite (in_view_at_touch win _ _ _ j Hp)).
    rewrite <- app_assoc. simpl. repeat split; auto.
    intros Hz. apply HD. simpl. apply Forall_app. split; [assumption|].
    repeat constructor. simpl. eauto.
Qed.

Lemma on_nodes_elem sel f d n' :
  n' ∈ on_nodes sel f d ↔
  ∃ n, n ∈ d ∧ n' = if bool_decide (nid n ∈ sel) then f n else n.
Proof.
  unfold on_nodes. rewrite list_elem_of_fmap. split; intros (n & H1 & H2); eauto.
Qed.

Lemma on_nodes_nil f d : on_nodes [] f d = d.
Proof.
  unfold on_nodes. induction d as [|n d IH]; [reflexivity|].
  rewrite fmap_cons, IH. f_equal.
Qed.

Lemma eligible_elem d i :
  i ∈ eligible d ↔
  ∃ n, n ∈ d ∧ nid n = i ∧ hasClass ready n = true
       ∧ JS.gtb (width n) HIDPI_BREAKPOINT = true.
Proof.
  unfold eligible. rewrite list_elem_of_fmap. split.
  - intros (n & -> & Hn). apply list_elem_of_filter in Hn as [Hp Hn].
    apply andb_true_iff in Hp as [? ?]. eauto 6.
  - intros (n & Hn & <- & Hc & Hw). exists n. split; [reflexivity|].
    apply list_elem_of_filter. split; [|assumption]. now rewrite Hc, Hw.
Qed.

Lemma eligible_ready d i : i ∈ eligible d → i ∈ select_class ready d.
Proof.
  rewrite eligible_elem, select_class_elem. intros (n & ? & ? & ? & ?). eauto.
Qed.

Lemma eligible_NoDup d : NoDup (nid <$> d) → NoDup (eligible d).
Proof.
  intros Hd. unfold eligible. eapply sublist_NoDup; [exact Hd|].
  apply fmap_sublist, sublist_filter.
Qed.


Lemma removeClass_ready_gone sel d i :
  i ∈ sel → i ∉ select_class ready (removeClass [ready] sel d).
Proof.
  intros Hi. rewrite select_class_elem. intros (n' & Hn' & <- & Hc).
  apply on_nodes_elem in Hn' as (n & Hn & ->).
  case_bool_decide as Hs.
  - apply hasClass_true in Hc. simpl in Hc. apply remove_class_elem in Hc. tauto.
  - auto.
Qed.

Lemma page_eta p : Page (dom p) (loaders p) (fading p) (console p) (uncaught p) = p.
Proof. now destruct p. Qed.

Lemma check_unfold win p z :
  checkForHiDPIElements win (p, z)
  = foldl (each_item win)
      (with_dom (removeClass [ready] (eligible (dom p))) p, z) (eligible (dom p)).
Proof. reflexivity. Qed.

(** What one run of [checkForHiDPIElements] does. *)
Lemma check_run win p z :
  let s' := checkForHiDPIElements win (p, z) in
  touch (eligible (dom p)) (dom p) (dom s'.1)
  ∧ loader_items s'.1
    = loader_items p ++ filter (λ i, in_view_at win (dom p) i = true) (eligible (dom p))
  ∧ waypoint_items s'.2
    = waypoint_items z ++ filter (λ i, in_view_at win (dom p) i ≠ true) (eligible (dom p))
  ∧ (Forall deferred (waypoints z) → Forall deferred (waypoints s'.2))
  ∧ fading s'.1 = fading p
  ∧ (∀ i, i ∈ eligible (dom p) → i ∉ select_class ready (dom s'.1)).
Proof.
  cbn zeta. rewrite check_unfold.
  set (sel := eligible (dom p)).
  set (p1 := with_dom (removeClass [ready] sel) p).
  destruct (each_items win sel p1 z) as (Ht & HL & HW & HD & HF).
  assert (H1 : touch sel (dom p) (dom p1)) by apply touch_removeClass.
  split.
  { apply (touch_mono (sel ++ sel)); [|now apply (touch_trans _ _ _ (dom p1))].
    intros i Hi. apply elem_of_app in Hi. tauto. }
  rewrite HL, HW, HF.
  rewrite (list_filter_iff (λ j, in_view_at win (dom p1) j = true)
             (λ j, in_view_at win (dom p) j = true)) by
    (intros j; now rewrite (in_view_at_touch win _ _ _ j H1)).
  rewrite (list_filter_iff (λ j, in_view_at win (dom p1) j ≠ true)
             (λ j, in_view_at win (dom p) j ≠ true)) by
    (intros j; now rewrite (in_view_at_touch win _ _ _ j H1)).
  repeat split; auto.
  intros i Hi Hr. apply (touch_ready _ _ _ _ Ht) in Hr.
  now apply (removeClass_ready_gone sel (dom p) i).
Qed.


(** *** The invariant of a page *)

Lemma sound_start d : NoDup (nid <$> d) → sound (start d).
Proof.
  intros Hd. split; simpl; auto.
  - intros i _. apply not_elem_of_nil.
  - constructor.
Qed.

Lemma sound_check win s : sound s → sound (HiDPI.step s (Check win)).
Proof.
  intros [Hn Hr Hd Ho]. destruct s as [p z].
  unfold HiDPI.step. cbn [the_page zg] in *.
  destruct (check_run win p z) as (Ht & HL & HW & HD & HF & Hg).
  destruct (checkForHiDPIElements win (p, z)) as [p' z']. simpl in *.
  assert (Hperm : loader_items p' ++ waypoint_items z'
                  ≡ₚ (loader_items p ++ waypoint_items z) ++ eligible (dom p)).
  { rewrite HL, HW.
    rewrite <- (filter_app_complement (λ i, in_view_at win (dom p) i = true) (eligible (dom p))) at 3.
    rewrite <- !app_assoc. apply Permutation_app_head.
    rewrite !app_assoc. apply Permutation_app_tail, Permutation_app_comm. }
  split; simpl.
  - now rewrite (touch_nids _ _ _ Ht).
  - intros i Hi. rewrite Hperm. intros Hin. apply elem_of_app in Hin as [Hin|Hin].
    + apply (Hr i); [|assumption]. now apply (touch_ready _ _ _ _ Ht).
    + now apply (Hg i).
  - auto.
  - rewrite Hperm. apply NoDup_app. split; [assumption|]. split.
    + intros i Hi Hs. apply (Hr i); [|assumption]. now apply eligible_ready.
    + now apply eligible_NoDup.
Qed.

(** *** Scroll events *)

Lemma items_of_cons w ws : items_of (w :: ws) = concat (callbackArgs w) ++ items_of ws.
Proof. unfold items_of. simpl. now rewrite concat_app. Qed.

Lemma items_of_app ws1 ws2 : items_of (ws1 ++ ws2) = items_of ws1 ++ items_of ws2.
Proof. unfold items_of. now rewrite fmap_app, !concat_app. Qed.

Lemma items_of_elem ws i :
  i ∈ items_of ws ↔ ∃ w, w ∈ ws ∧ i ∈ concat (callbackArgs w).
Proof.
  induction ws as [|w ws IH].
  - split; [intros H; inversion H|intros (w & H & _); inversion H].
  - rewrite items_of_cons, elem_of_app, IH. split.
    + intros [H|(w' & H1 & H2)]; [exists w|exists w']; split; auto;
        [apply list_elem_of_here|now apply list_elem_of_further].
    + intros (w' & H1 & H2). apply elem_of_cons in H1 as [->|H1]; eauto.
Qed.

Lemma invoke_deferred p w :
  deferred w →
  ∃ i, concat (callbackArgs w) = [i]
       ∧ invoke apply p w = preloadHiDPIImage [i] p.
Proof.
  intros (_ & Hc & i & Ha). exists i. unfold invoke. rewrite Hc, Ha. split; reflexivity.
Qed.

Lemma foldl_invoke ws p :
  Forall deferred ws →
  touch (items_of ws) (dom p) (dom (foldl (invoke apply) p ws))
  ∧ loader_items (foldl (invoke apply) p ws) = loader_items p ++ items_of ws
  ∧ fading (foldl (invoke apply) p ws) = fading p.
Proof.
  revert p. induction ws as [|w ws IH]; intros p Hd.
  { simpl. rewrite app_nil_r. split; [apply touch_refl|]. auto. }
  apply Forall_cons in Hd as [Hw Hd].
  destruct (invoke_deferred p w Hw) as (i & Hi & Hp).
  change (foldl (invoke apply) p (w :: ws))
    with (foldl (invoke apply) (invoke apply p w) ws).
  rewrite Hp, items_of_cons, Hi.
  destruct (IH (preloadHiDPIImage [i] p) Hd) as (Ht & HL & HF).
  split; [|split].
  - eapply touch_trans; [apply preload_dom|exact Ht].
  - now rewrite HL, preload_items, <- app_assoc.
  - now rewrite HF.
Qed.

Lemma deferred_split win ws :
  Forall deferred ws →
  items_of (reverse (filter (λ w, in_view win w = true) ws))
    ++ items_of (filter (λ w, stays win w = true) ws)
  ≡ₚ items_of ws.
Proof.
  induction 1 as [|w ws Hw Hd IH]; [reflexivity|].
  rewrite !filter_cons.
  assert (Hst : stays win w = negb (in_view win w)).
  { unfold stays. destruct Hw as (-> & _). now rewrite andb_true_r. }
  destruct (in_view win w) eqn:Hv; simpl in Hst.
  - rewrite decide_True by reflexivity.
    rewrite decide_False by (rewrite Hst; discriminate).
    rewrite reverse_cons, items_of_app, !items_of_cons, <- IH.
    change (items_of []) with (@nil nat).
    rewrite app_nil_r, <- !app_assoc. apply Permutation_app_swap_app.
  - rewrite decide_False by discriminate. rewrite decide_True by assumption.
    rewrite !items_of_cons, <- IH. apply Permutation_app_swap_app.
Qed.

Lemma fired_deferred win (ws : list (waypoint fn jquery)) :
  Forall deferred ws →
  Forall deferred (reverse (filter (λ w, in_view win w = true) ws)).
Proof.
  rewrite !Forall_forall. intros H w Hw. rewrite elem_of_reverse in Hw.
  apply list_elem_of_filter in Hw as [_ Hw]. auto.
Qed.

Lemma sound_update win s :
  sound s →
  sound (System (update apply win (zg s) (the_page s)).1.2
                (update apply win (zg s) (the_page s)).1.1)
  ∧ fading (update apply win (zg s) (the_page s)).1.2 = fading (the_page s).
Proof.
  intros [Hn Hr Hd Ho]. destruct s as [p z]. cbn [the_page zg] in *.
  rewrite update_unfold. cbn [fst snd].
  set (fired := reverse (filter (λ w, in_view win w = true) (waypoints z))).
  set (kept := filter (λ w, stays win w = true) (waypoints z)).
  pose proof (fired_deferred win _ Hd) as Hf. fold fired in Hf.
  destruct (foldl_invoke fired p Hf) as (Ht & HL & HF).
  pose proof (deferred_split win _ Hd) as Hsplit. fold fired kept in Hsplit.
  assert (Hperm : loader_items (foldl (invoke apply) p fired) ++ items_of kept
                  ≡ₚ loader_items p ++ waypoint_items z).
  { rewrite HL, <- app_assoc. apply Permutation_app_head. exact Hsplit. }
  split; [|exact HF].
  split; cbn [the_page zg waypoints].
  - now rewrite (touch_nids _ _ _ Ht).
  - intros i Hi. change (waypoint_items _) with (items_of kept). rewrite Hperm.
    apply Hr. now apply (touch_ready _ _ _ _ Ht).
  - rewrite Forall_forall in *. intros w Hw.
    apply list_elem_of_filter in Hw as [_ Hw]. auto.
  - change (waypoint_items _) with (items_of kept). now rewrite Hperm.
Qed.

Lemma sound_dispatch win n s :
  sound s →
  sound (System (dispatch apply win n (zg s) (the_page s)).1.2
                (dispatch apply win n (zg s) (the_page s)).1.1)
  ∧ fading (dispatch apply win n (zg s) (the_page s)).1.2 = fading (the_page s).
Proof.
  revert s. induction n as [|n IH]; intros s Hs.
  { destruct s. simpl. auto. }
  destruct (sound_update win s Hs) as [H1 HF1].
  cbn [dispatch].
  destruct (update apply win (zg s) (the_page s)) as [[z1 p1] f1].
  cbn [fst snd] in *.
  destruct (IH _ H1) as [H2 HF2]. cbn [the_page zg] in *.
  destruct (dispatch apply win n z1 p1) as [[z2 p2] f2].
  cbn [fst snd] in *. split; [assumption|congruence].
Qed.

Lemma sound_scroll win s : sound s → sound (HiDPI.step s (HiDPI.Scroll win)).
Proof.
  intros Hs. unfold HiDPI.step, scroll.
  destruct (sound_dispatch win (scroll_handlers (zg s)) s Hs) as [H _].
  destruct (dispatch apply win (scroll_handlers (zg s)) (zg s) (the_page s)) as [[z p] f].
  exact H.
Qed.

(** *** Load, error and fade events *)

Lemma fresh_new d : fresh d ∉ nid <$> d.
Proof.
  unfold fresh. intros H. apply max_list_elem_of_le in H. lia.
Qed.

Lemma splice_after_elem at_node new (d : document) n' :
  n' ∈ splice_after at_node new d →
  n' ∈ d ∨ ∃ n, n ∈ d ∧ at_node n = true ∧ n' ∈ new n.
Proof.
  induction d as [|n d IH]; simpl; [now left|].
  destruct (at_node n) eqn:Hat.
  - rewrite !elem_of_cons, elem_of_app. intros [->|[H|H]]; auto.
    right. exists n. rewrite elem_of_cons. auto.
  - rewrite !elem_of_cons. intros [->|H]; auto.
    destruct (IH H) as [?|(m & ? & ? & ?)]; auto.
    right. exists m. rewrite elem_of_cons. auto.
Qed.

Lemma splice_after_keeps at_node new (d : document) n :
  n ∈ d → n ∈ splice_after at_node new d.
Proof.
  induction d as [|m d IH]; simpl; [auto|].
  rewrite elem_of_cons. destruct (at_node m).
  - rewrite elem_of_cons, elem_of_app. tauto.
  - rewrite elem_of_cons. tauto.
Qed.

Lemma splice_after_nids at_node new (d : document) :
  NoDup (nid <$> d) →
  (∀ n, n ∈ d → NoDup (nid <$> new n)
               ∧ ∀ m, m ∈ new n → nid m ∉ nid <$> d) →
  NoDup (nid <$> splice_after at_node new d).
Proof.
  induction d as [|n d IH]; simpl; [constructor|].
  intros Hnd Hnew. apply NoDup_cons in Hnd as [Hn Hd].
  destruct (Hnew n) as [Hnn Hnm]; [apply list_elem_of_here|].
  destruct (at_node n).
  - rewrite fmap_cons, fmap_app. apply NoDup_cons. split.
    + rewrite elem_of_app. intros [H|H]; [|auto].
      apply list_elem_of_fmap in H as (m & Hm & Hin).
      apply (Hnm m Hin). rewrite <- Hm. simpl. apply list_elem_of_here.
    + apply NoDup_app. split; [assumption|]. split; [|assumption].
      intros i Hi Hi'. apply list_elem_of_fmap in Hi as (m & -> & Hin).
      apply (Hnm m Hin). simpl. now apply list_elem_of_further.
  - rewrite fmap_cons. apply NoDup_cons. split.
    + intros H. apply list_elem_of_fmap in H as (m & Hm & Hin).
      apply splice_after_elem in Hin as [Hin|(n0 & Hn0 & _ & Hin)].
      * apply Hn. rewrite Hm. now apply list_elem_of_fmap_2.
      * destruct (Hnew n0) as [_ H0]; [now apply list_elem_of_further|].
        apply (H0 m Hin). rewrite <- Hm. simpl. apply list_elem_of_here.
    + apply IH; [assumption|]. intros n0 Hn0.
      destruct (Hnew n0) as [H1 H2]; [now apply list_elem_of_further|].
      split; [assumption|]. intros m Hm Hin. apply (H2 m Hm).
      simpl. now apply list_elem_of_further.
Qed.

Lemma tame_refl d : tame d d.
Proof. split; auto. Qed.

Lemma tame_trans d1 d2 d3 : tame d1 d2 → tame d2 d3 → tame d1 d3.
Proof. intros [A1 B1] [A2 B2]. split; auto. Qed.

Lemma touch_tame sel d d' : touch sel d d' → tame d d'.
Proof.
  intros Ht. split.
  - now rewrite (touch_nids _ _ _ Ht).
  - intros i. apply (touch_ready _ _ _ _ Ht).
Qed.

Lemma prependTo_tame o item d :
  nid o ∉ nid <$> d → hasClass ready o = false → tame d (prependTo [o] item d).
Proof.
  intros Hfresh Ho. unfold prependTo. destruct item as [|i item]; [apply tame_refl|].
  split.
  - intros Hd. apply splice_after_nids; [assumption|].
    intros n Hn. simpl. split; [repeat constructor; apply not_elem_of_nil|].
    intros m Hm. apply list_elem_of_singleton in Hm as ->. exact Hfresh.
  - intros j. rewrite !select_class_elem. intros (n' & Hn' & <- & Hc).
    apply splice_after_elem in Hn' as [Hn'|(n & Hn & _ & Hin)]; [eauto|].
    simpl in Hin. apply list_elem_of_singleton in Hin as ->.
    unfold hasClass in *. simpl in *. congruence.
Qed.

Lemma remove_from_sublist gone (d : document) : remove_from gone d `sublist_of` d.
Proof.
  revert gone. induction d as [|n d IH]; intros gone; simpl; [constructor|].
  destruct (_ || _); [apply sublist_cons|apply sublist_skip]; apply IH.
Qed.

Lemma sublist_tame (d d' : document) : d' `sublist_of` d → tame d d'.
Proof.
  intros Hs. split.
  - intros Hd. eapply sublist_NoDup; [exact Hd|]. now apply fmap_sublist.
  - intros i. rewrite !select_class_elem. intros (n & Hn & ? & ?).
    exists n. split; [|auto]. eapply elem_of_sublist; eauto.
Qed.

(** [hiDPILoaded] on an IMG element: line 117 calls [$parent.css], and
    [$parent] is the function [$item.parent]. *)
Lemma hiDPILoaded_img this p :
  prop_tagName (event_data this) (dom p) = Some "IMG" →
  hiDPILoaded this p = Throws "TypeError: $parent.css is not a function" p.
Proof.
  intros H. unfold hiDPILoaded. unfold bind at 1. unfold reads at 1.
  rewrite H. reflexivity.
Qed.

(** [hiDPILoaded] on any other element. *)
Lemma hiDPILoaded_container this p :
  prop_tagName (event_data this) (dom p) ≠ Some "IMG" →
  ∃ d1 o d2,
    touch (event_data this) (dom p) d1
    ∧ hiDPILoaded this p
      = Returns () (Page d2 (loaders p) (fading p ++ [fresh d1]) (console p) (uncaught p))
    ∧ touch (event_data this) (prependTo [o] (event_data this) d1) d2
    ∧ nid o = fresh d1 ∧ parent o = None ∧ tagName o = "DIV"
    ∧ classes o = ["hidpi-overlay"].
Proof.
  intros H. unfold hiDPILoaded. unfold bind at 1. unfold reads at 1.
  unfold bind at 1.
  rewrite bool_decide_eq_false_2 by assumption.
  set (item := event_data this).
  cbv [bind reads writes ret fadeOut with_dom].
  destruct (is_static (css_get "position" item (dom p))) eqn:Hs;
    [exists (css_set "position" (CssString "relative") item (dom p))
    |exists (dom p)];
    eexists; eexists;
    (split; [first [apply touch_css_set|apply touch_refl]|]);
    (split; [cbn [dom loaders fading console uncaught]; reflexivity|]);
    (split;
      [apply (touch_mono ((item ++ item) ++ item ++ item));
         [intros i Hi; rewrite !elem_of_app in Hi; tauto|];
       eapply touch_trans;
         [eapply touch_trans; [apply touch_css_set|apply touch_removeClass]
         |eapply touch_trans; [apply touch_addClass|apply touch_removeAttr];
          intros Hr; repeat (apply elem_of_cons in Hr as [[=]|Hr]); inversion Hr]
      |]);
    repeat split.
Qed.

Lemma on_load_tame this p :
  tame (dom p) (dom (on_load this p))
  ∧ loaders (on_load this p) = loaders p.
Proof.
  unfold on_load.
  destruct (decide (prop_tagName (event_data this) (dom p) = Some "IMG")) as [Himg|Himg].
  - rewrite (hiDPILoaded_img this p Himg). simpl. split; [apply tame_refl|reflexivity].
  - destruct (hiDPILoaded_container this p Himg)
      as (d1 & o & d2 & H1 & -> & H2 & Ho & _ & _ & Hc).
    simpl. split; [|reflexivity].
    eapply tame_trans; [exact (touch_tame _ _ _ H1)|].
    eapply tame_trans; [|exact (touch_tame _ _ _ H2)].
    apply prependTo_tame.
    + rewrite Ho. apply fresh_new.
    + apply bool_decide_eq_false. rewrite Hc.
      intros Hr; repeat (apply elem_of_cons in Hr as [[=]|Hr]); inversion Hr.
Qed.

Lemma hiDPIError_touch this p :
  touch (event_data this) (dom p) (dom (hiDPIError this p))
  ∧ loaders (hiDPIError this p) = loaders p
  ∧ fading (hiDPIError this p) = fading p.
Proof.
  unfold hiDPIError. simpl. split; [|split; reflexivity].
  apply (touch_mono (event_data this ++ event_data this)).
  { intros i Hi. apply elem_of_app in Hi. tauto. }
  eapply touch_trans; [apply touch_removeClass|apply touch_addClass].
  intros Hr; repeat (apply elem_of_cons in Hr as [[=]|Hr]); inversion Hr.
Qed.

Lemma hiDPIError_tame this p :
  tame (dom p) (dom (hiDPIError this p))
  ∧ loaders (hiDPIError this p) = loaders p.
Proof.
  destruct (hiDPIError_touch this p) as (Ht & HL & _).
  split; [exact (touch_tame _ _ _ Ht)|exact HL].
Qed.

Lemma hiDPIAnimationComplete_tame o p :
  tame (dom p) (dom (hiDPIAnimationComplete o p))
  ∧ loaders (hiDPIAnimationComplete o p) = loaders p.
Proof.
  unfold hiDPIAnimationComplete.
  destruct (bool_decide _); simpl; (split; [|reflexivity]);
    (eapply tame_trans;
      [eapply touch_tame, touch_removeClass
      |apply sublist_tame, remove_from_sublist]).
Qed.

Lemma settle_items k p : loader_items (settle k p) = loader_items p.
Proof.
  unfold loader_items, settle. simpl. f_equal.
  rewrite (list_fmap_alter event_data _ id).
  - now apply list_alter_id.
  - apply Forall_forall. reflexivity.
Qed.

Lemma sound_page_step s p' :
  sound s →
  tame (dom (the_page s)) (dom p') →
  loader_items p' = loader_items (the_page s) →
  sound (System p' (zg s)).
Proof.
  intros [Hn Hr Hd Ho] [Hnd Hrd] HL. split; simpl; rewrite ?HL; auto.
Qed.

Lemma sound_deliver k handler s :
  (∀ this p, tame (dom p) (dom (handler this p))
             ∧ loaders (handler this p) = loaders p) →
  sound s → sound (deliver k handler s).
Proof.
  intros Hh Hs. unfold deliver.
  destruct (loaders (the_page s) !! k) as [this|]; [|assumption].
  destruct (_ || _); [assumption|].
  destruct (Hh this (the_page s)) as [Ht HL].
  apply sound_page_step; [assumption|exact Ht|].
  rewrite settle_items. unfold loader_items. now rewrite HL.
Qed.

Lemma sound_step s e : sound s → sound (HiDPI.step s e).
Proof.
  intros Hs. destruct e as [win|win|k|k|o].
  - now apply sound_check.
  - now apply sound_scroll.
  - apply sound_deliver; [apply on_load_tame|assumption].
  - apply sound_deliver; [apply hiDPIError_tame|assumption].
  - unfold HiDPI.step. cbv zeta. case_bool_decide; [|assumption].
    destruct (hiDPIAnimationComplete_tame o (the_page s)) as [Ht HL].
    apply sound_page_step; [assumption|exact Ht|].
    unfold loader_items. cbn [loaders]. now rewrite HL.
Qed.

Lemma sound_run s es : sound s → sound (HiDPI.run s es).
Proof.
  revert s. induction es as [|e es IH]; intros s Hs; [assumption|].
  apply IH. now apply sound_step.
Qed.

(** *** Loaders are never dropped or rebound *)

Lemma persists_refl ls : persists ls ls.
Proof. intros k l H. eauto. Qed.

Lemma persists_trans ls1 ls2 ls3 :
  persists ls1 ls2 → persists ls2 ls3 → persists ls1 ls3.
Proof.
  intros H1 H2 k l Hl. destruct (H1 k l Hl) as (l' & Hl' & A & B & C).
  destruct (H2 k l' Hl') as (l'' & Hl'' & A' & B' & C').
  exists l''. repeat split; try congruence. auto.
Qed.

Lemma persists_app ls L : persists ls (ls ++ L).
Proof. intros k l H. exists l. split; [now apply lookup_app_l_Some|auto]. Qed.

Lemma persists_settle k p : persists (loaders p) (loaders (settle k p)).
Proof.
  intros j l Hl. unfold settle. simpl.
  destruct (decide (k = j)) as [->|Hne].
  - rewrite list_lookup_alter_eq, Hl. simpl. eauto.
  - rewrite list_lookup_alter_ne by assumption. eauto.
Qed.

Lemma persists_preload item p :
  persists (loaders p) (loaders (preloadHiDPIImage item p)).
Proof. unfold preloadHiDPIImage. simpl. apply persists_app. Qed.

Lemma persists_each win l p z :
  persists (loaders p) (loaders (foldl (each_item win) (p, z) l).1).
Proof.
  revert p z. induction l as [|i l IH]; intros p z; [apply persists_refl|].
  change (foldl (each_item win) (p, z) (i :: l))
    with (foldl (each_item win) (each_item win (p, z) i) l).
  rewrite each_item_unfold. destruct (in_view_at win (dom p) i).
  - eapply persists_trans; [apply persists_preload|apply IH].
  - eapply persists_trans; [|apply IH]. apply persists_refl.
Qed.

Lemma persists_invoke ws p :
  persists (loaders p) (loaders (foldl (invoke apply) p ws)).
Proof.
  revert p. induction ws as [|w ws IH]; intros p; [apply persists_refl|].
  change (foldl (invoke apply) p (w :: ws))
    with (foldl (invoke apply) (invoke apply p w) ws).
  eapply persists_trans; [|apply IH].
  unfold invoke, apply. destruct (callback w) as [[]|]; [|apply persists_refl].
  destruct (callbackArgs w); [apply persists_refl|apply persists_preload].
Qed.

Lemma persists_dispatch win n z p :
  persists (loaders p) (loaders (dispatch apply win n z p).1.2).
Proof.
  revert z p. induction n as [|n IH]; intros z p; [apply persists_refl|].
  cbn [dispatch]. rewrite update_unfold.
  match goal with
  | |- context [dispatch apply win n ?z1 ?p1] =>
      specialize (IH z1 p1); destruct (dispatch apply win n z1 p1) as [[z2 p2] f2]
  end.
  cbn [fst snd] in *.
  eapply persists_trans; [apply persists_invoke|exact IH].
Qed.

Lemma persists_deliver k handler s :
  (∀ this p, loaders (handler this p) = loaders p) →
  persists (loaders (the_page s)) (loaders (the_page (deliver k handler s))).
Proof.
  intros Hh. unfold deliver.
  destruct (loaders (the_page s) !! k) as [this|]; [|apply persists_refl].
  destruct (_ || _); [apply persists_refl|]. cbn [the_page].
  eapply persists_trans; [|apply persists_settle]. rewrite Hh. apply persists_refl.
Qed.

Lemma persists_step s e :
  persists (loaders (the_page s)) (loaders (the_page (HiDPI.step s e))).
Proof.
  destruct e as [win|win|k|k|o]; unfold HiDPI.step.
  - rewrite check_unfold.
    pose proof (persists_each win (eligible (dom (the_page s)))
                  (with_dom (removeClass [ready] (eligible (dom (the_page s)))) (the_page s))
                  (zg s)) as H.
    destruct (foldl _ _ _) as [p' z']. exact H.
  - unfold scroll.
    pose proof (persists_dispatch win (scroll_handlers (zg s)) (zg s) (the_page s)) as H.
    destruct (dispatch _ _ _ _ _) as [[z' p'] f]. exact H.
  - apply persists_deliver. intros. apply on_load_tame.
  - apply persists_deliver. intros. apply hiDPIError_tame.
  - cbv zeta. case_bool_decide; [|apply persists_refl]. cbn [the_page loaders].
    rewrite (proj2 (hiDPIAnimationComplete_tame o (the_page s))). apply persists_refl.
Qed.

Lemma persists_run s es :
  persists (loaders (the_page s)) (loaders (the_page (HiDPI.run s es))).
Proof.
  revert s. induction es as [|e es IH]; intros s; [apply persists_refl|].
  eapply persists_trans; [apply persists_step|apply IH].
Qed.

Lemma concat_elem (ls : list (list nat)) i :
  i ∈ concat ls ↔ ∃ l, l ∈ ls ∧ i ∈ l.
Proof.
  induction ls as [|x ls IH]; simpl.
  - split; [intros H; inversion H|intros (l & H & _); inversion H].
  - rewrite elem_of_app, IH. split.
    + intros [H|(l & H1 & H2)]; [exists x|exists l]; split; auto;
        [apply list_elem_of_here|now apply list_elem_of_further].
    + intros (l & H1 & H2). apply elem_of_cons in H1 as [->|H1]; eauto.
Qed.

Lemma concat_NoDup_lookup (ls : list (list nat)) k k' a b i :
  NoDup (concat ls) → ls !! k = Some a → ls !! k' = Some b →
  i ∈ a → i ∈ b → k = k'.
Proof.
  revert k k'. induction ls as [|x ls IH]; intros k k' Hnd Ha Hb Hia Hib.
  { discriminate. }
  simpl in Hnd. apply NoDup_app in Hnd as (Hx & Hdis & Hls).
  assert (Hin : ∀ j c, ls !! j = Some c → i ∈ c → i ∈ concat ls).
  { intros j c Hc Hic. apply concat_elem. exists c. split; [|assumption].
    apply list_elem_of_lookup. eauto. }
  destruct k as [|k], k' as [|k']; simpl in *; auto.
  - injection Ha as ->. exfalso. apply (Hdis i Hia). eauto.
  - injection Hb as ->. exfalso. apply (Hdis i Hib). eauto.
Qed.

Lemma nid_inj_on (d : document) (n n' : node) :
  NoDup (nid <$> d) → n ∈ d → n' ∈ d → nid n = nid n' → n = n'.
Proof.
  induction d as [|x d IH]; simpl; intros Hnd Hn Hn' Heq.
  { now apply elem_of_nil in Hn. }
  apply NoDup_cons in Hnd as [Hx Hnd].
  apply elem_of_cons in Hn as [->|Hn], Hn' as [->|Hn']; auto.
  - exfalso. apply Hx. rewrite Heq. now apply list_elem_of_fmap_2.
  - exfalso. apply Hx. rewrite <- Heq. now apply list_elem_of_fmap_2.
Qed.


(** *** What a scroll event does to the page *)

Lemma update_effect win (z : scheduler) p :
  Forall deferred (waypoints z) →
  touch (waypoint_items z) (dom p) (dom (update apply win z p).1.2)
  ∧ loader_items (update apply win z p).1.2 ++ waypoint_items (update apply win z p).1.1
    ≡ₚ loader_items p ++ waypoint_items z
  ∧ fading (update apply win z p).1.2 = fading p
  ∧ Forall deferred (waypoints (update apply win z p).1.1)
  ∧ (∀ i, i ∈ waypoint_items (update apply win z p).1.1 → i ∈ waypoint_items z).
Proof.
  intros Hd. rewrite update_unfold. cbn [fst snd waypoints].
  set (fired := reverse (filter (λ w, in_view win w = true) (waypoints z))).
  set (kept := filter (λ w, stays win w = true) (waypoints z)).
  pose proof (fired_deferred win _ Hd) as Hf. fold fired in Hf.
  destruct (foldl_invoke fired p Hf) as (Ht & HL & HF).
  pose proof (deferred_split win _ Hd) as Hsplit. fold fired kept in Hsplit.
  split; [|split; [|split; [|split]]].
  - eapply touch_mono; [|exact Ht]. intros i Hi.
    change (waypoint_items z) with (items_of (waypoints z)).
    rewrite <- Hsplit. apply elem_of_app. now left.
  - change (waypoint_items _) with (items_of kept) at 1.
    rewrite HL, <- app_assoc. apply Permutation_app_head. exact Hsplit.
  - exact HF.
  - rewrite Forall_forall in *. intros w Hw.
    apply list_elem_of_filter in Hw as [_ Hw]. auto.
  - intros i Hi. change (waypoint_items _) with (items_of kept) in Hi.
    change (waypoint_items z) with (items_of (waypoints z)).
    rewrite <- Hsplit. apply elem_of_app. now right.
Qed.

Lemma dispatch_effect win n (z : scheduler) p :
  Forall deferred (waypoints z) →
  touch (waypoint_items z) (dom p) (dom (dispatch apply win n z p).1.2)
  ∧ loader_items (dispatch apply win n z p).1.2
      ++ waypoint_items (dispatch apply win n z p).1.1
    ≡ₚ loader_items p ++ waypoint_items z
  ∧ fading (dispatch apply win n z p).1.2 = fading p.
Proof.
  revert z p. induction n as [|n IH]; intros z p Hd.
  { simpl. split; [apply touch_refl|]. split; reflexivity. }
  destruct (update_effect win z p Hd) as (Ht1 & Hp1 & Hf1 & Hd1 & Hsub).
  cbn [dispatch].
  destruct (update apply win z p) as [[z1 p1] f1]. cbn [fst snd] in *.
  destruct (IH z1 p1 Hd1) as (Ht2 & Hp2 & Hf2).
  destruct (dispatch apply win n z1 p1) as [[z2 p2] f2]. cbn [fst snd] in *.
  split; [|split].
  - apply (touch_mono (waypoint_items z ++ waypoint_items z1)).
    + intros i Hi. apply elem_of_app in Hi as [Hi|Hi]; auto.
    + now apply (touch_trans _ _ _ (dom p1)).
  - now rewrite Hp2, Hp1.
  - congruence.
Qed.

(** *** Overlays and the tree *)

Lemma select_class_nids c d i : i ∈ select_class c d → i ∈ nid <$> d.
Proof. rewrite select_class_elem. intros (n & Hn & <- & _). now apply list_elem_of_fmap_2. Qed.

Lemma rooted_start d :
  (∀ n q, n ∈ d → parent n = Some q → q ∈ nid <$> d) → rooted (start d).
Proof.
  intros Hd. split; simpl; auto; try (intros ? H; now apply elem_of_nil in H).
  intros n o _ H. now apply elem_of_nil in H.
Qed.

Lemma rooted_touch s p' z' sel :
  rooted s →
  touch sel (dom (the_page s)) (dom p') →
  fading p' = fading (the_page s) →
  (∀ i, i ∈ loader_items p' ++ waypoint_items z' →
        i ∈ items s ∨ i ∈ select_class ready (dom (the_page s))) →
  rooted (System p' z').
Proof.
  intros [F1 I8 I9 I10 I11] Ht Hf Hi.
  split; unfold items; cbn [the_page zg]; rewrite ?Hf.
  - intros o Ho Hr. apply (F1 o Ho). now apply (touch_ready _ _ _ _ Ht).
  - intros n' o Hn' Ho. destruct (touch_elem_r _ _ _ _ Ht Hn') as (n & Hn & Hs & _).
    destruct Hs as (_ & -> & _). now apply I8.
  - intros n' q Hn' Hq. destruct (touch_elem_r _ _ _ _ Ht Hn') as (n & Hn & Hs & _).
    destruct Hs as (_ & Hp & _). rewrite (touch_nids _ _ _ Ht).
    apply (I9 n); congruence.
  - intros i Hin. rewrite (touch_nids _ _ _ Ht).
    destruct (Hi i Hin) as [H|H]; [now apply I10|now apply select_class_nids in H].
  - intros o Ho Hin. destruct (Hi o Hin) as [H|H]; [now apply (I11 o)|now apply (F1 o)].
Qed.

Lemma rooted_check win s : sound s → rooted s → rooted (HiDPI.step s (Check win)).
Proof.
  intros Hs Hr. destruct s as [p z]. unfold HiDPI.step. cbn [the_page zg] in *.
  destruct (check_run win p z) as (Ht & HL & HW & _ & HF & _).
  destruct (checkForHiDPIElements win (p, z)) as [p' z']. cbn [fst snd] in *.
  apply (rooted_touch _ _ _ _ Hr Ht HF). unfold items. cbn [the_page zg].
  intros i. rewrite HL, HW, !elem_of_app, !list_elem_of_filter.
  intros [[H|[_ H]]|[H|[_ H]]]; auto using eligible_ready.
Qed.

Lemma rooted_scroll win s : sound s → rooted s → rooted (HiDPI.step s (HiDPI.Scroll win)).
Proof.
  intros Hs Hr. unfold HiDPI.step, scroll.
  destruct (dispatch_effect win (scroll_handlers (zg s)) (zg s) (the_page s)
              (sound_deferred _ Hs)) as (Ht & Hp & Hf).
  destruct (dispatch apply win _ (zg s) (the_page s)) as [[z' p'] f].
  cbn [fst snd] in *.
  apply (rooted_touch _ _ _ _ Hr Ht Hf).
  intros i Hi. left. unfold items. now rewrite <- Hp.
Qed.

Lemma remove_leaf o gone (d : document) :
  (∀ g, g ∈ gone ↔ g = o) →
  (∀ n, n ∈ d → parent n ≠ Some o) →
  remove_from gone d = filter (λ n, nid n ≠ o) d.
Proof.
  revert gone. induction d as [|n d IH]; intros gone Hg Hd; [reflexivity|].
  simpl. rewrite filter_cons.
  assert (Hp : match parent n with
               | Some p => bool_decide (p ∈ gone)
               | None => false
               end = false).
  { destruct (parent n) as [q|] eqn:Hq; [|reflexivity].
    apply bool_decide_eq_false. rewrite Hg. intros ->.
    apply (Hd n); [apply list_elem_of_here|assumption]. }
  rewrite Hp, orb_false_r.
  assert (Hd' : ∀ m, m ∈ d → parent m ≠ Some o).
  { intros m Hm. apply Hd. now apply list_elem_of_further. }
  case_bool_decide as Hn.
  - apply Hg in Hn. rewrite decide_False by tauto.
    apply IH; [|assumption]. intros g. rewrite elem_of_cons, Hg, Hn. tauto.
  - rewrite Hg in Hn. rewrite decide_True by assumption. f_equal. now apply IH.
Qed.

Lemma deliver_cases k handler s :
  deliver k handler s = s
  ∨ ∃ this, loaders (the_page s) !! k = Some this
            ∧ deliver k handler s
              = System (settle k (handler this (the_page s))) (zg s).
Proof.
  unfold deliver. destruct (loaders (the_page s) !! k) as [this|]; [|now left].
  destruct (_ || _); [now left|]. right. eauto.
Qed.

Lemma loader_items_elem p k this i :
  loaders p !! k = Some this → i ∈ event_data this → i ∈ loader_items p.
Proof.
  intros Hk Hi. apply concat_elem. exists (event_data this). split; [|assumption].
  apply list_elem_of_fmap. exists this. split; [reflexivity|].
  apply list_elem_of_lookup. eauto.
Qed.

Lemma rooted_error k s : rooted s → rooted (deliver k hiDPIError s).
Proof.
  intros Hr. destruct (deliver_cases k hiDPIError s) as [->|(this & Hk & ->)];
    [assumption|].
  destruct (hiDPIError_touch this (the_page s)) as (Ht & HL & HF).
  apply (rooted_touch _ _ _ (event_data this) Hr); [exact Ht|exact HF|].
  intros i Hi. left. unfold items. rewrite settle_items in Hi.
  unfold loader_items in *. now rewrite HL in Hi.
Qed.

Lemma prependTo_elem o item (d : document) n' :
  n' ∈ prependTo [o] item d →
  n' ∈ d ∨ ∃ n, n ∈ d ∧ nid n ∈ item ∧ n' = set_place (nid o) (Some (nid n)) o.
Proof.
  unfold prependTo. destruct item as [|i item]; [now left|].
  intros H. apply splice_after_elem in H as [H|(n & Hn & Hat & Hin)]; [now left|].
  right. exists n. apply bool_decide_eq_true in Hat.
  simpl in Hin. apply list_elem_of_singleton in Hin.
  split; [assumption|]. split; [rewrite Hat; apply list_elem_of_here|assumption].
Qed.

Lemma prependTo_keeps o item (d : document) n : n ∈ d → n ∈ prependTo [o] item d.
Proof.
  unfold prependTo. destruct item; [auto|]. apply splice_after_keeps.
Qed.

Lemma rooted_load k s : rooted s → rooted (deliver k on_load s).
Proof.
  intros Hr. destruct (deliver_cases k on_load s) as [->|(this & Hk & ->)];
    [assumption|].
  set (p := the_page s) in *. unfold on_load.
  destruct (decide (prop_tagName (event_data this) (dom p) = Some "IMG")) as [Himg|Himg].
  { rewrite (hiDPILoaded_img this p Himg).
    apply (rooted_touch _ _ _ [] Hr); [apply touch_refl|reflexivity|].
    intros i Hi. left. unfold items. now rewrite settle_items in Hi. }
  destruct (hiDPILoaded_container this p Himg)
    as (d1 & o & d2 & H1 & -> & H2 & Ho & _ & _ & Hc).
  destruct Hr as [F1 I8 I9 I10 I11]. fold p in F1, I8, I9, I10, I11.
  pose proof (touch_nids _ _ _ H1) as N1.
  pose proof (touch_nids _ _ _ H2) as N2.
  pose proof (fresh_new d1) as Hfresh.
  assert (Hor : hasClass ready o = false).
  { apply bool_decide_eq_false. rewrite Hc.
    intros Hx; repeat (apply elem_of_cons in Hx as [[=]|Hx]); inversion Hx. }
  assert (Hkeep : ∀ i, i ∈ nid <$> dom p → i ∈ nid <$> d2).
  { intros i Hi. rewrite N2. rewrite <- N1 in Hi.
    apply list_elem_of_fmap in Hi as (m & -> & Hm).
    apply list_elem_of_fmap_2. now apply prependTo_keeps. }
  assert (Hback : ∀ n2, n2 ∈ d2 →
            (∃ n, n ∈ dom p ∧ parent n2 = parent n)
            ∨ (∃ n, n ∈ d1 ∧ nid n ∈ event_data this ∧ parent n2 = Some (nid n))).
  { intros n2 Hn2. destruct (touch_elem_r _ _ _ _ H2 Hn2) as (nI & HnI & Hs & _).
    destruct Hs as (_ & Hp2 & _).
    apply prependTo_elem in HnI as [HnI|(n & Hn & Hin & ->)].
    - left. destruct (touch_elem_r _ _ _ _ H1 HnI) as (n & Hn & Hs & _).
      destruct Hs as (_ & Hp1 & _). exists n. split; [assumption|congruence].
    - right. exists n. auto. }
  assert (Hsame : items (System (settle k (Page d2 (loaders p) (fading p ++ [fresh d1])
                                   (console p) (uncaught p))) (zg s)) = items s).
  { unfold items. cbn [the_page zg]. now rewrite settle_items. }
  split; rewrite ?Hsame; cbn [the_page zg settle dom fading].
  - intros o' Ho' Hrd.
    apply (touch_ready _ _ _ _ H2) in Hrd.
    apply (proj2 (prependTo_tame o (event_data this) d1
                    ltac:(rewrite Ho; exact Hfresh) Hor)) in Hrd.
    apply (touch_ready _ _ _ _ H1) in Hrd.
    apply elem_of_app in Ho' as [Ho'|Ho'].
    + now apply (F1 o').
    + apply list_elem_of_singleton in Ho' as ->.
      apply Hfresh. rewrite N1. now apply select_class_nids in Hrd.
  - intros n2 o' Hn2 Ho' Hp.
    destruct (Hback n2 Hn2) as [(n & Hn & Hpn)|(n & Hn & Hin & Hpn)];
      rewrite Hpn in Hp; apply elem_of_app in Ho' as [Ho'|Ho'].
    + now apply (I8 n o').
    + apply list_elem_of_singleton in Ho' as ->.
      apply Hfresh. rewrite N1. now apply (I9 n).
    + injection Hp as Hp. apply (I11 o' Ho'). unfold items. apply elem_of_app. left.
      rewrite <- Hp. now apply (loader_items_elem p k this).
    + apply list_elem_of_singleton in Ho' as ->. injection Hp as Hp.
      apply Hfresh. rewrite <- Hp. now apply list_elem_of_fmap_2.
  - intros n2 q Hn2 Hq.
    destruct (Hback n2 Hn2) as [(n & Hn & Hpn)|(n & Hn & Hin & Hpn)];
      rewrite Hpn in Hq.
    + apply Hkeep. now apply (I9 n).
    + injection Hq as <-. apply Hkeep. rewrite <- N1. now apply list_elem_of_fmap_2.
  - intros i Hi. now apply Hkeep, I10.
  - intros o' Ho' Hin. apply elem_of_app in Ho' as [Ho'|Ho'].
    + now apply (I11 o').
    + apply list_elem_of_singleton in Ho' as ->.
      apply Hfresh. rewrite N1. now apply I10.
Qed.

Lemma hiDPIAnimationComplete_dom o p :
  ∃ sel, dom (hiDPIAnimationComplete o p)
         = remove [o] (removeClass ["hidpi-animating"] sel (dom p))
       ∧ fading (hiDPIAnimationComplete o p) = fading p.
Proof.
  unfold hiDPIAnimationComplete. destruct (bool_decide _); eexists; split; reflexivity.
Qed.

Lemma rooted_fade o s :
  rooted s → rooted (HiDPI.step s (FadeComplete o)).
Proof.
  intros Hr. unfold HiDPI.step. cbv zeta. case_bool_decide as Ho; [|assumption].
  set (p := the_page s) in *.
  destruct (hiDPIAnimationComplete_dom o p) as (sel & Hd & Hf).
  destruct (hiDPIAnimationComplete_tame o p) as [_ HL].
  destruct Hr as [F1 I8 I9 I10 I11]. fold p in F1, I8, I9, I10, I11.
  set (d1 := removeClass ["hidpi-animating"] sel (dom p)) in *.
  assert (H1 : touch sel (dom p) d1) by apply touch_removeClass.
  pose proof (touch_nids _ _ _ H1) as N1.
  assert (Hleaf : ∀ n, n ∈ d1 → parent n ≠ Some o).
  { intros n1 Hn1. destruct (touch_elem_r _ _ _ _ H1 Hn1) as (n & Hn & Hs & _).
    destruct Hs as (_ & -> & _). now apply I8. }
  assert (Hrm : dom (hiDPIAnimationComplete o p) = filter (λ n, nid n ≠ o) d1).
  { rewrite Hd. unfold remove. apply remove_leaf; [|assumption].
    intros g. apply list_elem_of_singleton. }
  assert (Hback : ∀ n', n' ∈ dom (hiDPIAnimationComplete o p) →
            ∃ n, n ∈ dom p ∧ touched sel n n').
  { intros n' Hn'. rewrite Hrm in Hn'. apply list_elem_of_filter in Hn' as [_ Hn'].
    now apply (touch_elem_r _ _ _ _ H1). }
  assert (Hkeep : ∀ i, i ∈ nid <$> dom p → i ≠ o →
            i ∈ nid <$> dom (hiDPIAnimationComplete o p)).
  { intros i Hi Hne. rewrite <- N1 in Hi. apply list_elem_of_fmap in Hi as (m & -> & Hm).
    apply list_elem_of_fmap_2. rewrite Hrm. now apply list_elem_of_filter. }
  assert (Hsame : items (System
            (Page (dom (hiDPIAnimationComplete o p)) (loaders (hiDPIAnimationComplete o p))
               (filter (λ o', o' ≠ o) (fading (hiDPIAnimationComplete o p)))
               (console (hiDPIAnimationComplete o p))
               (uncaught (hiDPIAnimationComplete o p))) (zg s)) = items s).
  { unfold items, loader_items. cbn [the_page zg loaders]. now rewrite HL. }
  split; rewrite ?Hsame; cbn [the_page zg dom fading]; rewrite ?Hf.
  - intros o' Ho' Hrd. apply list_elem_of_filter in Ho' as [_ Ho'].
    apply (F1 o' Ho'). apply select_class_elem in Hrd as (n' & Hn' & <- & Hc).
    destruct (Hback n' Hn') as (n & Hn & Hs & _ & Hrr).
    apply select_class_elem. exists n. split; [assumption|]. split; [symmetry; apply Hs|auto].
  - intros n' o' Hn' Ho'. apply list_elem_of_filter in Ho' as [_ Ho'].
    destruct (Hback n' Hn') as (n & Hn & Hs & _). destruct Hs as (_ & -> & _).
    now apply I8.
  - intros n' q Hn' Hq. destruct (Hback n' Hn') as (n & Hn & Hs & _).
    destruct Hs as (_ & Hp & _). rewrite Hp in Hq.
    apply Hkeep; [now apply (I9 n)|]. intros ->. now apply (I8 n o).
  - intros i Hi. apply Hkeep; [now apply I10|]. intros ->. now apply (I11 o).
  - intros o' Ho'. apply list_elem_of_filter in Ho' as [_ Ho']. now apply I11.
Qed.

Lemma rooted_step s e : sound s → rooted s → rooted (HiDPI.step s e).
Proof.
  intros Hs Hr. destruct e as [win|win|k|k|o].
  - now apply rooted_check.
  - now apply rooted_scroll.
  - now apply rooted_load.
  - now apply rooted_error.
  - now apply rooted_fade.
Qed.

Lemma rooted_run s es : sound s → rooted s → rooted (HiDPI.run s es).
Proof.
  revert s. induction es as [|e es IH]; intros s Hs Hr; [assumption|].
  apply IH; [now apply sound_step|now apply rooted_step].
Qed.

(** *** An element that waits *)

Lemma waiting_touch e w sel d d' :
  touch sel d d' → e ∉ sel → waiting e w d → waiting e w d'.
Proof.
  intros Ht He (n & Hn & Hid & Hr & Hw).
  destruct (touch_elem_l _ _ _ _ Ht Hn) as (n' & Hn' & _ & Hsame & _).
  rewrite Hsame in Hn' by now rewrite Hid. exists n. auto.
Qed.

Lemma waiting_ready e w d : waiting e w d → e ∈ select_class ready d.
Proof. intros (n & Hn & Hid & Hr & _). apply select_class_elem. eauto. Qed.

Lemma waiting_removeClass e w names sel d :
  ready ∉ names → waiting e w d → waiting e w (removeClass names sel d).
Proof.
  intros Hnames (n & Hn & Hid & Hr & Hw).
  exists (if bool_decide (nid n ∈ sel)
          then set_classes (λ cs, foldl (λ cs c, remove_class c cs) cs names) n
          else n).
  split; [apply on_nodes_elem; eauto|].
  case_bool_decide; [|auto]. simpl. repeat split; auto.
  apply hasClass_true. simpl. apply foldl_remove_class_elem.
  split; [now apply hasClass_true|assumption].
Qed.

Lemma narrow_not_eligible e w d :
  NoDup (nid <$> d) → waiting e w d →
  JS.gtb w HIDPI_BREAKPOINT = false → e ∉ eligible d.
Proof.
  intros Hd (n & Hn & Hid & _ & Hw) Hnarrow He.
  apply eligible_elem in He as (n0 & Hn0 & Hid0 & _ & Hwide).
  assert (n0 = n) as -> by (apply (nid_inj_on d); auto; congruence).
  congruence.
Qed.

Lemma waiting_step e w s ev :
  sound s → rooted s →
  JS.gtb w HIDPI_BREAKPOINT = false →
  waiting e w (dom (the_page s)) →
  waiting e w (dom (the_page (HiDPI.step s ev))).
Proof.
  intros Hs Hr Hnarrow Hw.
  assert (Hitems : e ∉ items s).
  { apply (sound_ready _ Hs). now apply (waiting_ready e w). }
  unfold items in Hitems. rewrite elem_of_app in Hitems.
  destruct ev as [win|win|k|k|o]; unfold HiDPI.step.
  - destruct (check_run win (the_page s) (zg s)) as (Ht & _).
    destruct (checkForHiDPIElements win (the_page s, zg s)) as [p' z'].
    cbn [fst the_page] in *. apply (waiting_touch _ _ _ _ _ Ht); [|assumption].
    now apply (narrow_not_eligible e w); [apply (sound_nids _ Hs)| |].
  - unfold scroll.
    destruct (dispatch_effect win (scroll_handlers (zg s)) (zg s) (the_page s)
                (sound_deferred _ Hs)) as (Ht & _).
    destruct (dispatch apply win _ (zg s) (the_page s)) as [[z' p'] f].
    cbn [fst snd the_page] in *. apply (waiting_touch _ _ _ _ _ Ht); tauto.
  - destruct (deliver_cases k on_load s) as [->|(this & Hk & ->)]; [assumption|].
    assert (He : e ∉ event_data this).
    { intros He. apply Hitems. left. now apply (loader_items_elem _ k this). }
    cbn [the_page settle dom]. unfold on_load.
    destruct (decide (prop_tagName (event_data this) (dom (the_page s)) = Some "IMG"))
      as [Himg|Himg].
    { now rewrite (hiDPILoaded_img _ _ Himg). }
    destruct (hiDPILoaded_container _ _ Himg) as (d1 & o & d2 & H1 & -> & H2 & _).
    cbn [dom]. apply (waiting_touch _ _ _ _ _ H2 He).
    destruct (waiting_touch _ _ _ _ _ H1 He Hw) as (n & Hn & Hrest).
    exists n. split; [now apply prependTo_keeps|assumption].
  - destruct (deliver_cases k hiDPIError s) as [->|(this & Hk & ->)]; [assumption|].
    assert (He : e ∉ event_data this).
    { intros He. apply Hitems. left. now apply (loader_items_elem _ k this). }
    cbn [the_page settle dom].
    now apply (waiting_touch _ _ _ _ _ (proj1 (hiDPIError_touch this (the_page s)))).
  - cbv zeta. case_bool_decide as Ho; [|assumption]. cbn [the_page dom].
    destruct (hiDPIAnimationComplete_dom o (the_page s)) as (sel & -> & _).
    unfold remove. rewrite (remove_leaf o).
    + assert (Hne : e ≠ o).
      { intros ->. apply (rooted_fading _ Hr o Ho). now apply (waiting_ready o w). }
      destruct (waiting_removeClass e w ["hidpi-animating"] sel _
                  ltac:(intros Hx; repeat (apply elem_of_cons in Hx as [[=]|Hx]); inversion Hx)
                  Hw) as (n & Hn & Hid & Hrest).
      exists n. split; [|auto]. apply list_elem_of_filter. split; [congruence|assumption].
    + intros g. apply list_elem_of_singleton.
    + intros n1 Hn1.
      destruct (touch_elem_r _ _ _ _ (touch_removeClass _ sel _) Hn1) as (n & Hn & Hsm & _).
      destruct Hsm as (_ & -> & _). now apply (rooted_leaf _ Hr).
Qed.




(** ** Scans, failed fetches and narrow elements *)

Section page_facts.
Variable d : document.
Hypothesis distinct : NoDup (nid <$> d).


(** C6. A failed fetch is terminal for its element.  When loader [k] fires
    its error event, [hiDPIError] gives the element the class
    [hidpi-error]; and whatever events follow, the element is never ready
    again, so no scan selects it, it is registered with no waypoint, the
    failed loader stays settled and delivers no further event, and no other
    loader is ever built for the element: there is no retry. *)
Theorem failed_load_is_terminal
    (es es' : list event) (k : nat) (this : loader) :
  let s := HiDPI.run (start d) es in
  loaders (the_page s) !! k = Some this →
  settled this = false →
  is_Some (src this) →
  let s1 := HiDPI.step s (Error k) in
  let s2 := HiDPI.run s1 es' in
  (∀ n, n ∈ dom (the_page s1) → nid n ∈ event_data this →
        hasClass "hidpi-error" n = true)
  ∧ (∀ i, i ∈ event_data this →
       (i ∉ select_class ready (dom (the_page s2)))
       ∧ (i ∉ eligible (dom (the_page s2)))
       ∧ (i ∉ waypoint_items (zg s2)))
  ∧ (∃ this', loaders (the_page s2) !! k = Some this'
              ∧ event_data this' = event_data this ∧ settled this' = true)
  ∧ (∀ k' this' i, loaders (the_page s2) !! k' = Some this' →
       i ∈ event_data this → i ∈ event_data this' → k' = k).
Proof.
  intros s Hk Hset Hsrc s1 s2.
  assert (Hs : sound s) by (apply sound_run, sound_start, distinct).
  assert (Hs2 : sound s2) by (apply sound_run; now apply sound_step).
  assert (Hs1 : the_page s1 = settle k (hiDPIError this (the_page s))).
  { unfold s1, HiDPI.step, deliver. rewrite Hk, Hset.
    rewrite bool_decide_eq_true_2 by assumption. reflexivity. }
  assert (Hk2 : ∃ this', loaders (the_page s2) !! k = Some this'
                ∧ event_data this' = event_data this ∧ settled this' = true).
  { assert (Hk1 : ∃ l1, loaders (the_page s1) !! k = Some l1
                   ∧ event_data l1 = event_data this ∧ settled l1 = true).
    { rewrite Hs1. unfold settle. cbn [loaders].
      rewrite list_lookup_alter_eq.
      rewrite (proj1 (proj2 (hiDPIError_touch this (the_page s)))), Hk.
      simpl. eauto. }
    destruct Hk1 as (l1 & Hl1 & Hd1 & Hst1).
    destruct (persists_run s1 es' k l1 Hl1) as (l2 & Hl2 & Hd2 & _ & Hst2).
    exists l2. repeat split; [assumption|congruence|auto]. }
  destruct Hk2 as (this2 & Hl2 & Hd2 & Hst2).
  assert (Hitem : ∀ i, i ∈ event_data this → i ∈ loader_items (the_page s2)).
  { intros i Hi. apply concat_elem. exists (event_data this2).
    split; [|now rewrite Hd2].
    apply list_elem_of_fmap. exists this2. split; [reflexivity|].
    apply list_elem_of_lookup. eauto. }
  split; [|split; [|split]].
  - intros n Hn Hin. rewrite Hs1 in Hn. unfold settle, hiDPIError in Hn.
    cbn [dom with_dom] in Hn.
    apply on_nodes_elem in Hn as (n1 & _ & ->).
    assert (Hin1 : nid n1 ∈ event_data this).
    { revert Hin. case_bool_decide; auto. }
    rewrite bool_decide_eq_true_2 by assumption.
    apply hasClass_true. simpl. apply add_class_elem. now right.
  - intros i Hi. specialize (Hitem i Hi).
    assert (Hr : i ∉ select_class ready (dom (the_page s2))).
    { intros Hr. apply (sound_ready _ Hs2 i Hr). apply elem_of_app. now left. }
    split; [assumption|]. split.
    + intros He. now apply Hr, eligible_ready.
    + intros Hw. pose proof (sound_once _ Hs2) as Hnd.
      apply NoDup_app in Hnd as (_ & Hdis & _). now apply (Hdis i).
  - eauto.
  - intros k' this' i Hk' Hi Hi'.
    pose proof (sound_once _ Hs2) as Hnd. apply NoDup_app in Hnd as (Hnd & _ & _).
    eapply (concat_NoDup_lookup (event_data <$> loaders (the_page s2)) k' k);
      [exact Hnd| | |exact Hi'|].
    + now rewrite list_lookup_fmap, Hk'.
    + now rewrite list_lookup_fmap, Hl2.
    + now rewrite Hd2.
Qed.

Hypothesis closed : ∀ n q, n ∈ d → parent n = Some q → q ∈ nid <$> d.

(** C9. An element that is ready and not wider than [HIDPI_BREAKPOINT]
    stays ready: after any number of scans, and of any other events, of a
    page that starts as a well-formed document, the element is in the
    document with its ready class and its width, no image loader has been
    built for it and no waypoint registered for it. *)
Theorem narrow_element_stays_ready (es : list event) (n : node) :
  n ∈ d →
  hasClass ready n = true →
  JS.gtb (width n) HIDPI_BREAKPOINT = false →
  let s := HiDPI.run (start d) es in
  (∃ n', n' ∈ dom (the_page s) ∧ nid n' = nid n
         ∧ hasClass ready n' = true ∧ width n' = width n)
  ∧ (nid n ∉ loader_items (the_page s))
  ∧ (nid n ∉ waypoint_items (zg s)).
Proof.
  intros Hn Hr Hnarrow.
  assert (H : ∀ s, sound s → rooted s → waiting (nid n) (width n) (dom (the_page s)) →
              let s' := HiDPI.run s es in
              sound s' ∧ waiting (nid n) (width n) (dom (the_page s'))).
  { induction es as [|e es' IH]; intros s Hs Hrt Hw; [now split|].
    apply IH; [now apply sound_step|now apply rooted_step|now apply waiting_step]. }
  destruct (H (start d)) as [Hs Hw].
  - now apply sound_start.
  - now apply rooted_start.
  - exists n. auto.
  - cbv zeta. split; [exact Hw|].
    pose proof (sound_ready _ Hs _ (waiting_ready _ _ _ Hw)) as Hni.
    rewrite elem_of_app in Hni. tauto.
Qed.

End page_facts.

(** ** The load and error handlers *)

(** C1. On an IMG element the load handler does none of what it is meant to
    do.  Line 110 assigns [$item.parent], the method, to [$parent]; line 117
    calls [$parent.css], which a function object does not have, so the
    handler throws a TypeError before it has changed anything: the page is
    what it was (no overlay, the old [src], the class [hidpi-loading], the
    [data-hidpi-src] attribute, no fade) but for the reported exception. *)
Theorem img_load_handler_throws (this : loader) (p : page) :
  prop_tagName (event_data this) (dom p) = Some "IMG" →
  hiDPILoaded this p = Throws "TypeError: $parent.css is not a function" p
  ∧ on_load this p
    = Page (dom p) (loaders p) (fading p) (console p)
        (uncaught p ++ ["TypeError: $parent.css is not a function"]).
Proof.
  intros H. split; [now apply hiDPILoaded_img|].
  unfold on_load. now rewrite (hiDPILoaded_img this p H).
Qed.

Lemma lifecycle_remove_processing cs :
  filter (λ c, c ∈ lifecycle) (remove_class "hidpi-processing" cs)
  = filter (λ c, c ∈ lifecycle) cs.
Proof.
  unfold remove_class. induction cs as [|c cs IH]; [reflexivity|].
  rewrite !filter_cons. destruct (decide (c ≠ "hidpi-processing")) as [Hc|Hc].
  - rewrite filter_cons. now rewrite IH.
  - apply dec_stable in Hc as ->. rewrite IH.
    rewrite decide_False; [reflexivity|].
    unfold lifecycle. intros Hx; repeat (apply elem_of_cons in Hx as [[=]|Hx]); inversion Hx.
Qed.

(** C3. [hiDPIError] does not keep the state classes exclusive.  It removes
    [hidpi-processing], a class no code adds, where [preloadHiDPIImage] had
    added [hidpi-loading]: an element whose one state class is
    [hidpi-loading] has two after the handler, [hidpi-loading] and
    [hidpi-error]. *)
Theorem error_leaves_loading_marker (this : loader) (p : page) (n : node) :
  n ∈ dom p →
  nid n ∈ event_data this →
  lifecycle_of n = ["hidpi-loading"] →
  ∃ n', n' ∈ dom (hiDPIError this p) ∧ nid n' = nid n
        ∧ lifecycle_of n' = ["hidpi-loading"; "hidpi-error"].
Proof.
  intros Hn Hin Hl.
  set (f := set_classes (λ cs, add_class "hidpi-error" (remove_class "hidpi-processing" cs))).
  exists (f n). split; [|split; [reflexivity|]].
  - unfold hiDPIError. cbn [dom with_dom]. unfold addClass, removeClass.
    apply on_nodes_elem. eexists. split.
    + apply on_nodes_elem. exists n. split; [exact Hn|reflexivity].
    + rewrite (bool_decide_eq_true_2 _ Hin). simpl.
      now rewrite (bool_decide_eq_true_2 _ Hin).
  - unfold lifecycle_of in *. simpl.
    assert (Hne : "hidpi-error" ∉ remove_class "hidpi-processing" (classes n)).
    { rewrite remove_class_elem. intros [He _].
      assert (Hx : "hidpi-error" ∈ filter (λ c, c ∈ lifecycle) (classes n)).
      { apply list_elem_of_filter. split; [|assumption].
        unfold lifecycle. repeat (first [apply list_elem_of_here|apply list_elem_of_further]). }
      rewrite Hl in Hx. apply list_elem_of_singleton in Hx. discriminate. }
    unfold add_class. rewrite bool_decide_eq_false_2 by assumption.
    rewrite filter_app, lifecycle_remove_processing, Hl. reflexivity.
Qed.

(** ** The handlers on the sample page *)

Lemma img_load_handler_throws_witness :
  hiDPILoaded Examples.image_loader (the_page Examples.scanned)
  = Throws "TypeError: $parent.css is not a function" (the_page Examples.scanned).
Proof.
  apply (img_load_handler_throws Examples.image_loader (the_page Examples.scanned)).
  reflexivity.
Defined.

Lemma error_leaves_loading_marker_witness :
  ∃ n', n' ∈ dom (hiDPIError Examples.masthead_loader (the_page Examples.scanned))
        ∧ nid n' = 1
        ∧ lifecycle_of n' = ["hidpi-loading"; "hidpi-error"].
Proof.
  apply (error_leaves_loading_marker Examples.masthead_loader
           (the_page Examples.scanned) Examples.masthead_loading).
  - vm_compute. apply list_elem_of_further, list_elem_of_here.
  - vm_compute. apply list_elem_of_here.
  - reflexivity.
Defined.

Lemma sample_distinct : NoDup (nid <$> Examples.sample).
Proof.
  apply (bool_decide_unpack (NoDup (nid <$> Examples.sample))).
  vm_compute. exact I.
Qed.

Lemma sample_closed (n : node) (q : nat) :
  n ∈ Examples.sample → parent n = Some q → q ∈ nid <$> Examples.sample.
Proof.
  intros Hn Hq. repeat (apply elem_of_cons in Hn as [->|Hn]);
    try (now apply elem_of_nil in Hn); simpl in Hq; try discriminate;
    injection Hq as <-; apply list_elem_of_here.
Qed.


Lemma failed_load_is_terminal_witness :
  ∃ this',
    loaders (the_page (HiDPI.run (HiDPI.step Examples.scanned (Error 0))
                         [HiDPI.Scroll Examples.view1; Check Examples.view1]))
      !! 0 = Some this'
    ∧ event_data this' = [1] ∧ settled this' = true.
Proof.
  apply (failed_load_is_terminal Examples.sample sample_distinct
           [Check Examples.view0]
           [HiDPI.Scroll Examples.view1; Check Examples.view1]
           0 Examples.masthead_loader).
  - reflexivity.
  - reflexivity.
  - vm_compute. eauto.
Defined.

Lemma narrow_element_stays_ready_witness :
  4 ∉ loader_items
        (the_page (HiDPI.run (start Examples.sample)
                     [Check Examples.view0; HiDPI.Scroll Examples.view1; Load 0;
                      Check Examples.view1; FadeComplete 5])).
Proof.
  apply (narrow_element_stays_ready Examples.sample sample_distinct sample_closed
           [Check Examples.view0; HiDPI.Scroll Examples.view1; Load 0;
            Check Examples.view1; FadeComplete 5]
           (Examples.element 4 (Some 0) "IMG" ["hidpi-ready"] "hi/4.jpg" 640 300 500)).
  - vm_compute. repeat (first [apply list_elem_of_here|apply list_elem_of_further]).
  - reflexivity.
  - reflexivity.
Defined.

(** The sample page through a scan, a failed fetch of the masthead, a load
    of the image, a scroll to the section below and its load. *)
Example sample_run :
  let s := HiDPI.run (start Examples.sample)
             [Check Examples.view0; Error 0; Load 1; HiDPI.Scroll Examples.view1;
              Load 2; Check Examples.view1] in
  Examples.classes_in s
  = [(0, []);
     (1, ["masthead"; "hidpi-loading"; "hidpi-error"]);
     (2, ["hidpi-loading"]);
     (3, ["hidpi-animating"; "hidpi-loaded"]);
     (5, ["hidpi-overlay"]);
     (4, ["hidpi-ready"])]
  ∧ event_data <$> loaders (the_page s) = [[1]; [2]; [3]]
  ∧ uncaught (the_page s) = ["TypeError: $parent.css is not a function"]
  ∧ fading (the_page s) = [5].
Proof. repeat split; reflexivity. Qed.

(** ** The scan and the handlers, in closed form *)

Lemma lookup_node_on_nodes sel f d j :
  (∀ n, nid (f n) = nid n) →
  lookup_node j (on_nodes sel f d)
  = (λ n, if bool_decide (nid n ∈ sel) then f n else n) <$> lookup_node j d.
Proof.
  intros Hf. unfold lookup_node, on_nodes.
  induction d as [|n d IH]; [reflexivity|].
  rewrite fmap_cons. cbn [List.find].
  assert (Hid : nid (if bool_decide (nid n ∈ sel) then f n else n) = nid n)
    by (case_bool_decide; auto).
  rewrite Hid. destruct (bool_decide (nid n = j)); [reflexivity|exact IH].
Qed.

Lemma same_reads_refl d : same_reads d d.
Proof. intros j. reflexivity. Qed.

Lemma same_reads_trans d1 d2 d3 :
  same_reads d1 d2 → same_reads d2 d3 → same_reads d1 d3.
Proof. intros H1 H2 j. now rewrite H1. Qed.

Lemma same_reads_classes sel g d :
  same_reads (on_nodes sel (set_classes g) d) d.
Proof.
  intros j. rewrite lookup_node_on_nodes by reflexivity.
  destruct (lookup_node j d) as [n|]; [|reflexivity]. simpl.
  now case_bool_decide.
Qed.

Lemma same_reads_measure d d' j :
  same_reads d d' →
  measure offset_top [j] d = measure offset_top [j] d'
  ∧ measure height [j] d = measure height [j] d'
  ∧ data "hidpi-src" [j] d = data "hidpi-src" [j] d'.
Proof.
  intros H. specialize (H j). unfold measure, data, first_node.
  destruct (lookup_node j d) as [n|], (lookup_node j d') as [n'|];
    simpl in *; try discriminate; [|auto].
  injection H as H1 H2 H3. now rewrite H1, H2, H3.
Qed.

Lemma same_reads_in_view win d d' j :
  same_reads d d' → in_view_at win d j = in_view_at win d' j.
Proof.
  intros H. unfold in_view_at.
  destruct (same_reads_measure d d' j H) as (-> & -> & _). reflexivity.
Qed.

Lemma preload_classes sel d :
  addClass ["hidpi-loading"] sel (removeClass ["hidpi-queued"; "hidpi-pending"] sel d)
  = on_nodes sel (set_classes (each_classes true)) d.
Proof.
  unfold addClass, removeClass, on_nodes. rewrite <- list_fmap_compose.
  apply list_fmap_ext. intros k n _. unfold compose.
  destruct (bool_decide (nid n ∈ sel)) eqn:Hn; [|now rewrite Hn].
  cbn [nid set_classes]. now rewrite Hn.
Qed.

Lemma each_items_closed win l p z d0 :
  NoDup l →
  same_reads (dom p) d0 →
  foldl (each_item win) (p, z) l
  = (Page (each_element win d0 l <$> dom p)
       (loaders p ++ (scan_loader d0 <$> filter (λ i, in_view_at win d0 i = true) l))
       (fading p) (console p) (uncaught p),
     foldl (scan_waypoint d0) z (filter (λ i, in_view_at win d0 i ≠ true) l)).
Proof.
  revert p z. induction l as [|i l IH]; intros p z Hnd Hsame.
  { simpl. rewrite app_nil_r. f_equal. destruct p. simpl. f_equal.
    rewrite <- (list_fmap_id dom0) at 1. apply list_fmap_ext. intros k n _.
    unfold each_element. now rewrite bool_decide_eq_false_2 by apply not_elem_of_nil. }
  apply NoDup_cons in Hnd as [Hi Hnd].
  change (foldl (each_item win) (p, z) (i :: l))
    with (foldl (each_item win) (each_item win (p, z) i) l).
  rewrite each_item_unfold, !filter_cons.
  destruct (same_reads_measure _ _ i Hsame) as (Hm1 & Hm2 & Hm3).
  rewrite (same_reads_in_view win _ _ i Hsame), Hm1, Hm2.
  assert (Hel : ∀ g (v : bool), in_view_at win d0 i = v →
            each_classes v = g →
            each_element win d0 l <$> on_nodes [i] (set_classes g) (dom p)
            = each_element win d0 (i :: l) <$> dom p).
  { intros g v Hv Hg. unfold on_nodes. rewrite <- list_fmap_compose.
    apply list_fmap_ext. intros k n _. unfold compose, each_element.
    destruct (decide (nid n = i)) as [Heq|Hne].
    - rewrite (bool_decide_eq_true_2 (nid n ∈ [i]))
        by (rewrite Heq; apply list_elem_of_here).
      cbn [nid set_classes].
      rewrite (bool_decide_eq_false_2 (nid n ∈ l)) by now rewrite Heq.
      rewrite (bool_decide_eq_true_2 (nid n ∈ i :: l))
        by (rewrite Heq; apply list_elem_of_here).
      now rewrite Heq, Hv, Hg.
    - rewrite (bool_decide_eq_false_2 (nid n ∈ [i]))
        by (rewrite list_elem_of_singleton; assumption).
      destruct (decide (nid n ∈ l)) as [Hin|Hin].
      + rewrite !bool_decide_eq_true_2; auto. now apply list_elem_of_further.
      + rewrite !bool_decide_eq_false_2; auto. rewrite elem_of_cons. tauto. }
  destruct (in_view_at win d0 i) eqn:Hv.
  - rewrite decide_True by reflexivity. rewrite decide_False by auto.
    rewrite IH; [|assumption|].
    2:{ unfold preloadHiDPIImage. cbn [dom with_dom]. unfold addClass, removeClass.
        eapply same_reads_trans; [apply same_reads_classes|].
        eapply same_reads_trans; [apply same_reads_classes|exact Hsame]. }
    f_equal. unfold preloadHiDPIImage. cbn [dom loaders fading console uncaught with_dom].
    f_equal.
    + rewrite preload_classes. now apply (Hel _ true).
    + rewrite fmap_cons, <- app_assoc. simpl. do 2 f_equal.
      unfold scan_loader. f_equal. rewrite <- Hm3.
      unfold addClass, removeClass.
      eapply eq_trans; [apply same_reads_measure, same_reads_classes|].
      apply same_reads_measure, same_reads_classes.
  - rewrite decide_False by discriminate. rewrite decide_True by discriminate.
    rewrite IH; [|assumption|].
    2:{ cbn [dom with_dom]. unfold addClass.
        eapply same_reads_trans; [apply same_reads_classes|exact Hsame]. }
    cbn [dom loaders fading console uncaught with_dom]. f_equal.
    f_equal. unfold addClass.
    now apply (Hel _ false).
Qed.

(** The whole of a scan. *)
Lemma check_closed win p z :
  NoDup (nid <$> dom p) →
  checkForHiDPIElements win (p, z)
  = (Page (scan_element win (dom p) <$> dom p)
       (loaders p ++
          (scan_loader (dom p) <$>
             filter (λ i, in_view_at win (dom p) i = true) (eligible (dom p))))
       (fading p) (console p) (uncaught p),
     foldl (scan_waypoint (dom p)) z
       (filter (λ i, in_view_at win (dom p) i ≠ true) (eligible (dom p)))).
Proof.
  intros Hnd. rewrite check_unfold.
  rewrite (each_items_closed win _ _ z (dom p)).
  - cbn [dom loaders fading console uncaught with_dom]. f_equal. f_equal.
    unfold removeClass, on_nodes. rewrite <- list_fmap_compose.
    apply list_fmap_ext. intros k n _. unfold compose, each_element, scan_element.
    destruct (bool_decide (nid n ∈ eligible (dom p))) eqn:Hn; [|now rewrite Hn].
    cbn [nid set_classes]. now rewrite Hn.
  - now apply eligible_NoDup.
  - cbn [dom with_dom]. apply same_reads_classes.
Qed.

(** The state classes follow the class changes. *)
Lemma lifecycle_remove_class c cs :
  filter (λ c, c ∈ lifecycle) (remove_class c cs)
  = remove_class c (filter (λ c, c ∈ lifecycle) cs).
Proof.
  unfold remove_class. rewrite !list_filter_filter. apply list_filter_iff. tauto.
Qed.

Lemma lifecycle_add_class c cs :
  c ∈ lifecycle →
  filter (λ c, c ∈ lifecycle) (add_class c cs)
  = add_class c (filter (λ c, c ∈ lifecycle) cs).
Proof.
  intros Hc. unfold add_class.
  destruct (decide (c ∈ cs)) as [Hin|Hin].
  - rewrite !bool_decide_eq_true_2; auto. now apply list_elem_of_filter.
  - rewrite !bool_decide_eq_false_2; auto.
    + rewrite filter_app, filter_cons, decide_True by assumption. reflexivity.
    + rewrite list_elem_of_filter. tauto.
Qed.

Lemma lifecycle_add_other c cs :
  c ∉ lifecycle →
  filter (λ c, c ∈ lifecycle) (add_class c cs) = filter (λ c, c ∈ lifecycle) cs.
Proof.
  intros Hc. unfold add_class. case_bool_decide; [reflexivity|].
  rewrite filter_app, filter_cons, decide_False by assumption.
  apply app_nil_r.
Qed.

Lemma in_lifecycle c :
  c ∈ ["hidpi-ready"; "hidpi-pending"; "hidpi-loading"; "hidpi-loaded"; "hidpi-error"] →
  c ∈ lifecycle.
Proof. auto. Qed.

Ltac lifecycle_member :=
  unfold lifecycle;
  repeat (first [apply list_elem_of_here | apply list_elem_of_further]).

Lemma lifecycle_each_classes v cs :
  filter (λ c, c ∈ lifecycle) (each_classes v cs)
  = each_classes v (filter (λ c, c ∈ lifecycle) cs).
Proof.
  destruct v; unfold each_classes.
  - rewrite lifecycle_add_class by lifecycle_member.
    now rewrite !lifecycle_remove_class.
  - now rewrite lifecycle_add_class by lifecycle_member.
Qed.

(** X8. A scan moves a ready element to one state: an element that
    [checkForHiDPIElements] selects and whose only lifecycle class is
    [hidpi-ready] is, after the scan, the same element at the same place in
    the document, and its only lifecycle class is [hidpi-loading] if it was
    in view and [hidpi-pending] if it was not. *)
Theorem scan_gives_one_state win p z k n :
  NoDup (nid <$> dom p) →
  dom p !! k = Some n →
  nid n ∈ eligible (dom p) →
  lifecycle_of n = ["hidpi-ready"] →
  ∃ n', dom (checkForHiDPIElements win (p, z)).1 !! k = Some n'
        ∧ nid n' = nid n
        ∧ lifecycle_of n'
          = [if in_view_at win (dom p) (nid n) then "hidpi-loading"
             else "hidpi-pending"].
Proof.
  intros Hnd Hk Hel Hl. rewrite (check_closed win p z Hnd). cbn [fst dom].
  exists (scan_element win (dom p) n).
  split; [now rewrite list_lookup_fmap, Hk|].
  unfold scan_element. rewrite (bool_decide_eq_true_2 _ Hel).
  split; [reflexivity|].
  unfold lifecycle_of in *. cbn [classes set_classes]. unfold scan_classes.
  rewrite lifecycle_each_classes, lifecycle_remove_class, Hl.
  now destruct (in_view_at win (dom p) (nid n)).
Qed.

(** ** The load handler on a container element *)

Lemma lookup_node_split i (d1 : document) n d2 :
  nid n = i → i ∉ nid <$> d1 → lookup_node i (d1 ++ n :: d2) = Some n.
Proof.
  intros <-. unfold lookup_node. induction d1 as [|m d1 IH]; intros Hn; simpl.
  - now rewrite bool_decide_eq_true_2.
  - rewrite fmap_cons, not_elem_of_cons in Hn. destruct Hn as [Hm Hn].
    rewrite bool_decide_eq_false_2 by congruence. now apply IH.
Qed.

Lemma on_nodes_others sel f (d : document) :
  (∀ i, i ∈ sel → i ∉ nid <$> d) → on_nodes sel f d = d.
Proof.
  intros H. unfold on_nodes. rewrite <- (list_fmap_id d) at 2.
  apply list_fmap_ext. intros k m Hk. simpl.
  rewrite bool_decide_eq_false_2; [reflexivity|].
  intros Hm. apply (H _ Hm). apply list_elem_of_fmap. exists m. split; [reflexivity|].
  now apply list_elem_of_lookup_2 in Hk.
Qed.

Lemma on_nodes_split i f (d1 : document) n d2 :
  nid n = i → i ∉ nid <$> d1 → i ∉ nid <$> d2 →
  on_nodes [i] f (d1 ++ n :: d2) = d1 ++ f n :: d2.
Proof.
  intros <- H1 H2.
  assert (Ho : ∀ d : document, nid n ∉ nid <$> d → on_nodes [nid n] f d = d).
  { intros d Hd. apply on_nodes_others. intros i Hi.
    apply list_elem_of_singleton in Hi. now subst. }
  unfold on_nodes in *. rewrite fmap_app, fmap_cons, (Ho d1 H1), (Ho d2 H2).
  rewrite bool_decide_eq_true_2; [reflexivity|]. apply list_elem_of_here.
Qed.

Lemma splice_after_split i new (d1 : document) n d2 :
  nid n = i → i ∉ nid <$> d1 →
  splice_after (λ m, bool_decide (nid m = i)) new (d1 ++ n :: d2)
  = d1 ++ n :: new n ++ d2.
Proof.
  intros <-. induction d1 as [|m d1 IH]; intros Hn; simpl.
  - now rewrite bool_decide_eq_true_2.
  - rewrite fmap_cons, not_elem_of_cons in Hn. destruct Hn as [Hm Hn].
    rewrite bool_decide_eq_false_2 by congruence. now rewrite IH.
Qed.

Lemma fresh_same_nids (d d' : document) :
  nid <$> d = nid <$> d' → fresh d = fresh d'.
Proof. unfold fresh. now intros ->. Qed.

Lemma css_of_other prop prop' v n :
  prop ≠ prop' → css_of prop (set_style (insert prop' v) n) = css_of prop n.
Proof.
  intros H. unfold css_of. cbn [style set_style]. now rewrite lookup_insert_ne.
Qed.

Lemma hiDPILoaded_exact this p d1 n d2 :
  dom p = d1 ++ n :: d2 → event_data this = [nid n] →
  nid n ∉ nid <$> d1 → nid n ∉ nid <$> d2 → tagName n ≠ "IMG" →
  hiDPILoaded this p
  = Returns ()
      (Page (d1 ++ loaded_container this n :: overlay_of (fresh (dom p)) n :: d2)
         (loaders p) (fading p ++ [fresh (dom p)]) (console p) (uncaught p)).
Proof.
  destruct p as [d L Fd Co U]. cbn [dom loaders fading console uncaught].
  intros -> He H1 H2 Ht. unfold hiDPILoaded. rewrite He.
  unfold bind at 1, reads at 1.
  assert (Hf : ∀ n1 d, nid n1 = nid n → first_node [nid n] (d1 ++ n1 :: d) = Some n1).
  { intros n1 d Hn1. now apply lookup_node_split. }
  cbn [dom].
  assert (Htag : prop_tagName [nid n] (d1 ++ n :: d2) ≠ Some "IMG").
  { unfold prop_tagName. rewrite (Hf n d2 eq_refl). simpl. congruence. }
  rewrite (bool_decide_eq_false_2 _ Htag).
  cbv [bind reads writes ret fadeOut with_dom dom loaders fading console uncaught].
  unfold css_get at 1. rewrite (Hf n d2 eq_refl). cbn [fmap option_fmap option_map].
  set (o := fresh (d1 ++ n :: d2)).
  assert (Ho : nid n ≠ o).
  { intros E. apply (fresh_new (d1 ++ n :: d2)). fold o. rewrite <- E.
    rewrite fmap_app, fmap_cons, elem_of_app, elem_of_cons. auto. }
  assert (Ho2 : ∀ m, nid m = o → nid n ∉ nid <$> (m :: d2)).
  { intros m Hm. rewrite fmap_cons, not_elem_of_cons. split; congruence. }
  unfold loaded_container.
  destruct (is_static (Some (css_of "position" n))) eqn:Hs; cbv beta iota.
  - set (n1 := set_style (insert "position" (CssString "relative")) n).
    assert (Hp : css_set "position" (CssString "relative") [nid n] (d1 ++ n :: d2)
                 = d1 ++ n1 :: d2).
    { unfold css_set.
      apply (on_nodes_split (nid n) (set_style (insert "position" (CssString "relative")))
               d1 n d2 eq_refl H1 H2). }
    rewrite !Hp.
    rewrite (fresh_same_nids (d1 ++ n1 :: d2) (d1 ++ n :: d2))
      by (now rewrite !fmap_app, !fmap_cons).
    fold o. unfold measure, css_get. rewrite (Hf n1 d2 eq_refl).
    cbn [fmap option_fmap option_map default].
    unfold prependTo. rewrite (splice_after_split (nid n) _ d1 n1 d2 eq_refl H1).
    cbn [fmap list_fmap app].
    match goal with |- context [n1 :: ?m :: d2] => set (ov := m) end.
    assert (Hon : ∀ f m, nid m = nid n →
              on_nodes [nid n] f (d1 ++ m :: ov :: d2) = d1 ++ f m :: ov :: d2).
    { intros f m Hm. apply on_nodes_split; auto. }
    unfold css_set, removeClass, addClass, removeAttr.
    rewrite !Hon by reflexivity.
    replace ov with (overlay_of o n); [reflexivity|].
    subst ov n1. unfold overlay_of, set_place, id.
    cbn [nid parent tagName classes attrs style
         width height outerWidth outerHeight offset_top set_style].
    now rewrite (css_of_other "background" "position").
  - fold o. unfold measure, css_get. rewrite (Hf n d2 eq_refl).
    cbn [fmap option_fmap option_map default].
    unfold prependTo. rewrite (splice_after_split (nid n) _ d1 n d2 eq_refl H1).
    cbn [fmap list_fmap app].
    match goal with |- context [n :: ?m :: d2] => set (ov := m) end.
    assert (Hon : ∀ f m, nid m = nid n →
              on_nodes [nid n] f (d1 ++ m :: ov :: d2) = d1 ++ f m :: ov :: d2).
    { intros f m Hm. apply on_nodes_split; auto. }
    unfold css_set, removeClass, addClass, removeAttr.
    rewrite !Hon by reflexivity.
    reflexivity.
Qed.

Lemma NoDup_split_nids (d1 : document) n d2 :
  NoDup (nid <$> (d1 ++ n :: d2)) →
  (nid n ∉ nid <$> d1) ∧ (nid n ∉ nid <$> d2).
Proof.
  rewrite fmap_app, fmap_cons. intros H. apply NoDup_app in H as (_ & H1 & H2).
  apply NoDup_cons in H2 as [H2 _]. split; [|assumption].
  intros Hin. apply (H1 _ Hin). apply list_elem_of_here.
Qed.



Lemma on_load_container this p d1 n d2 :
  dom p = d1 ++ n :: d2 → event_data this = [nid n] →
  NoDup (nid <$> dom p) → tagName n ≠ "IMG" →
  on_load this p
  = Page (d1 ++ loaded_container this n :: overlay_of (fresh (dom p)) n :: d2)
      (loaders p) (fading p ++ [fresh (dom p)]) (console p) (uncaught p).
Proof.
  intros Hd He Hnd Ht. rewrite Hd in Hnd.
  destruct (NoDup_split_nids _ _ _ Hnd) as [H1 H2].
  unfold on_load. now rewrite (hiDPILoaded_exact this p d1 n d2 Hd He H1 H2 Ht).
Qed.


Lemma lifecycle_loaded_container this n :
  lifecycle_of n = ["hidpi-loading"] →
  lifecycle_of (loaded_container this n) = ["hidpi-loaded"].
Proof.
  unfold lifecycle_of, loaded_container. cbn [classes]. intros Hl.
  rewrite lifecycle_add_class by lifecycle_member.
  rewrite lifecycle_add_other.
  - now rewrite lifecycle_remove_class, Hl.
  - unfold lifecycle. intros H.
    repeat (apply elem_of_cons in H as [[=]|H]). inversion H.
Qed.




Lemma marked_touch c e sel d d' :
  touch sel d d' → e ∉ sel → marked c e d → marked c e d'.
Proof.
  intros Ht He (n & Hn & Hid & Hc).
  destruct (touch_elem_l _ _ _ _ Ht Hn) as (n' & Hn' & _ & Hsame & _).
  rewrite Hsame in Hn' by now rewrite Hid. exists n. auto.
Qed.

Lemma marked_removeClass c e names sel d :
  c ∉ names → marked c e d → marked c e (removeClass names sel d).
Proof.
  intros Hnames (n & Hn & Hid & Hc).
  exists (if bool_decide (nid n ∈ sel)
          then set_classes (λ cs, foldl (λ cs c, remove_class c cs) cs names) n
          else n).
  split; [apply on_nodes_elem; eauto|].
  case_bool_decide; [|auto]. simpl. split; [assumption|].
  apply hasClass_true. simpl. apply foldl_remove_class_elem.
  split; [now apply hasClass_true|assumption].
Qed.

Lemma deliver_dead k handler s this :
  loaders (the_page s) !! k = Some this → src this = None →
  deliver k handler s = s.
Proof.
  intros Hk Hsrc. unfold deliver. rewrite Hk, Hsrc.
  rewrite bool_decide_eq_false_2 by (intros [x [=]]).
  now rewrite orb_true_r.
Qed.

(** An element whose loader has nothing to fetch keeps its classes, but
    for [hidpi-animating]. *)
Lemma marked_step c e k this s ev :
  sound s → rooted s →
  loaders (the_page s) !! k = Some this → src this = None → e ∈ event_data this →
  c ≠ "hidpi-animating" →
  marked c e (dom (the_page s)) →
  marked c e (dom (the_page (HiDPI.step s ev))).
Proof.
  intros Hs Hr Hk Hsrc He Hc Hm.
  assert (Hin : e ∈ loader_items (the_page s)) by now apply (loader_items_elem _ k this).
  assert (Hnw : e ∉ waypoint_items (zg s)).
  { pose proof (sound_once _ Hs) as Hnd. apply NoDup_app in Hnd as (_ & Hdis & _).
    now apply Hdis. }
  assert (Hother : ∀ k' this', loaders (the_page s) !! k' = Some this' →
                     k' ≠ k → e ∉ event_data this').
  { intros k' this' Hk' Hne He'. apply Hne.
    pose proof (sound_once _ Hs) as Hnd. apply NoDup_app in Hnd as (Hnd & _ & _).
    apply (concat_NoDup_lookup (event_data <$> loaders (the_page s)) k' k
             (event_data this') (event_data this) e Hnd);
      [now rewrite list_lookup_fmap, Hk'|now rewrite list_lookup_fmap, Hk| |];
      assumption. }
  destruct ev as [win|win|k'|k'|o]; unfold HiDPI.step.
  - destruct (check_run win (the_page s) (zg s)) as (Ht & _).
    destruct (checkForHiDPIElements win (the_page s, zg s)) as [p' z'].
    cbn [fst the_page] in *. apply (marked_touch _ _ _ _ _ Ht); [|assumption].
    intros Hel. apply eligible_ready in Hel.
    apply (sound_ready _ Hs e Hel). apply elem_of_app. now left.
  - unfold ZG_Waypoints.scroll.
    destruct (dispatch_effect win (ZG_Waypoints.scroll_handlers (zg s)) (zg s) (the_page s)
                (sound_deferred _ Hs)) as (Ht & _).
    destruct (ZG_Waypoints.dispatch apply win _ (zg s) (the_page s)) as [[z' p'] f].
    cbn [fst snd the_page] in *. now apply (marked_touch _ _ _ _ _ Ht).
  - destruct (decide (k' = k)) as [->|Hne].
    { now rewrite (deliver_dead k on_load s this). }
    destruct (deliver_cases k' on_load s) as [->|(this' & Hk' & ->)]; [assumption|].
    pose proof (Hother k' this' Hk' Hne) as He'.
    cbn [the_page settle dom]. unfold on_load.
    destruct (decide (prop_tagName (event_data this') (dom (the_page s)) = Some "IMG"))
      as [Himg|Himg].
    { now rewrite (hiDPILoaded_img _ _ Himg). }
    destruct (hiDPILoaded_container _ _ Himg) as (d1 & o & d2 & H1 & -> & H2 & _).
    cbn [dom]. apply (marked_touch _ _ _ _ _ H2 He').
    destruct (marked_touch _ _ _ _ _ H1 He' Hm) as (n & Hn & Hrest).
    exists n. split; [now apply prependTo_keeps|assumption].
  - destruct (decide (k' = k)) as [->|Hne].
    { now rewrite (deliver_dead k hiDPIError s this). }
    destruct (deliver_cases k' hiDPIError s) as [->|(this' & Hk' & ->)]; [assumption|].
    pose proof (Hother k' this' Hk' Hne) as He'.
    cbn [the_page settle dom].
    now apply (marked_touch _ _ _ _ _ (proj1 (hiDPIError_touch this' (the_page s)))).
  - cbv zeta. case_bool_decide as Ho; [|assumption]. cbn [the_page dom].
    destruct (hiDPIAnimationComplete_dom o (the_page s)) as (sel & -> & _).
    unfold remove. rewrite (remove_leaf o).
    + assert (Hne : e ≠ o).
      { intros ->. apply (rooted_apart _ Hr o Ho). unfold items.
        apply elem_of_app. now left. }
      destruct (marked_removeClass c e ["hidpi-animating"] sel _
                  ltac:(intros Hx; repeat (apply elem_of_cons in Hx as [?|Hx]);
                        [congruence|inversion Hx])
                  Hm) as (n & Hn & Hid & Hrest).
      exists n. split; [|auto]. apply list_elem_of_filter. split; [congruence|assumption].
    + intros g. apply list_elem_of_singleton.
    + intros n1 Hn1.
      destruct (touch_elem_r _ _ _ _ (touch_removeClass _ sel _) Hn1) as (n & Hn & Hsm & _).
      destruct Hsm as (_ & -> & _). now apply (rooted_leaf _ Hr).
Qed.

Lemma marked_run c e k s es :
  sound s → rooted s →
  (∃ this, loaders (the_page s) !! k = Some this ∧ src this = None
           ∧ event_data this = [e]) →
  c ≠ "hidpi-animating" →
  marked c e (dom (the_page s)) →
  let s' := HiDPI.run s es in
  sound s' ∧ rooted s'
  ∧ (∃ this, loaders (the_page s') !! k = Some this ∧ src this = None
             ∧ event_data this = [e])
  ∧ marked c e (dom (the_page s')).
Proof.
  revert s. induction es as [|ev es IH]; intros s Hs Hr Hk Hc Hm; cbv zeta.
  { unfold HiDPI.run. cbn [foldl]. auto. }
  destruct Hk as (this & Hk & Hsrc & He).
  change (HiDPI.run s (ev :: es)) with (HiDPI.run (HiDPI.step s ev) es).
  apply IH; [now apply sound_step|now apply rooted_step| |assumption|].
  - destruct (persists_step s ev k this Hk) as (l' & Hl' & Hd' & Hs' & _).
    exists l'. split; [assumption|]. split; congruence.
  - apply (marked_step c e k this); auto. rewrite He. apply list_elem_of_here.
Qed.

Lemma lookup_node_elem (d : document) n :
  NoDup (nid <$> d) → n ∈ d → lookup_node (nid n) d = Some n.
Proof.
  intros Hnd Hn. apply list_elem_of_split in Hn as (d1 & d2 & ->).
  apply lookup_node_split; [reflexivity|].
  now apply (NoDup_split_nids d1 n d2).
Qed.

Section unsourced.
Variable d : document.
Hypothesis distinct : NoDup (nid <$> d).
Hypothesis closed : ∀ n q, n ∈ d → parent n = Some q → q ∈ nid <$> d.

(** X11. An element that names no high-resolution image stays loading.  A
    ready element wide enough and in view, but with no [data-hidpi-src]
    attribute, is given [hidpi-loading] and an image loader with no source by
    the scan; whatever events follow, the element keeps [hidpi-loading], is
    never ready again, that loader delivers neither a load nor an error
    event, and no other loader is built for the element. *)
Theorem unsourced_element_stays_loading
    (es es' : list event) (win : window) (n : node) :
  let s := HiDPI.run (start d) es in
  n ∈ dom (the_page s) →
  nid n ∈ eligible (dom (the_page s)) →
  attrs n !! "data-hidpi-src" = None →
  in_view_at win (dom (the_page s)) (nid n) = true →
  let s2 := HiDPI.run (HiDPI.step s (Check win)) es' in
  marked "hidpi-loading" (nid n) (dom (the_page s2))
  ∧ (nid n ∉ select_class ready (dom (the_page s2)))
  ∧ ∃ k this,
      loaders (the_page s2) !! k = Some this
      ∧ event_data this = [nid n] ∧ src this = None
      ∧ HiDPI.step s2 (Load k) = s2
      ∧ HiDPI.step s2 (Error k) = s2
      ∧ ∀ k' this', loaders (the_page s2) !! k' = Some this' →
          nid n ∈ event_data this' → k' = k.
Proof.
  intros s Hn Hel Hattr Hv s2.
  assert (Hs : sound s) by (apply sound_run, sound_start, distinct).
  assert (Hr : rooted s).
  { apply rooted_run; [now apply sound_start|now apply rooted_start]. }
  set (s1 := HiDPI.step s (Check win)) in *.
  assert (Hs1 : sound s1) by now apply sound_step.
  assert (Hr1 : rooted s1) by now apply rooted_step.
  assert (Hp1 : the_page s1
                = (checkForHiDPIElements win (the_page s, zg s)).1).
  { unfold s1, HiDPI.step. now destruct (checkForHiDPIElements _ _). }
  rewrite (check_closed win _ _ (sound_nids _ Hs)) in Hp1. cbn [fst] in Hp1.
  assert (Hin : nid n ∈ filter (λ i, in_view_at win (dom (the_page s)) i = true)
                         (eligible (dom (the_page s)))).
  { now apply list_elem_of_filter. }
  apply list_elem_of_lookup in Hin as [j Hj].
  set (k := length (loaders (the_page s)) + j).
  assert (Hk : loaders (the_page s1) !! k = Some (scan_loader (dom (the_page s)) (nid n))).
  { rewrite Hp1. cbn [loaders]. unfold k.
    rewrite lookup_app_r by lia.
    replace (length (loaders (the_page s)) + j - length (loaders (the_page s))) with j by lia.
    now rewrite list_lookup_fmap, Hj. }
  assert (Hsrc : src (scan_loader (dom (the_page s)) (nid n)) = None).
  { unfold scan_loader. cbn [src]. unfold data, first_node.
    rewrite (lookup_node_elem _ n (sound_nids _ Hs) Hn). exact Hattr. }
  assert (Hm1 : marked "hidpi-loading" (nid n) (dom (the_page s1))).
  { exists (scan_element win (dom (the_page s)) n). rewrite Hp1. cbn [dom].
    split; [apply list_elem_of_fmap; eauto|].
    unfold scan_element. rewrite (bool_decide_eq_true_2 _ Hel), Hv.
    split; [reflexivity|]. apply hasClass_true. cbn [classes set_classes].
    unfold scan_classes, each_classes. apply add_class_elem. now right. }
  destruct (marked_run "hidpi-loading" (nid n) k s1 es' Hs1 Hr1) as (Hs2 & Hr2 & Hk2 & Hm2);
    [eauto|discriminate|assumption|].
  fold s2 in Hs2, Hr2, Hk2, Hm2.
  destruct Hk2 as (this & Hk2 & Hsrc2 & He2).
  assert (Hitem : nid n ∈ loader_items (the_page s2)).
  { apply (loader_items_elem _ k this); [assumption|]. rewrite He2. apply list_elem_of_here. }
  split; [assumption|]. split.
  { intros Hrd. apply (sound_ready _ Hs2 _ Hrd). apply elem_of_app. now left. }
  exists k, this. split; [assumption|]. split; [assumption|]. split; [assumption|].
  split; [apply (deliver_dead k on_load s2 this Hk2 Hsrc2)|].
  split; [apply (deliver_dead k hiDPIError s2 this Hk2 Hsrc2)|].
  intros k' this' Hk' Hi'.
  pose proof (sound_once _ Hs2) as Hnd. apply NoDup_app in Hnd as (Hnd & _ & _).
  apply (concat_NoDup_lookup (event_data <$> loaders (the_page s2)) k' k
           (event_data this') (event_data this) (nid n) Hnd);
    [now rewrite list_lookup_fmap, Hk'|now rewrite list_lookup_fmap, Hk2|assumption|].
  rewrite He2. apply list_elem_of_here.
Qed.

End unsourced.

Lemma on_classes_cons i l g (d : document) :
  i ∉ l →
  on_nodes l (set_classes g) (on_nodes [i] (set_classes g) d)
  = on_nodes (i :: l) (set_classes g) d.
Proof.
  intros Hi. unfold on_nodes. rewrite <- list_fmap_compose.
  apply list_fmap_ext. intros k n _. unfold compose.
  destruct (decide (nid n = i)) as [Heq|Hne].
  - rewrite (bool_decide_eq_true_2 (nid n ∈ [i]))
      by (rewrite Heq; apply list_elem_of_here).
    rewrite (bool_decide_eq_true_2 (nid n ∈ i :: l))
      by (rewrite Heq; apply list_elem_of_here).
    cbn [nid set_classes].
    now rewrite (bool_decide_eq_false_2 (nid n ∈ l)) by now rewrite Heq.
  - rewrite (bool_decide_eq_false_2 (nid n ∈ [i]))
      by (rewrite list_elem_of_singleton; assumption).
    destruct (decide (nid n ∈ l)) as [Hin|Hin].
    + rewrite !bool_decide_eq_true_2; auto. now apply list_elem_of_further.
    + rewrite !bool_decide_eq_false_2; auto. rewrite elem_of_cons. tauto.
Qed.

(** The loads [preloadHiDPIImage] starts for the elements [l], one after
    the other. *)
Lemma preloads_closed l p d0 :
  NoDup l → same_reads (dom p) d0 →
  foldl (λ p i, preloadHiDPIImage [i] p) p l
  = Page (on_nodes l (set_classes (each_classes true)) (dom p))
      (loaders p ++ (scan_loader d0 <$> l))
      (fading p) (console p) (uncaught p).
Proof.
  revert p. induction l as [|i l IH]; intros p Hnd Hsame.
  { simpl. rewrite app_nil_r, on_nodes_nil. now destruct p. }
  apply NoDup_cons in Hnd as [Hi Hnd]. cbn [foldl].
  assert (Hd1 : dom (preloadHiDPIImage [i] p)
                = on_nodes [i] (set_classes (each_classes true)) (dom p)).
  { unfold preloadHiDPIImage. cbn [dom with_dom]. apply preload_classes. }
  rewrite IH; [|assumption|].
  2:{ rewrite Hd1. eapply same_reads_trans; [apply same_reads_classes|exact Hsame]. }
  rewrite Hd1, (on_classes_cons i l _ _ Hi). f_equal.
  unfold preloadHiDPIImage. cbn [dom loaders with_dom].
  rewrite fmap_cons, <- app_assoc. simpl. do 2 f_equal.
  unfold scan_loader. f_equal.
  destruct (same_reads_measure _ _ i Hsame) as (_ & _ & <-).
  unfold addClass, removeClass.
  eapply eq_trans; [apply same_reads_measure, same_reads_classes|].
  apply same_reads_measure, same_reads_classes.
Qed.

Lemma invoke_preloads (ws : list (ZG_Waypoints.waypoint fn jquery)) p :
  Forall deferred ws →
  foldl (ZG_Waypoints.invoke apply) p ws
  = foldl (λ p i, preloadHiDPIImage [i] p) p (items_of ws).
Proof.
  revert p. induction ws as [|w ws IH]; intros p Hd; [reflexivity|].
  apply Forall_cons in Hd as [(_ & Hcb & i & Hargs) Hd].
  cbn [foldl]. rewrite IH by assumption.
  unfold items_of. rewrite fmap_cons, Hargs. simpl.
  unfold ZG_Waypoints.invoke. now rewrite Hcb, Hargs.
Qed.

Lemma filter_ext_elem {B} (P Q : B → Prop) `{!∀ x, Decision (P x)}
    `{!∀ x, Decision (Q x)} (l : list B) :
  (∀ x, x ∈ l → P x ↔ Q x) → filter P l = filter Q l.
Proof.
  induction l as [|x l IH]; intros Hall; [reflexivity|].
  rewrite !filter_cons.
  rewrite IH by (intros y Hy; apply Hall; now apply list_elem_of_further).
  pose proof (Hall x (list_elem_of_here _ _)) as Hx.
  destruct (decide (P x)), (decide (Q x)); tauto || reflexivity.
Qed.

Lemma subscribed_scan d0 (z : scheduler) l :
  subscribed z → subscribed (foldl (scan_waypoint d0) z l).
Proof.
  revert z. induction l as [|i l IH]; intros z Hz; [assumption|].
  cbn [foldl]. apply IH. unfold subscribed, scan_waypoint. simpl. lia.
Qed.

Lemma subscribed_step s e :
  sound s → subscribed (zg s) → subscribed (zg (HiDPI.step s e)).
Proof.
  intros Hs Hz. destruct e as [win|win|k|k|o]; unfold HiDPI.step.
  - rewrite (check_closed win _ _ (sound_nids _ Hs)). cbn [zg].
    now apply subscribed_scan.
  - pose proof (subscribed_dispatch apply win (ZG_Waypoints.scroll_handlers (zg s))
                  (zg s) (the_page s) Hz) as H.
    unfold ZG_Waypoints.scroll.
    now destruct (ZG_Waypoints.dispatch apply win _ (zg s) (the_page s)) as [[z' p'] f].
  - unfold deliver. destruct (loaders (the_page s) !! k); [|assumption].
    now destruct (_ || _).
  - unfold deliver. destruct (loaders (the_page s) !! k); [|assumption].
    now destruct (_ || _).
  - cbv zeta. now case_bool_decide.
Qed.


Lemma scroll_closed win s :
  sound s → subscribed (zg s) →
  let due := items_of (reverse (filter (λ w, ZG_Waypoints.in_view win w = true)
                                  (ZG_Waypoints.waypoints (zg s)))) in
  the_page (HiDPI.step s (HiDPI.Scroll win))
  = Page (on_nodes due (set_classes (each_classes true)) (dom (the_page s)))
      (loaders (the_page s) ++ (scan_loader (dom (the_page s)) <$> due))
      (fading (the_page s)) (console (the_page s)) (uncaught (the_page s))
  ∧ ZG_Waypoints.waypoints (zg (HiDPI.step s (HiDPI.Scroll win)))
    = filter (λ w, ZG_Waypoints.in_view win w = false) (ZG_Waypoints.waypoints (zg s))
  ∧ NoDup due.
Proof.
  intros Hs Hz due.
  pose proof (sound_deferred _ Hs) as Hdef.
  assert (Hone : Forall (λ w, ZG_Waypoints.oneShot w = true) (ZG_Waypoints.waypoints (zg s))).
  { eapply Forall_impl; [exact Hdef|]. now intros w (H & _). }
  assert (Hnd : NoDup due).
  { pose proof (sound_once _ Hs) as Hnd. apply NoDup_app in Hnd as (_ & _ & Hnd).
    unfold waypoint_items in Hnd. fold (items_of (ZG_Waypoints.waypoints (zg s))) in Hnd.
    rewrite <- (deferred_split win _ Hdef) in Hnd.
    now apply NoDup_app in Hnd as (Hnd & _). }
  unfold HiDPI.step, ZG_Waypoints.scroll.
  destruct (ZG_Waypoints.scroll_handlers (zg s)) as [|h] eqn:Hh.
  - assert (Hw : ZG_Waypoints.waypoints (zg s) = []).
    { destruct (ZG_Waypoints.waypoints (zg s)) eqn:E; [reflexivity|].
      unfold subscribed in Hz. rewrite E, Hh in Hz.
      assert (0 < 0) by now apply Hz. lia. }
    cbn [ZG_Waypoints.dispatch the_page zg]. unfold due. rewrite Hw. simpl.
    rewrite on_nodes_nil, app_nil_r. split; [now destruct (the_page s)|].
    split; [reflexivity|constructor].
  - rewrite (dispatch_one_shot apply win h (zg s) (the_page s) Hone).
    rewrite update_unfold. cbn [the_page zg ZG_Waypoints.waypoints].
    split; [|split; [|assumption]].
    + rewrite (invoke_preloads _ _ (fired_deferred win _ Hdef)). fold due.
      apply preloads_closed; [assumption|apply same_reads_refl].
    + apply filter_ext_elem. intros w Hw. rewrite Forall_forall in Hone.
      unfold ZG_Waypoints.stays. rewrite (Hone w Hw), andb_true_r.
      now destruct (ZG_Waypoints.in_view win w).
Qed.

Lemma subscribed_empty {F A} : subscribed (@ZG_Waypoints.empty F A).
Proof. intros H. now contradict H. Qed.



Section reachable.
Variable d : document.
Hypothesis distinct : NoDup (nid <$> d).



End reachable.

(** ** The lifecycle classes *)

Lemma lifecycle_remove_other c cs :
  c ∉ lifecycle →
  filter (λ c, c ∈ lifecycle) (remove_class c cs) = filter (λ c, c ∈ lifecycle) cs.
Proof.
  intros Hc. unfold remove_class. rewrite list_filter_filter.
  apply filter_ext_elem. intros x _. split; [tauto|].
  intros Hx. split; [assumption|]. intros ->. contradiction.
Qed.

Ltac not_lifecycle :=
  unfold lifecycle; let H := fresh in
  intros H; repeat (apply elem_of_cons in H as [H|H]; [discriminate H|]);
  now apply elem_of_nil in H.

Lemma live_items_loader p i :
  i ∈ live_items p → i ∈ loader_items p.
Proof.
  unfold live_items, loader_items. rewrite !concat_elem.
  intros (l & Hl & Hi). exists l. split; [|assumption].
  apply list_elem_of_fmap in Hl as (x & -> & Hx).
  apply list_elem_of_filter in Hx as [_ Hx].
  apply list_elem_of_fmap. eauto.
Qed.

Lemma live_items_app p ls :
  live_items (Page (dom p) (loaders p ++ ls) (fading p) (console p) (uncaught p))
  = live_items p ++ concat (event_data <$> filter (λ l, settled l = false) ls).
Proof. unfold live_items. cbn [loaders]. now rewrite filter_app, fmap_app, concat_app. Qed.

Lemma scan_loaders_items d0 (l : list nat) :
  concat (event_data <$> (scan_loader d0 <$> l)) = l.
Proof.
  induction l as [|i l IH]; [reflexivity|].
  rewrite !fmap_cons. cbn [concat event_data scan_loader app]. now rewrite IH.
Qed.

Lemma scan_loaders_live d0 (l : list nat) :
  filter (λ x, settled x = false) (scan_loader d0 <$> l) = scan_loader d0 <$> l.
Proof.
  apply filter_all. intros x Hx. apply list_elem_of_fmap in Hx as (i & -> & _). reflexivity.
Qed.

Lemma scan_waypoints_items d0 (z : scheduler) l :
  waypoint_items (foldl (scan_waypoint d0) z l) = waypoint_items z ++ l.
Proof.
  revert z. induction l as [|i l IH]; intros z; [now rewrite app_nil_r|].
  cbn [foldl]. rewrite IH. unfold scan_waypoint. rewrite waypoint_items_add.
  simpl. now rewrite <- app_assoc.
Qed.

Lemma lifecycle_ready n :
  hasClass ready n = true →
  lifecycle_of n ∈ [[]; ["hidpi-ready"]] →
  lifecycle_of n = ["hidpi-ready"].
Proof.
  intros Hr Hl. apply elem_of_cons in Hl as [Hl|Hl].
  - exfalso. apply hasClass_true in Hr.
    assert (Hin : ready ∈ lifecycle_of n).
    { unfold lifecycle_of. apply list_elem_of_filter. split; [|assumption].
      lifecycle_member. }
    rewrite Hl in Hin. now apply elem_of_nil in Hin.
  - now apply list_elem_of_singleton in Hl.
Qed.

Lemma staged_check win s :
  sound s → staged s → staged (HiDPI.step s (Check win)).
Proof.
  intros Hs [Ht Hone]. unfold HiDPI.step.
  rewrite (check_closed win _ _ (sound_nids _ Hs)).
  set (d0 := dom (the_page s)).
  set (el := eligible d0).
  set (ins := filter (λ i, in_view_at win d0 i = true) el).
  set (outs := filter (λ i, in_view_at win d0 i ≠ true) el).
  assert (Hwp : ∀ z, waypoint_items (foldl (scan_waypoint d0) z outs)
                     = waypoint_items z ++ outs)
    by (intros z; apply scan_waypoints_items).
  split.
  2:{ cbn [the_page loaders]. intros l Hl. apply elem_of_app in Hl as [Hl|Hl]; [auto|].
      apply list_elem_of_fmap in Hl as (i & -> & _). now exists i. }
  cbn [the_page dom]. intros n' Hn'.
  apply list_elem_of_fmap in Hn' as (n & -> & Hn).
  destruct (Ht n Hn) as (T1 & T2 & T3 & T4).
  assert (Hin_el : ∀ i, i ∈ el → i ∉ items s).
  { intros i Hi. apply (sound_ready _ Hs). now apply eligible_ready. }
  assert (Hsplit : ∀ i, i ∈ el ↔ i ∈ ins ∨ i ∈ outs).
  { intros i. unfold ins, outs. rewrite !list_elem_of_filter.
    destruct (in_view_at win d0 i) eqn:Hv.
    - split; [intros; left; split; auto|tauto].
    - split; [intros; right; split; auto; discriminate|tauto]. }
  unfold tracked, items. cbn [the_page zg].
  rewrite Hwp. unfold live_items, loader_items. cbn [loaders].
  rewrite filter_app, !fmap_app, !concat_app, scan_loaders_live, !scan_loaders_items.
  fold (loader_items (the_page s)). fold (live_items (the_page s)).
  unfold scan_element. fold el.
  destruct (decide (nid n ∈ el)) as [Hel|Hel].
  - rewrite (bool_decide_eq_true_2 _ Hel). cbn [nid set_classes].
    pose proof (Hin_el _ Hel) as Hni. unfold items in Hni.
    rewrite elem_of_app in Hni.
    assert (Hlc : lifecycle_of n = ["hidpi-ready"]).
    { apply lifecycle_ready; [|apply T4; unfold items; rewrite elem_of_app; tauto].
      apply eligible_elem in Hel as (n0 & Hn0 & Hid & Hr & _).
      now rewrite <- (nid_inj_on d0 n0 n (sound_nids _ Hs) Hn0 Hn Hid). }
    assert (Hlc' : lifecycle_of (set_classes (scan_classes (in_view_at win d0 (nid n))) n)
                   = [if in_view_at win d0 (nid n) then "hidpi-loading"
                      else "hidpi-pending"]).
    { unfold lifecycle_of in *. cbn [classes set_classes]. unfold scan_classes.
      rewrite lifecycle_each_classes, lifecycle_remove_class, Hlc.
      now destruct (in_view_at win d0 (nid n)). }
    rewrite Hlc'.
    assert (Hlive : nid n ∉ live_items (the_page s)).
    { intros H. apply live_items_loader in H. tauto. }
    rewrite !elem_of_app. unfold ins, outs. rewrite !list_elem_of_filter.
    destruct (in_view_at win d0 (nid n)); repeat split.
    + intros [?|[? _]]; [tauto|congruence].
    + intros _. apply list_elem_of_here.
    + intros H. exfalso. apply H. left. right. tauto.
    + intros [?|[? _]]; [tauto|discriminate].
    + intros [?|[? _]]; [tauto|discriminate].
    + intros H. exfalso. apply H. right. right. split; [discriminate|assumption].
  - rewrite (bool_decide_eq_false_2 _ Hel).
    rewrite !elem_of_app.
    assert (Hni : nid n ∉ ins) by (intros Hx; apply Hel, Hsplit; tauto).
    assert (Hno : nid n ∉ outs) by (intros Hx; apply Hel, Hsplit; tauto).
    repeat split.
    + intros [?|?]; [auto|contradiction].
    + intros [?|?]; [auto|contradiction].
    + intros [?|?]; [auto|contradiction].
    + intros H1. apply T4. unfold items. rewrite elem_of_app. tauto.
Qed.

Lemma staged_scroll win s :
  sound s → subscribed (zg s) → staged s → staged (HiDPI.step s (HiDPI.Scroll win)).
Proof.
  intros Hs Hz [Ht Hone].
  destruct (scroll_closed win s Hs Hz) as (Hp & Hw & Hnd).
  set (s' := HiDPI.step s (HiDPI.Scroll win)) in *.
  set (ws := ZG_Waypoints.waypoints (zg s)) in *.
  set (due := items_of (reverse (filter (λ w, ZG_Waypoints.in_view win w = true) ws))) in *.
  set (kept := items_of (filter (λ w, ZG_Waypoints.in_view win w = false) ws)).
  pose proof (sound_deferred _ Hs) as Hdef. fold ws in Hdef.
  assert (Hkept : waypoint_items (zg s') = kept).
  { unfold waypoint_items. rewrite Hw. reflexivity. }
  assert (Hperm : due ++ kept ≡ₚ waypoint_items (zg s)).
  { change (waypoint_items (zg s)) with (items_of ws).
    unfold due, kept. rewrite <- (deferred_split win ws Hdef).
    apply Permutation_app_head. unfold items_of.
    rewrite (filter_ext_elem (λ w, ZG_Waypoints.in_view win w = false)
               (λ w, ZG_Waypoints.stays win w = true) ws); [reflexivity|].
    intros w Hin. rewrite Forall_forall in Hdef. destruct (Hdef w Hin) as (Ho & _).
    unfold ZG_Waypoints.stays. rewrite Ho, andb_true_r.
    now destruct (ZG_Waypoints.in_view win w). }
  assert (Hwp : ∀ i, i ∈ waypoint_items (zg s) ↔ i ∈ due ∨ i ∈ kept).
  { intros i. now rewrite <- Hperm, elem_of_app. }
  assert (Hdis : ∀ i, i ∈ due → i ∉ kept).
  { pose proof (sound_once _ Hs) as Hn. apply NoDup_app in Hn as (_ & _ & Hn).
    rewrite <- Hperm in Hn. apply NoDup_app in Hn as (_ & Hn & _). exact Hn. }
  split.
  2:{ rewrite Hp. cbn [loaders]. intros l Hl.
      apply elem_of_app in Hl as [Hl|Hl]; [auto|].
      apply list_elem_of_fmap in Hl as (i & -> & _). now exists i. }
  rewrite Hp. cbn [dom]. intros n' Hn'.
  apply on_nodes_elem in Hn' as (n & Hn & ->).
  destruct (Ht n Hn) as (T1 & T2 & T3 & T4).
  unfold tracked, items. rewrite Hkept, Hp.
  unfold live_items, loader_items. cbn [loaders].
  rewrite filter_app, !fmap_app, !concat_app, scan_loaders_live, !scan_loaders_items.
  fold (loader_items (the_page s)). fold (live_items (the_page s)).
  destruct (decide (nid n ∈ due)) as [Hdue|Hdue].
  - rewrite (bool_decide_eq_true_2 _ Hdue). cbn [nid set_classes].
    assert (Hlc : lifecycle_of (set_classes (each_classes true) n) = ["hidpi-loading"]).
    { unfold lifecycle_of. cbn [classes set_classes].
      rewrite lifecycle_each_classes.
      unfold lifecycle_of in T1. rewrite T1; [reflexivity|]. apply Hwp. now left. }
    rewrite Hlc, !elem_of_app. repeat split.
    + intros Hk. exfalso. now apply (Hdis _ Hdue).
    + intros _. apply list_elem_of_here.
    + intros Hni. exfalso. apply Hni. left. now right.
  - rewrite (bool_decide_eq_false_2 _ Hdue), !elem_of_app. repeat split.
    + intros Hk. apply T1, Hwp. now right.
    + intros [?|?]; [auto|contradiction].
    + intros [?|?]; [auto|contradiction].
    + intros Hni. apply T4. unfold items. rewrite elem_of_app, Hwp. tauto.
Qed.

Lemma deliver_cases_live k handler s :
  deliver k handler s = s
  ∨ ∃ this, loaders (the_page s) !! k = Some this
            ∧ settled this = false ∧ is_Some (src this)
            ∧ deliver k handler s
              = System (settle k (handler this (the_page s))) (zg s).
Proof.
  unfold deliver. destruct (loaders (the_page s) !! k) as [this|]; [|now left].
  destruct (settled this) eqn:Hs; [now left|].
  destruct (decide (is_Some (src this))) as [Hsrc|Hsrc].
  - right. exists this. rewrite (bool_decide_eq_true_2 _ Hsrc). auto.
  - left. now rewrite (bool_decide_eq_false_2 _ Hsrc).
Qed.

Lemma live_items_elem p i :
  i ∈ live_items p ↔
  ∃ k l, loaders p !! k = Some l ∧ settled l = false ∧ i ∈ event_data l.
Proof.
  unfold live_items. rewrite concat_elem. split.
  - intros (x & Hx & Hi). apply list_elem_of_fmap in Hx as (l & -> & Hl).
    apply list_elem_of_filter in Hl as [Hs Hl].
    apply list_elem_of_lookup in Hl as [k Hk]. eauto.
  - intros (k & l & Hk & Hs & Hi). exists (event_data l). split; [|assumption].
    apply list_elem_of_fmap. exists l. split; [reflexivity|].
    apply list_elem_of_filter. split; [assumption|].
    apply list_elem_of_lookup. eauto.
Qed.

(** Once loader [k] is settled, its element is owed no event. *)
Lemma live_items_settle k this p1 p i :
  loaders p1 = loaders p →
  NoDup (loader_items p) →
  loaders p !! k = Some this →
  i ∈ live_items (settle k p1) →
  i ∈ live_items p ∧ i ∉ event_data this.
Proof.
  intros HL Hnd Hk. rewrite !live_items_elem. unfold settle. cbn [loaders]. rewrite HL.
  intros (j & l & Hj & Hs & Hi).
  destruct (decide (j = k)) as [->|Hne].
  { rewrite list_lookup_alter_eq, Hk in Hj. simpl in Hj. injection Hj as <-. discriminate. }
  rewrite list_lookup_alter_ne in Hj by congruence.
  split; [eauto|]. intros Hi'. apply Hne.
  apply (concat_NoDup_lookup (event_data <$> loaders p) j k (event_data l)
           (event_data this) i Hnd);
    [now rewrite list_lookup_fmap, Hj|now rewrite list_lookup_fmap, Hk| |]; assumption.
Qed.

Lemma settle_singletons k p1 p :
  loaders p1 = loaders p →
  (∀ l, l ∈ loaders p → ∃ i, event_data l = [i]) →
  ∀ l, l ∈ loaders (settle k p1) → ∃ i, event_data l = [i].
Proof.
  intros HL Hone l Hl. unfold settle in Hl. cbn [loaders] in Hl. rewrite HL in Hl.
  apply list_elem_of_lookup in Hl as [j Hj].
  destruct (decide (j = k)) as [->|Hne].
  - rewrite list_lookup_alter_eq in Hj.
    destruct (loaders p !! k) as [l0|] eqn:Hk; [|discriminate].
    simpl in Hj. injection Hj as <-. cbn [event_data].
    apply Hone. apply list_elem_of_lookup. eauto.
  - rewrite list_lookup_alter_ne in Hj by congruence.
    apply Hone. apply list_elem_of_lookup. eauto.
Qed.

(** An element that keeps its lifecycle classes, on a page that tracks no
    more than before. *)
Lemma tracked_keep s s' n n' :
  nid n' = nid n → lifecycle_of n' = lifecycle_of n →
  waypoint_items (zg s') = waypoint_items (zg s) →
  loader_items (the_page s') = loader_items (the_page s) →
  (∀ i, i ∈ live_items (the_page s') → i ∈ live_items (the_page s)) →
  tracked s n → tracked s' n'.
Proof.
  intros Hid Hlc Hw HL Hlive (T1 & T2 & T3 & T4).
  unfold tracked, items. rewrite Hid, Hlc, Hw, HL. repeat split; auto.
Qed.

Lemma lifecycle_overlay o n : lifecycle_of (overlay_of o n) = [].
Proof. reflexivity. Qed.

Lemma staged_load k s :
  sound s → rooted s → staged s → staged (deliver k on_load s).
Proof.
  intros Hs Hr [Ht Hone].
  destruct (deliver_cases_live k on_load s) as [->|(this & Hk & Hset & Hsrc & ->)];
    [now split|].
  set (p := the_page s) in *.
  pose proof (sound_once _ Hs) as Hnd. fold p in Hnd.
  apply NoDup_app in Hnd as (HndL & Hdis & _).
  destruct (Hone this) as [i Hi]; [apply list_elem_of_lookup; eauto|].
  assert (HiL : i ∈ loader_items p).
  { apply (loader_items_elem p k this); [assumption|]. rewrite Hi. apply list_elem_of_here. }
  assert (Hlive : i ∈ live_items p).
  { apply live_items_elem. exists k, this. rewrite Hi. repeat split; auto.
    apply list_elem_of_here. }
  assert (HL1 : loaders (on_load this p) = loaders p) by apply on_load_tame.
  split; [|now apply (settle_singletons k _ p)].
  assert (Hkeep : ∀ n, n ∈ dom p → nid n ≠ i →
            tracked (System (settle k (on_load this p)) (zg s)) n).
  { intros n Hn Hne. apply (tracked_keep s _ n n); auto.
    - cbn [the_page]. rewrite settle_items. unfold loader_items. now rewrite HL1.
    - intros j Hj. now apply (live_items_settle k this _ p j HL1 HndL Hk). }
  cbn [the_page settle dom].
  destruct (decide (prop_tagName (event_data this) (dom p) = Some "IMG")) as [Himg|Himg].
  { unfold on_load. rewrite (hiDPILoaded_img this p Himg). cbn [dom].
    intros n Hn. apply (tracked_keep s _ n n); auto.
    - cbn [the_page]. rewrite settle_items. reflexivity.
    - intros j Hj.
      now apply (live_items_settle k this _ p j eq_refl HndL Hk). }
  assert (Hin : i ∈ nid <$> dom p).
  { apply (rooted_items _ Hr). unfold items. apply elem_of_app. now left. }
  apply list_elem_of_fmap in Hin as (n & -> & Hn).
  pose proof (sound_nids _ Hs) as Hnids. fold p in Hnids.
  assert (Htag : tagName n ≠ "IMG").
  { intros E. apply Himg. rewrite Hi. unfold prop_tagName, first_node.
    rewrite (lookup_node_elem (dom p) n Hnids Hn). simpl. now rewrite E. }
  apply list_elem_of_split in Hn as (d1 & d2 & Hd).
  assert (Hn : n ∈ dom p) by (rewrite Hd, elem_of_app, elem_of_cons; auto).
  pose proof (on_load_container this p d1 n d2 Hd Hi Hnids Htag) as Hload.
  assert (Hdom : dom (on_load this p)
                 = d1 ++ loaded_container this n :: overlay_of (fresh (dom p)) n :: d2)
    by now rewrite Hload.
  rewrite Hdom.
  rewrite Hd in Hnids. destruct (NoDup_split_nids _ _ _ Hnids) as [Hn1 Hn2].
  intros n' Hn'. rewrite elem_of_app, !elem_of_cons in Hn'.
  destruct Hn' as [Hn'|[->|[->|Hn']]].
  - apply Hkeep.
    + rewrite Hd, elem_of_app. now left.
    + intros E. apply Hn1. rewrite <- E. apply list_elem_of_fmap. eauto.
  - destruct (Ht n Hn) as (T1 & T2 & T3 & T4).
    unfold tracked, items. cbn [the_page zg nid loaded_container].
    rewrite settle_items.
    replace (loader_items (on_load this p)) with (loader_items p)
      by (unfold loader_items; now rewrite HL1).
    rewrite lifecycle_loaded_container by (now apply T2).
    repeat split.
    + intros Hw. exfalso. now apply (Hdis (nid n)).
    + intros Hj. exfalso.
      destruct (live_items_settle k this _ p _ HL1 HndL Hk Hj) as [_ Hni].
      apply Hni. rewrite Hi. apply list_elem_of_here.
    + intros _. apply list_elem_of_further, list_elem_of_here.
    + intros Hni. exfalso. apply Hni. apply elem_of_app. now left.
  - assert (Hnew : fresh (dom p) ∉ items s).
    { intros Hit. apply (fresh_new (dom p)). now apply (rooted_items _ Hr). }
    unfold items in Hnew. rewrite elem_of_app in Hnew.
    unfold tracked, items. cbn [the_page zg nid overlay_of].
    rewrite settle_items.
    replace (loader_items (on_load this p)) with (loader_items p)
      by (unfold loader_items; now rewrite HL1).
    change (lifecycle_of _) with (@nil string). repeat split.
    + intros Hw. tauto.
    + intros Hj.
      destruct (live_items_settle k this _ p _ HL1 HndL Hk Hj) as [Hj' _].
      apply live_items_loader in Hj'. tauto.
    + intros HjL. tauto.
    + intros _. apply list_elem_of_here.
  - apply Hkeep.
    + rewrite Hd, elem_of_app, elem_of_cons. auto.
    + intros E. apply Hn2. rewrite <- E. apply list_elem_of_fmap. eauto.
Qed.

Lemma hiDPIError_dom this p :
  dom (hiDPIError this p)
  = on_nodes (event_data this)
      (set_classes (λ cs, add_class "hidpi-error" (remove_class "hidpi-processing" cs)))
      (dom p).
Proof.
  unfold hiDPIError. cbn [dom with_dom].
  unfold addClass, removeClass, on_nodes. rewrite <- list_fmap_compose.
  apply list_fmap_ext. intros k n _. unfold compose.
  destruct (bool_decide (nid n ∈ event_data this)) eqn:Hn; [|now rewrite Hn].
  cbn [nid set_classes]. now rewrite Hn.
Qed.

Lemma staged_error k s :
  sound s → staged s → staged (deliver k hiDPIError s).
Proof.
  intros Hs [Ht Hone].
  destruct (deliver_cases_live k hiDPIError s) as [->|(this & Hk & Hset & Hsrc & ->)];
    [now split|].
  set (p := the_page s) in *.
  pose proof (sound_once _ Hs) as Hnd. fold p in Hnd.
  apply NoDup_app in Hnd as (HndL & Hdis & _).
  destruct (Hone this) as [i Hi]; [apply list_elem_of_lookup; eauto|].
  assert (HiL : i ∈ loader_items p).
  { apply (loader_items_elem p k this); [assumption|]. rewrite Hi. apply list_elem_of_here. }
  assert (Hlive : i ∈ live_items p).
  { apply live_items_elem. exists k, this. rewrite Hi. repeat split; auto.
    apply list_elem_of_here. }
  assert (HL1 : loaders (hiDPIError this p) = loaders p) by apply hiDPIError_touch.
  split; [|now apply (settle_singletons k _ p)].
  cbn [the_page settle dom]. rewrite hiDPIError_dom, Hi.
  intros n' Hn'. apply on_nodes_elem in Hn' as (n & Hn & ->).
  destruct (Ht n Hn) as (T1 & T2 & T3 & T4).
  destruct (decide (nid n = i)) as [Hid|Hne].
  - rewrite bool_decide_eq_true_2 by (rewrite Hid; apply list_elem_of_here).
    unfold tracked, items. cbn [the_page zg nid set_classes].
    rewrite settle_items.
    replace (loader_items (hiDPIError this p)) with (loader_items p)
      by (unfold loader_items; now rewrite HL1).
    assert (Hlc : lifecycle_of
                    (set_classes (λ cs, add_class "hidpi-error"
                                          (remove_class "hidpi-processing" cs)) n)
                  = ["hidpi-loading"; "hidpi-error"]).
    { unfold lifecycle_of in *. cbn [classes set_classes].
      rewrite lifecycle_add_class by lifecycle_member.
      rewrite lifecycle_remove_other by not_lifecycle.
      rewrite T2 by now rewrite Hid. reflexivity. }
    rewrite Hlc, Hid. repeat split.
    + intros Hw. exfalso. now apply (Hdis i).
    + intros Hj. exfalso.
      destruct (live_items_settle k this _ p _ HL1 HndL Hk Hj) as [_ Hni].
      apply Hni. rewrite Hi. apply list_elem_of_here.
    + intros _. do 2 apply list_elem_of_further. apply list_elem_of_here.
    + intros Hni. exfalso. apply Hni. apply elem_of_app. now left.
  - rewrite bool_decide_eq_false_2 by (rewrite list_elem_of_singleton; assumption).
    apply (tracked_keep s _ n n); auto.
    + cbn [the_page]. rewrite settle_items. unfold loader_items. now rewrite HL1.
    + intros j Hj. now apply (live_items_settle k this _ p j HL1 HndL Hk).
Qed.

Lemma staged_fade o s :
  staged s → staged (HiDPI.step s (FadeComplete o)).
Proof.
  intros [Ht Hone]. unfold HiDPI.step. cbv zeta.
  case_bool_decide as Ho; [|now split].
  destruct (hiDPIAnimationComplete_dom o (the_page s)) as (sel & Hd & _).
  destruct (hiDPIAnimationComplete_tame o (the_page s)) as [_ HL].
  split; cbn [the_page dom loaders]; [|now rewrite HL].
  rewrite Hd. intros n' Hn'.
  assert (Hin : n' ∈ removeClass ["hidpi-animating"] sel (dom (the_page s))).
  { eapply elem_of_sublist; [exact Hn'|]. apply remove_from_sublist. }
  apply on_nodes_elem in Hin as (n & Hn & ->).
  apply (tracked_keep s _ n); auto.
  - now case_bool_decide.
  - case_bool_decide; [|reflexivity]. unfold lifecycle_of. cbn [classes set_classes foldl].
    apply lifecycle_remove_other. not_lifecycle.
  - cbn [the_page]. unfold loader_items. cbn [loaders]. now rewrite HL.
  - cbn [the_page]. unfold live_items. cbn [loaders]. now rewrite HL.
Qed.

Lemma staged_step s e :
  sound s → rooted s → subscribed (zg s) → staged s → staged (HiDPI.step s e).
Proof.
  intros Hs Hr Hz Ht. destruct e as [win|win|k|k|o].
  - now apply staged_check.
  - now apply staged_scroll.
  - now apply staged_load.
  - now apply staged_error.
  - now apply staged_fade.
Qed.

Lemma staged_run s es :
  sound s → rooted s → subscribed (zg s) → staged s → staged (HiDPI.run s es).
Proof.
  revert s. induction es as [|e es IH]; intros s Hs Hr Hz Ht; [assumption|].
  change (HiDPI.run s (e :: es)) with (HiDPI.run (HiDPI.step s e) es).
  apply IH; [now apply sound_step|now apply rooted_step|now apply subscribed_step
            |now apply staged_step].
Qed.

Lemma staged_states s n :
  staged s → n ∈ dom (the_page s) →
  lifecycle_of n ∈ [[]; ["hidpi-ready"]; ["hidpi-pending"]; ["hidpi-loading"];
                    ["hidpi-loaded"]; ["hidpi-loading"; "hidpi-error"]].
Proof.
  intros [Ht _] Hn. destruct (Ht n Hn) as (T1 & T2 & T3 & T4).
  destruct (decide (nid n ∈ waypoint_items (zg s))) as [Hw|Hw].
  { rewrite (T1 Hw). do 2 apply list_elem_of_further. apply list_elem_of_here. }
  destruct (decide (nid n ∈ loader_items (the_page s))) as [Hl|Hl].
  { specialize (T3 Hl). do 3 apply list_elem_of_further. exact T3. }
  assert (Hni : nid n ∉ items s) by (unfold items; rewrite elem_of_app; tauto).
  specialize (T4 Hni). apply elem_of_cons in T4 as [->|T4]; [apply list_elem_of_here|].
  apply list_elem_of_further. apply list_elem_of_singleton in T4. rewrite T4.
  apply list_elem_of_here.
Qed.

Lemma staged_start (d : document) :
  (∀ n, n ∈ d → lifecycle_of n ∈ [[]; ["hidpi-ready"]]) → staged (start d).
Proof.
  intros Hd. split; [|intros l Hl; now apply elem_of_nil in Hl].
  intros m Hm. unfold tracked. cbn [start the_page zg].
  repeat split; try (intros H; now apply elem_of_nil in H).
  intros _. now apply Hd.
Qed.

Section lifecycle.
Variable d : document.
Hypothesis distinct : NoDup (nid <$> d).
Hypothesis closed : ∀ n q, n ∈ d → parent n = Some q → q ∈ nid <$> d.
Hypothesis unprocessed : ∀ n, n ∈ d → lifecycle_of n ∈ [[]; ["hidpi-ready"]].

(** X14. The lifecycle classes of an element say what the controller holds
    for it, on any page reached from a well-formed document whose elements
    carry no lifecycle class but [hidpi-ready]: an element has a waypoint
    exactly when its lifecycle classes are [hidpi-pending] alone; it has an
    image loader exactly when they are [hidpi-loading] alone, [hidpi-loaded]
    alone, or [hidpi-loading] with [hidpi-error] (a failed fetch keeps its
    loading class); while its loader has delivered no event they are
    [hidpi-loading] alone; and it has neither exactly when it has no
    lifecycle class or [hidpi-ready] alone. *)
Theorem lifecycle_follows_tracking (es : list event) (n : node) :
  let s := HiDPI.run (start d) es in
  n ∈ dom (the_page s) →
  (nid n ∈ waypoint_items (zg s) ↔ lifecycle_of n = ["hidpi-pending"])
  ∧ (nid n ∈ live_items (the_page s) → lifecycle_of n = ["hidpi-loading"])
  ∧ (nid n ∈ loader_items (the_page s) ↔
       lifecycle_of n ∈ [["hidpi-loading"]; ["hidpi-loaded"];
                         ["hidpi-loading"; "hidpi-error"]])
  ∧ (nid n ∉ items s ↔ lifecycle_of n ∈ [[]; ["hidpi-ready"]]).
Proof.
  intros s Hn.
  assert (Hst : staged s).
  { apply staged_run;
      [now apply sound_start|now apply rooted_start|apply subscribed_empty
      |now apply staged_start]. }
  destruct Hst as [Ht _]. destruct (Ht n Hn) as (T1 & T2 & T3 & T4).
  assert (Hcases : nid n ∈ waypoint_items (zg s) ∨ nid n ∈ loader_items (the_page s)
                   ∨ nid n ∉ items s).
  { destruct (decide (nid n ∈ waypoint_items (zg s))) as [Hw|Hw]; [now left|].
    destruct (decide (nid n ∈ loader_items (the_page s))) as [Hl|Hl]; [now auto|].
    right. right. unfold items. rewrite elem_of_app. tauto. }
  assert (Hpend : (["hidpi-pending"] ∉ [["hidpi-loading"]; ["hidpi-loaded"];
                                          ["hidpi-loading"; "hidpi-error"]])
                  ∧ (["hidpi-pending"] ∉ [[]; ["hidpi-ready"]])).
  { split; intros H; repeat (apply elem_of_cons in H as [H|H]; [discriminate H|]);
      now apply elem_of_nil in H. }
  assert (Hload : ∀ l : list string,
            l ∈ [["hidpi-loading"]; ["hidpi-loaded"]; ["hidpi-loading"; "hidpi-error"]] →
            (l ∉ [[]; ["hidpi-ready"]]) ∧ l ≠ ["hidpi-pending"]).
  { intros l H. repeat (apply elem_of_cons in H as [->|H]);
      try (now apply elem_of_nil in H);
      (split; [|discriminate]); intros H';
      repeat (apply elem_of_cons in H' as [H'|H']; [discriminate H'|]);
      now apply elem_of_nil in H'. }
  split; [|split; [exact T2|split]].
  - split; [exact T1|]. intros Hl.
    destruct Hcases as [?|[Hc|Hc]]; [assumption| |].
    + specialize (T3 Hc). rewrite Hl in T3. now apply Hpend in T3.
    + specialize (T4 Hc). rewrite Hl in T4. now apply Hpend in T4.
  - split; [exact T3|]. intros Hl. destruct (Hload _ Hl) as [H1 H2].
    destruct Hcases as [Hc|[?|Hc]]; [|assumption|].
    + now specialize (T1 Hc).
    + now specialize (T4 Hc).
  - split; [exact T4|]. intros Hl Hit. unfold items in Hit.
    apply elem_of_app in Hit as [Hc|Hc].
    + destruct (Hload _ (T3 Hc)) as [H1 _]. contradiction.
    + rewrite (T1 Hc) in Hl. now apply Hpend in Hl.
Qed.

End lifecycle.

Lemma hasClass_false c n : hasClass c n = false ↔ c ∉ classes n.
Proof. unfold hasClass. apply bool_decide_eq_false. Qed.

Lemma loaded_each_classes v cs :
  "hidpi-loaded" ∈ each_classes v cs → "hidpi-loaded" ∈ cs.
Proof.
  unfold each_classes. destruct v.
  - rewrite add_class_elem, !remove_class_elem. intros [H|[=]]. tauto.
  - rewrite add_class_elem. intros [H|[=]]. assumption.
Qed.

(** A change of classes that does not add [hidpi-loaded]. *)
Lemma unloaded_on_nodes sel g (d : document) :
  (∀ cs, "hidpi-loaded" ∈ g cs → "hidpi-loaded" ∈ cs) →
  unloaded_imgs d → unloaded_imgs (on_nodes sel (set_classes g) d).
Proof.
  intros Hg Hd n' Hn' Htag. apply on_nodes_elem in Hn' as (n & Hn & ->).
  case_bool_decide; [|now apply Hd].
  cbn [tagName set_classes] in Htag. apply hasClass_false. cbn [classes set_classes].
  intros Hin. apply Hg in Hin. specialize (Hd n Hn Htag).
  now apply hasClass_false in Hd.
Qed.

Lemma unloaded_step s e :
  sound s → rooted s → subscribed (zg s) → staged s →
  unloaded_imgs (dom (the_page s)) →
  unloaded_imgs (dom (the_page (HiDPI.step s e))).
Proof.
  intros Hs Hr Hz [Ht Hone] Hu. destruct e as [win|win|k|k|o].
  - unfold HiDPI.step. rewrite (check_closed win _ _ (sound_nids _ Hs)). cbn [the_page dom].
    intros n' Hn' Htag. apply list_elem_of_fmap in Hn' as (n & -> & Hn).
    unfold scan_element in *. case_bool_decide; [|now apply Hu].
    cbn [tagName set_classes] in Htag. apply hasClass_false. cbn [classes set_classes].
    intros Hin. unfold scan_classes in Hin. apply loaded_each_classes in Hin.
    apply remove_class_elem in Hin as [Hin _].
    specialize (Hu n Hn Htag). now apply hasClass_false in Hu.
  - destruct (scroll_closed win s Hs Hz) as (Hp & _). rewrite Hp. cbn [dom].
    apply unloaded_on_nodes; [|assumption]. intros cs. apply loaded_each_classes.
  - unfold HiDPI.step.
    destruct (deliver_cases_live k on_load s) as [->|(this & Hk & Hset & Hsrc & ->)];
      [assumption|].
    cbn [the_page settle dom].
    destruct (decide (prop_tagName (event_data this) (dom (the_page s)) = Some "IMG"))
      as [Himg|Himg].
    { unfold on_load. now rewrite (hiDPILoaded_img this _ Himg). }
    destruct (Hone this) as [i Hi]; [apply list_elem_of_lookup; eauto|].
    assert (Hin : i ∈ nid <$> dom (the_page s)).
    { apply (rooted_items _ Hr). unfold items. apply elem_of_app. left.
      apply (loader_items_elem _ k this); [assumption|]. rewrite Hi. apply list_elem_of_here. }
    apply list_elem_of_fmap in Hin as (n & -> & Hn).
    pose proof (sound_nids _ Hs) as Hnids.
    assert (Htag : tagName n ≠ "IMG").
    { intros E. apply Himg. rewrite Hi. unfold prop_tagName, first_node.
      rewrite (lookup_node_elem _ n Hnids Hn). simpl. now rewrite E. }
    apply list_elem_of_split in Hn as (d1 & d2 & Hd).
    rewrite (on_load_container this _ d1 n d2 Hd Hi Hnids Htag). cbn [dom].
    intros n' Hn'. rewrite elem_of_app, !elem_of_cons in Hn'.
    destruct Hn' as [Hn'|[->|[->|Hn']]].
    + apply Hu. rewrite Hd, elem_of_app. now left.
    + intros E. now cbn [tagName loaded_container] in E.
    + intros E. discriminate E.
    + apply Hu. rewrite Hd, elem_of_app, elem_of_cons. auto.
  - unfold HiDPI.step.
    destruct (deliver_cases_live k hiDPIError s) as [->|(this & Hk & Hset & Hsrc & ->)];
      [assumption|].
    cbn [the_page settle dom]. rewrite hiDPIError_dom.
    apply unloaded_on_nodes; [|assumption]. intros cs.
    rewrite add_class_elem, remove_class_elem. intros [H|[=]]. tauto.
  - unfold HiDPI.step. cbv zeta. case_bool_decide as Ho; [|assumption].
    cbn [the_page dom].
    destruct (hiDPIAnimationComplete_dom o (the_page s)) as (sel & Hd & _).
    rewrite Hd. intros n' Hn'.
    assert (Hin : n' ∈ removeClass ["hidpi-animating"] sel (dom (the_page s))).
    { eapply elem_of_sublist; [exact Hn'|]. apply remove_from_sublist. }
    clear Hn'. revert n' Hin.
    change (unloaded_imgs (removeClass ["hidpi-animating"] sel (dom (the_page s)))).
    unfold removeClass. apply unloaded_on_nodes; [|assumption].
    intros cs. cbn [foldl]. rewrite remove_class_elem. tauto.
Qed.

Lemma unloaded_run s es :
  sound s → rooted s → subscribed (zg s) → staged s →
  unloaded_imgs (dom (the_page s)) →
  staged (HiDPI.run s es) ∧ unloaded_imgs (dom (the_page (HiDPI.run s es))).
Proof.
  revert s. induction es as [|e es IH]; intros s H1 H2 H3 H4 H5; [now split|].
  change (HiDPI.run s (e :: es)) with (HiDPI.run (HiDPI.step s e) es).
  apply IH; [now apply sound_step|now apply rooted_step|now apply subscribed_step
            |now apply staged_step|now apply unloaded_step].
Qed.

Section img.
Variable d : document.
Hypothesis distinct : NoDup (nid <$> d).
Hypothesis closed : ∀ n q, n ∈ d → parent n = Some q → q ∈ nid <$> d.
Hypothesis unprocessed : ∀ n, n ∈ d → lifecycle_of n ∈ [[]; ["hidpi-ready"]].

(** X15. No IMG element is ever loaded.  On any page reached from such a
    document, whatever load events have been delivered, an IMG element does
    not carry [hidpi-loaded]: its lifecycle classes are none, [hidpi-ready],
    [hidpi-pending], [hidpi-loading], or [hidpi-loading] with
    [hidpi-error]. *)
Theorem img_element_never_loaded (es : list event) (n : node) :
  let s := HiDPI.run (start d) es in
  n ∈ dom (the_page s) →
  tagName n = "IMG" →
  hasClass "hidpi-loaded" n = false
  ∧ lifecycle_of n ∈ [[]; ["hidpi-ready"]; ["hidpi-pending"]; ["hidpi-loading"];
                      ["hidpi-loading"; "hidpi-error"]].
Proof.
  intros s Hn Htag.
  destruct (unloaded_run (start d) es) as [Hst Hun].
  - now apply sound_start.
  - now apply rooted_start.
  - apply subscribed_empty.
  - now apply staged_start.
  - intros m Hm _. apply hasClass_false. intros Hin.
    specialize (unprocessed m Hm).
    assert (Hl : "hidpi-loaded" ∈ lifecycle_of m).
    { unfold lifecycle_of. apply list_elem_of_filter. split; [lifecycle_member|assumption]. }
    repeat (apply elem_of_cons in unprocessed as [E|unprocessed];
            [rewrite E in Hl; repeat (apply elem_of_cons in Hl as [Hl|Hl];
                                      [discriminate Hl|]);
             now apply elem_of_nil in Hl|]).
    now apply elem_of_nil in unprocessed.
  - fold s in Hst, Hun. specialize (Hun n Hn Htag). split; [assumption|].
    pose proof (staged_states s n Hst Hn) as Hl.
    apply hasClass_false in Hun.
    repeat (apply elem_of_cons in Hl as [Hl|Hl];
            [rewrite Hl;
             first [solve [repeat (first [apply list_elem_of_here
                                          |apply list_elem_of_further])]
                   |exfalso; apply Hun;
                    assert (Hx : "hidpi-loaded" ∈ lifecycle_of n)
                      by (rewrite Hl; apply list_elem_of_here);
                    unfold lifecycle_of in Hx;
                    now apply list_elem_of_filter in Hx as [_ Hx]]|]).
    now apply elem_of_nil in Hl.
Qed.

End img.




Section completes.
Variable d : document.
Hypothesis distinct : NoDup (nid <$> d).
Hypothesis closed : ∀ n q, n ∈ d → parent n = Some q → q ∈ nid <$> d.


End completes.

(** ** The module body *)

Import Driver.

Lemma tidy_boot first_id d win : tidy (boot first_id d win).
Proof.
  split; cbn.
  - now left.
  - intros id Hx. discriminate Hx.
  - lia.
  - now right.
Qed.

Lemma filter_drop_one (id : nat) : filter (λ i, i ≠ id) [id] = [].
Proof. rewrite filter_cons, decide_False by (intros E; now apply E). reflexivity. Qed.

Lemma tidy_step c i : tidy c → tidy (Driver.step c i).
Proof.
  intros [Ht Hf Hr Hp]. destruct i as [id win|id win|win| |e]; cbn [Driver.step].
  - case_bool_decide; [|now split]. now split.
  - case_bool_decide as Hin; [|now split].
    split; cbn; auto. left.
    destruct Ht as [Ht|(id' & Ht & Hid)]; rewrite Ht in *; [reflexivity|].
    apply list_elem_of_singleton in Hin. subst id'. apply filter_drop_one.
  - split; cbn; auto.
    destruct Hp as [-> | ->]; [now left|]. left. apply filter_drop_one.
  - unfold clear_refresh.
    destruct (refreshTimer c) as [id|] eqn:Hid.
    + destruct (Hf id eq_refl) as [Hlo Hhi].
      rewrite bool_decide_eq_false_2 by lia.
      split; cbn.
      * right. exists (next_id (browser c)). split; [|reflexivity].
        destruct Ht as [->|(id' & -> & Hid')]; [reflexivity|].
        injection Hid' as ->. now rewrite filter_drop_one.
      * intros id' Hx. injection Hx as <-. lia.
      * lia.
      * exact Hp.
    + split; cbn.
      * right. exists (next_id (browser c)). split; [|reflexivity].
        destruct Ht as [->|(id' & _ & Hx)]; [reflexivity|discriminate Hx].
      * intros id' Hx. injection Hx as <-. lia.
      * lia.
      * exact Hp.
  - now split.
Qed.

Lemma tidy_run c ins : tidy c → tidy (Driver.run c ins).
Proof.
  revert c. induction ins as [|i ins IH]; intros c Hc; [assumption|].
  apply IH. now apply tidy_step.
Qed.

(** X17. The resize handler keeps at most one scan pending.  Whatever the
    timers, resize events and page events after the script has started, at
    most one timeout is set, and it is the one [refreshTimer] names (whose
    identifier is not [0], so that the next resize clears it); and the
    polling timer is the only interval the script has set, if it still is
    set. *)
Theorem resize_keeps_one_timeout
    (first_id : nat) (d : document) (win : window) (ins : list input) :
  let c := Driver.run (boot first_id d win) ins in
  (timeouts (browser c) = []
   ∨ ∃ id, timeouts (browser c) = [id] ∧ refreshTimer c = Some id ∧ id ≠ 0)
  ∧ (intervals (browser c) = [] ∨ intervals (browser c) = [readyTimer c]).
Proof.
  intros c. destruct (tidy_run (boot first_id d win) ins (tidy_boot _ _ _))
    as [Ht Hf _ Hp].
  split; [|exact Hp].
  destruct Ht as [Ht|(id & Ht & Hid)]; [now left|]. right. exists id.
  destruct (Hf id Hid). repeat split; auto. lia.
Qed.

Lemma resize_once c :
  tidy c →
  let c1 := Driver.step c Resize in
  refreshTimer c1 = Some (next_id (browser c))
  ∧ timeouts (browser c1) = [next_id (browser c)]
  ∧ intervals (browser c1) = intervals (browser c)
  ∧ readyTimer c1 = readyTimer c
  ∧ sys c1 = sys c.
Proof.
  intros [Ht Hf Hr Hp]. cbn [Driver.step]. unfold clear_refresh.
  destruct (refreshTimer c) as [id|] eqn:Hid.
  - destruct (Hf id eq_refl) as [Hlo Hhi].
    rewrite bool_decide_eq_false_2 by lia. cbn. repeat split.
    destruct Ht as [->|(id' & -> & Hid')]; [reflexivity|].
    injection Hid' as ->. now rewrite filter_drop_one.
  - cbn. repeat split. destruct Ht as [->|(id' & _ & Hx)]; [reflexivity|discriminate Hx].
Qed.

(** X18. A burst of resize events costs one scan: after one or more resize
    events in a row the page is as before them and exactly one timeout is
    set, the one of the last resize; when it fires the page is scanned once
    and no timeout is left; the timeouts of the earlier resize events have
    been cleared and do nothing. *)
Theorem resize_burst_is_one_scan
    (first_id : nat) (d : document) (win0 : window) (ins : list input) (n : nat) :
  let c := Driver.run (boot first_id d win0) ins in
  let c1 := Driver.run c (replicate (S n) Resize) in
  ∃ id,
    refreshTimer c1 = Some id
    ∧ timeouts (browser c1) = [id]
    ∧ sys c1 = sys c
    ∧ ∀ win,
        sys (Driver.step c1 (Timeout id win)) = HiDPI.step (sys c) (Check win)
        ∧ timeouts (browser (Driver.step c1 (Timeout id win))) = []
        ∧ ∀ id' win', id' ≠ id → Driver.step c1 (Timeout id' win') = c1.
Proof.
  intros c c1.
  assert (Hc : tidy c) by apply tidy_run, tidy_boot.
  assert (H : ∀ m c0, tidy c0 →
            ∃ id, refreshTimer (Driver.run c0 (replicate (S m) Resize)) = Some id
                  ∧ timeouts (browser (Driver.run c0 (replicate (S m) Resize))) = [id]
                  ∧ sys (Driver.run c0 (replicate (S m) Resize)) = sys c0).
  { induction m as [|m IH]; intros c0 Hc0.
    - destruct (resize_once c0 Hc0) as (H1 & H2 & _ & _ & H3).
      exists (next_id (browser c0)). auto.
    - change (Driver.run c0 (replicate (S (S m)) Resize))
        with (Driver.run (Driver.step c0 Resize) (replicate (S m) Resize)).
      destruct (IH (Driver.step c0 Resize) (tidy_step _ _ Hc0)) as (id & H1 & H2 & H3).
      exists id. split; [assumption|]. split; [assumption|].
      rewrite H3. apply (resize_once c0 Hc0). }
  destruct (H n c Hc) as (id & H1 & H2 & H3). fold c1 in H1, H2, H3.
  exists id. split; [assumption|]. split; [assumption|]. split; [assumption|].
  intros win.
  assert (Hstep : Driver.step c1 (Timeout id win)
                  = check win (Controller (readyTimer c1) (refreshTimer c1)
                                 (clearTimeout id (browser c1)) (sys c1))).
  { cbn [Driver.step]. rewrite H2.
    now rewrite bool_decide_eq_true_2 by apply list_elem_of_here. }
  rewrite Hstep. unfold check, clearTimeout. cbn [sys browser timeouts].
  rewrite H2, H3. split; [reflexivity|]. split; [apply filter_drop_one|].
  intros id' win' Hne. cbn [Driver.step]. rewrite H2.
  rewrite bool_decide_eq_false_2; [reflexivity|].
  rewrite list_elem_of_singleton. exact Hne.
Qed.

Lemma polling_off c i :
  intervals (browser c) = [] → intervals (browser (Driver.step c i)) = [].
Proof.
  intros Hc. destruct i as [id win|id win|win| |e]; cbn [Driver.step].
  - now case_bool_decide.
  - now case_bool_decide.
  - cbn. now rewrite Hc.
  - unfold clear_refresh. destruct (refreshTimer c) as [id|]; [|exact Hc].
    now case_bool_decide.
  - exact Hc.
Qed.

(** X19. The polling stops when the DOM is ready: once the ready handler
    has run, no interval is set, whatever follows, and a firing of the
    polling timer changes nothing. *)
Theorem polling_stops_at_dom_ready
    (first_id : nat) (d : document) (win0 win : window) (before after : list input) :
  let c := Driver.run (boot first_id d win0) (before ++ DomReady win :: after) in
  intervals (browser c) = []
  ∧ ∀ id w, Driver.step c (Interval id w) = c.
Proof.
  intros c.
  assert (H : intervals (browser c) = []).
  { unfold c, Driver.run. rewrite foldl_app. cbn [foldl].
    set (c0 := foldl Driver.step (boot first_id d win0) before).
    assert (Hc0 : tidy c0) by apply (tidy_run _ before), tidy_boot.
    assert (H1 : intervals (browser (Driver.step c0 (DomReady win))) = []).
    { cbn. destruct (tidy_polling _ Hc0) as [-> | ->]; [reflexivity|apply filter_drop_one]. }
    revert H1. generalize (Driver.step c0 (DomReady win)) as c1.
    induction after as [|i after IH]; intros c1 H1; [assumption|].
    cbn [foldl]. apply IH. now apply polling_off. }
  split; [assumption|]. intros id w. cbn [Driver.step]. rewrite H.
  now rewrite bool_decide_eq_false_2 by apply not_elem_of_nil.
Qed.

Lemma step_asked c i : sys (Driver.step c i) = HiDPI.run (sys c) (asked c i).
Proof.
  destruct i as [id win|id win|win| |e]; cbn [Driver.step asked].
  - now case_bool_decide.
  - now case_bool_decide.
  - reflexivity.
  - unfold clear_refresh. now destruct (setTimeout _).
  - reflexivity.
Qed.

Lemma run_events c ins : sys (Driver.run c ins) = HiDPI.run (sys c) (events c ins).
Proof.
  revert c. induction ins as [|i ins IH]; intros c; [reflexivity|].
  change (Driver.run c (i :: ins)) with (Driver.run (Driver.step c i) ins).
  cbn [events]. rewrite IH, step_asked. unfold HiDPI.run. now rewrite foldl_app.
Qed.

Section script.
Variable d : document.
Hypothesis distinct : NoDup (nid <$> d).
Hypothesis closed : ∀ n q, n ∈ d → parent n = Some q → q ∈ nid <$> d.
Hypothesis unprocessed : ∀ n, n ∈ d → lifecycle_of n ∈ [[]; ["hidpi-ready"]].

(** X20. The script drives the page by its events only.  The page the
    script has reached is the page model's run, from the document, of the
    first scan and of the events the inputs ask for: a scan for every firing
    of a timer that is set and for DOM ready, none for a resize event, and
    the other events as they come.  So whatever the timers do, every element
    of a well-formed document that started without lifecycle classes other
    than [hidpi-ready] is in one of the six lifecycle states. *)
Theorem script_keeps_lifecycle
    (first_id : nat) (win : window) (ins : list input) :
  let c := Driver.run (boot first_id d win) ins in
  sys c = HiDPI.run (start d) (Check win :: events (boot first_id d win) ins)
  ∧ ∀ n, n ∈ dom (the_page (sys c)) →
      lifecycle_of n ∈ [[]; ["hidpi-ready"]; ["hidpi-pending"]; ["hidpi-loading"];
                        ["hidpi-loaded"]; ["hidpi-loading"; "hidpi-error"]].
Proof.
  intros c.
  assert (Hc : sys c = HiDPI.run (start d) (Check win :: events (boot first_id d win) ins)).
  { unfold c. now rewrite run_events. }
  split; [exact Hc|]. rewrite Hc. intros n. apply staged_states.
  apply staged_run;
    [now apply sound_start|now apply rooted_start|apply subscribed_empty
    |now apply staged_start].
Qed.

End script.

(** ** The sample pages *)


Lemma scan_gives_one_state_witness :
  ∃ n', dom (checkForHiDPIElements Examples.view0
               (Page Examples.sample [] [] [] [], ZG_Waypoints.empty)).1 !! 3 = Some n'
        ∧ nid n' = 3
        ∧ lifecycle_of n' = ["hidpi-pending"].
Proof.
  apply (scan_gives_one_state Examples.view0 (Page Examples.sample [] [] [] [])
           ZG_Waypoints.empty 3
           (Examples.element 3 (Some 0) "SECTION" ["hidpi-ready"] "hi/3.jpg" 1280 300 3000)).
  - exact sample_distinct.
  - reflexivity.
  - vm_compute. repeat (first [apply list_elem_of_here|apply list_elem_of_further]).
  - reflexivity.
Defined.


Lemma unsourced_distinct : NoDup (nid <$> Samples.unsourced).
Proof.
  apply (bool_decide_unpack (NoDup (nid <$> Samples.unsourced))).
  vm_compute. exact I.
Qed.

Lemma unsourced_closed (n : node) (q : nat) :
  n ∈ Samples.unsourced → parent n = Some q → q ∈ nid <$> Samples.unsourced.
Proof.
  intros Hn Hq. repeat (apply elem_of_cons in Hn as [->|Hn]);
    try (now apply elem_of_nil in Hn); simpl in Hq; try discriminate;
    injection Hq as <-; apply list_elem_of_here.
Qed.



Lemma unsourced_element_stays_loading_witness :
  marked "hidpi-loading" 1
    (dom (the_page (HiDPI.run (HiDPI.step (HiDPI.run (start Samples.unsourced) [])
                                 (Check Examples.view0))
                      [Load 0; Error 0; Check Examples.view0]))).
Proof.
  apply (unsourced_element_stays_loading Samples.unsourced unsourced_distinct
           unsourced_closed [] [Load 0; Error 0; Check Examples.view0]
           Examples.view0 Samples.teaser).
  - vm_compute. apply list_elem_of_further, list_elem_of_here.
  - vm_compute. apply list_elem_of_here.
  - reflexivity.
  - reflexivity.
Defined.


Lemma sample_unprocessed (n : node) :
  n ∈ Examples.sample → lifecycle_of n ∈ [[]; ["hidpi-ready"]].
Proof.
  intros Hn. repeat (apply elem_of_cons in Hn as [->|Hn]);
    try (now apply elem_of_nil in Hn);
    vm_compute; repeat (first [apply list_elem_of_here|apply list_elem_of_further]).
Qed.

Lemma lifecycle_follows_tracking_witness :
  3 ∈ waypoint_items (zg (HiDPI.run (start Examples.sample) [Check Examples.view0]))
  ↔ lifecycle_of
      (Examples.element 3 (Some 0) "SECTION" ["hidpi-pending"] "hi/3.jpg" 1280 300 3000)
    = ["hidpi-pending"].
Proof.
  apply (proj1 (lifecycle_follows_tracking Examples.sample sample_distinct sample_closed
                  sample_unprocessed [Check Examples.view0]
                  (Examples.element 3 (Some 0) "SECTION" ["hidpi-pending"] "hi/3.jpg"
                     1280 300 3000)
                  ltac:(vm_compute;
                        repeat (first [apply list_elem_of_here
                                      |apply list_elem_of_further])))).
Defined.

Lemma img_element_never_loaded_witness :
  hasClass "hidpi-loaded"
    (Examples.element 2 (Some 0) "IMG" ["hidpi-loading"] "hi/2.jpg" 1200 300 400)
  = false.
Proof.
  apply (proj1 (img_element_never_loaded Examples.sample sample_distinct sample_closed
                  sample_unprocessed [Check Examples.view0; Load 1]
                  (Examples.element 2 (Some 0) "IMG" ["hidpi-loading"] "hi/2.jpg"
                     1200 300 400)
                  ltac:(vm_compute;
                        repeat (first [apply list_elem_of_here
                                      |apply list_elem_of_further]))
                  eq_refl)).
Defined.


Lemma script_keeps_lifecycle_witness :
  lifecycle_of
    (Examples.element 3 (Some 0) "SECTION" ["hidpi-pending"] "hi/3.jpg" 1280 300 3000)
  ∈ [[]; ["hidpi-ready"]; ["hidpi-pending"]; ["hidpi-loading"];
     ["hidpi-loaded"]; ["hidpi-loading"; "hidpi-error"]].
Proof.
  apply (proj2 (script_keeps_lifecycle Examples.sample sample_distinct sample_closed
                  sample_unprocessed 1 Examples.view0
                  [Resize; Resize; Timeout 3 Examples.view1])).
  vm_compute. repeat (first [apply list_elem_of_here|apply list_elem_of_further]).
Defined.

Example script_sample :
  let c := Driver.run (boot 1 Examples.sample Examples.view0)
             [Resize; Interval 1 Examples.view0; Resize; DomReady Examples.view0;
              Timeout 2 Examples.view1; Interval 1 Examples.view1] in
  readyTimer c = 1 ∧ refreshTimer c = Some 3
  ∧ browser c = Timers 4 [] [3]
  ∧ sys c = Examples.scanned.
Proof. vm_compute. repeat split. Qed.
